(** * A shallow embedding of the YARP lexer ([ext/yarp/yarp.c], [yarp.h])

    The C lexer walks a byte buffer with two pointers ([current.start],
    [current.end]) and a stack of lex modes.  Pointers into the source are
    modelled as offsets (of type [Z]) from [parser->start]; the source is a
    list of bytes; the mode stack is the inline array of
    [YP_LEX_STACK_SIZE] slots together with the heap nodes that
    [push_lex_mode] allocates past it.

    Two places of the C code can read memory that the program never wrote:
    the node that [push_lex_mode] allocates with [malloc] (it is never
    filled in), and the byte before the buffer that the [=begin] test reads
    when [=] is the first byte.  Both are undefined behaviour in C; the
    embedding makes the lexer return [None] there.

    The lexer relies on a NUL sentinel at [parser->end], the byte that
    follows the buffer: a read at the offset [length source] yields [0].
    What lies after the sentinel is not part of the buffer (the host maps
    the file, and the rest of the last page is zero only when the size of
    the file is not a multiple of the page size); [byte_at] yields [0]
    there as well, which is one possible content of that memory.  The
    theorems on the end of the token stream (C1), on the offsets of the
    tokens (C8) and on the literal modes at the end of the buffer (X6) are
    therefore stated for calls that are entered with the cursor on the
    sentinel or before it. *)

From Stdlib Require Import ZArith Lia Bool Ascii String.
From stdpp Require Import base option list.

Local Open Scope Z_scope.

(** ** Bytes and character literals *)

(** A C character literal, as the integer value of the character. *)
Definition ch (a : ascii) : Z := Z.of_N (N_of_ascii a).

Definition bytes_of_string (s : string) : list Z := map ch (list_ascii_of_string s).

(** ** Token types ([yp_token_type_t]) *)

Inductive yp_token_type_t : Set :=
| YP_TOKEN_EOF
| YP_TOKEN_INVALID
| YP_TOKEN_AMPERSAND
| YP_TOKEN_AMPERSAND_AMPERSAND
| YP_TOKEN_AMPERSAND_AMPERSAND_EQUAL
| YP_TOKEN_AMPERSAND_EQUAL
| YP_TOKEN_BACK_REFERENCE
| YP_TOKEN_BACKTICK
| YP_TOKEN_BANG
| YP_TOKEN_BANG_AT
| YP_TOKEN_BANG_EQUAL
| YP_TOKEN_BANG_TILDE
| YP_TOKEN_BRACE_LEFT
| YP_TOKEN_BRACE_RIGHT
| YP_TOKEN_BRACKET_LEFT
| YP_TOKEN_BRACKET_LEFT_RIGHT
| YP_TOKEN_BRACKET_RIGHT
| YP_TOKEN_CARET
| YP_TOKEN_CARET_EQUAL
| YP_TOKEN_CHARACTER_LITERAL
| YP_TOKEN_CLASS_VARIABLE
| YP_TOKEN_COLON
| YP_TOKEN_COLON_COLON
| YP_TOKEN_COMMA
| YP_TOKEN_COMMENT
| YP_TOKEN_CONSTANT
| YP_TOKEN_DOT
| YP_TOKEN_DOT_DOT
| YP_TOKEN_DOT_DOT_DOT
| YP_TOKEN_EMBDOC_BEGIN
| YP_TOKEN_EMBDOC_END
| YP_TOKEN_EMBDOC_LINE
| YP_TOKEN_EMBEXPR_BEGIN
| YP_TOKEN_EMBEXPR_END
| YP_TOKEN_EQUAL
| YP_TOKEN_EQUAL_EQUAL
| YP_TOKEN_EQUAL_EQUAL_EQUAL
| YP_TOKEN_EQUAL_GREATER
| YP_TOKEN_EQUAL_TILDE
| YP_TOKEN_FLOAT
| YP_TOKEN_GREATER
| YP_TOKEN_GREATER_EQUAL
| YP_TOKEN_GREATER_GREATER
| YP_TOKEN_GREATER_GREATER_EQUAL
| YP_TOKEN_GLOBAL_VARIABLE
| YP_TOKEN_IDENTIFIER
| YP_TOKEN_IMAGINARY_NUMBER
| YP_TOKEN_INSTANCE_VARIABLE
| YP_TOKEN_INTEGER
| YP_TOKEN_KEYWORD___ENCODING__
| YP_TOKEN_KEYWORD___LINE__
| YP_TOKEN_KEYWORD___FILE__
| YP_TOKEN_KEYWORD_ALIAS
| YP_TOKEN_KEYWORD_AND
| YP_TOKEN_KEYWORD_BEGIN
| YP_TOKEN_KEYWORD_BEGIN_UPCASE
| YP_TOKEN_KEYWORD_BREAK
| YP_TOKEN_KEYWORD_CASE
| YP_TOKEN_KEYWORD_CLASS
| YP_TOKEN_KEYWORD_DEF
| YP_TOKEN_KEYWORD_DEFINED
| YP_TOKEN_KEYWORD_DO
| YP_TOKEN_KEYWORD_ELSE
| YP_TOKEN_KEYWORD_ELSIF
| YP_TOKEN_KEYWORD_END
| YP_TOKEN_KEYWORD_END_UPCASE
| YP_TOKEN_KEYWORD_ENSURE
| YP_TOKEN_KEYWORD_FALSE
| YP_TOKEN_KEYWORD_FOR
| YP_TOKEN_KEYWORD_IF
| YP_TOKEN_KEYWORD_IN
| YP_TOKEN_KEYWORD_MODULE
| YP_TOKEN_KEYWORD_NEXT
| YP_TOKEN_KEYWORD_NIL
| YP_TOKEN_KEYWORD_NOT
| YP_TOKEN_KEYWORD_OR
| YP_TOKEN_KEYWORD_REDO
| YP_TOKEN_KEYWORD_RESCUE
| YP_TOKEN_KEYWORD_RETRY
| YP_TOKEN_KEYWORD_RETURN
| YP_TOKEN_KEYWORD_SELF
| YP_TOKEN_KEYWORD_SUPER
| YP_TOKEN_KEYWORD_THEN
| YP_TOKEN_KEYWORD_TRUE
| YP_TOKEN_KEYWORD_UNDEF
| YP_TOKEN_KEYWORD_UNLESS
| YP_TOKEN_KEYWORD_UNTIL
| YP_TOKEN_KEYWORD_WHEN
| YP_TOKEN_KEYWORD_WHILE
| YP_TOKEN_KEYWORD_YIELD
| YP_TOKEN_LABEL
| YP_TOKEN_LAMBDA_BEGIN
| YP_TOKEN_LESS
| YP_TOKEN_LESS_EQUAL
| YP_TOKEN_LESS_EQUAL_GREATER
| YP_TOKEN_LESS_LESS
| YP_TOKEN_LESS_LESS_EQUAL
| YP_TOKEN_MINUS
| YP_TOKEN_MINUS_AT
| YP_TOKEN_MINUS_EQUAL
| YP_TOKEN_MINUS_GREATER
| YP_TOKEN_NEWLINE
| YP_TOKEN_NTH_REFERENCE
| YP_TOKEN_PARENTHESIS_LEFT
| YP_TOKEN_PARENTHESIS_RIGHT
| YP_TOKEN_PERCENT
| YP_TOKEN_PERCENT_EQUAL
| YP_TOKEN_PERCENT_LOWER_I
| YP_TOKEN_PERCENT_LOWER_W
| YP_TOKEN_PERCENT_LOWER_X
| YP_TOKEN_PERCENT_UPPER_I
| YP_TOKEN_PERCENT_UPPER_W
| YP_TOKEN_PIPE
| YP_TOKEN_PIPE_EQUAL
| YP_TOKEN_PIPE_PIPE
| YP_TOKEN_PIPE_PIPE_EQUAL
| YP_TOKEN_PLUS
| YP_TOKEN_PLUS_AT
| YP_TOKEN_PLUS_EQUAL
| YP_TOKEN_QUESTION_MARK
| YP_TOKEN_RATIONAL_NUMBER
| YP_TOKEN_REGEXP_BEGIN
| YP_TOKEN_REGEXP_END
| YP_TOKEN_SEMICOLON
| YP_TOKEN_SLASH
| YP_TOKEN_SLASH_EQUAL
| YP_TOKEN_STAR
| YP_TOKEN_STAR_EQUAL
| YP_TOKEN_STAR_STAR
| YP_TOKEN_STAR_STAR_EQUAL
| YP_TOKEN_STRING_BEGIN
| YP_TOKEN_STRING_CONTENT
| YP_TOKEN_STRING_END
| YP_TOKEN_SYMBOL_BEGIN
| YP_TOKEN_TILDE
| YP_TOKEN_TILDE_AT
| YP_TOKEN_WORDS_SEP.

(** ** Lex modes ([yp_lex_mode_t]) *)

Inductive yp_lex_mode_tag : Set :=
| YP_LEX_DEFAULT
| YP_LEX_EMBDOC
| YP_LEX_EMBEXPR
| YP_LEX_LIST
| YP_LEX_REGEXP
| YP_LEX_STRING
| YP_LEX_SYMBOL.

(** A [yp_lex_mode_t *]: the address of a slot of the inline array
    [lex_modes.stack], the address of a node obtained from [malloc], or
    [NULL]. *)
Inductive lex_mode_ptr : Set :=
| StackSlot (i : nat)
| HeapNode (a : nat)
| NullPtr.

Record yp_lex_mode_t : Set := {
  mode : yp_lex_mode_tag;
  term : Z;
  interp : bool;
  prev : lex_mode_ptr
}.

(** A compound literal [(yp_lex_mode_t) { .mode = m, .term = t, .interp = i }];
    fields that a literal of the source leaves out are zero ([term] is
    ['\0'], [interp] is [false]), and [prev] is always left out. *)
Definition lex_mode_lit (m : yp_lex_mode_tag) (t : Z) (i : bool) : yp_lex_mode_t :=
  {| mode := m; term := t; interp := i; prev := NullPtr |}.

Definition YP_LEX_STACK_SIZE : nat := 4.

(** ** Tokens and the parser ([yp_token_t], [yp_parser_t]) *)

(** [start] and [end_] are the offsets of the C pointers from
    [parser->start]. *)
Record yp_token_t : Set := {
  type : yp_token_type_t;
  start : Z;
  end_ : Z
}.

(** The anonymous struct [lex_modes] is flattened into the parser;
    [parser->start] is offset [0] and [parser->end] is the length of
    [source], whose elements are the bytes as integers (the lexer only
    compares a byte with ASCII literals, so the signedness of [char] plays
    no part).  [heap] holds the nodes given out by [malloc]: a node is
    [None] as long as nothing has been stored in it.  [lineno] is a C
    [int]; it is modelled without bound, which is exact for buffers of
    fewer than [2^31 - 1] bytes. *)
Record yp_parser_t : Set := {
  lex_modes_current : lex_mode_ptr;
  lex_modes_stack : list yp_lex_mode_t;
  lex_modes_index : nat;
  heap : list (option yp_lex_mode_t);
  source : list Z;
  previous : yp_token_t;
  current : yp_token_t;
  lineno : Z
}.

Definition parser_end (p : yp_parser_t) : Z := Z.of_nat (length (source p)).

(** The cursor, [parser->current.end]. *)
Definition cur (p : yp_parser_t) : Z := end_ (current p).

Definition set_current (p : yp_parser_t) (t : yp_token_t) : yp_parser_t :=
  {| lex_modes_current := lex_modes_current p; lex_modes_stack := lex_modes_stack p;
     lex_modes_index := lex_modes_index p; heap := heap p; source := source p;
     previous := previous p; current := t; lineno := lineno p |}.

Definition set_previous (p : yp_parser_t) (t : yp_token_t) : yp_parser_t :=
  {| lex_modes_current := lex_modes_current p; lex_modes_stack := lex_modes_stack p;
     lex_modes_index := lex_modes_index p; heap := heap p; source := source p;
     previous := t; current := current p; lineno := lineno p |}.

Definition set_lineno (p : yp_parser_t) (n : Z) : yp_parser_t :=
  {| lex_modes_current := lex_modes_current p; lex_modes_stack := lex_modes_stack p;
     lex_modes_index := lex_modes_index p; heap := heap p; source := source p;
     previous := previous p; current := current p; lineno := n |}.

Definition set_lex_modes (p : yp_parser_t) (c : lex_mode_ptr) (s : list yp_lex_mode_t)
    (i : nat) (hp : list (option yp_lex_mode_t)) : yp_parser_t :=
  {| lex_modes_current := c; lex_modes_stack := s; lex_modes_index := i; heap := hp;
     source := source p; previous := previous p; current := current p;
     lineno := lineno p |}.

Definition set_end (p : yp_parser_t) (e : Z) : yp_parser_t :=
  set_current p {| type := type (current p); start := start (current p); end_ := e |}.

Definition set_start (p : yp_parser_t) (s : Z) : yp_parser_t :=
  set_current p {| type := type (current p); start := s; end_ := end_ (current p) |}.

Definition set_type (p : yp_parser_t) (t : yp_token_type_t) : yp_parser_t :=
  set_current p {| type := t; start := start (current p); end_ := end_ (current p) |}.

(** [parser->current.end += k] *)
Definition advance (p : yp_parser_t) (k : Z) : yp_parser_t := set_end p (cur p + k).

(** The byte at offset [i] of the source.  At the offset [length src] the
    lexer finds the NUL byte it uses as its sentinel.  The offsets after
    it are outside the buffer: the [0] they yield stands for one possible
    content of the memory there, which the program does not control. *)
Definition byte_at (src : list Z) (i : Z) : Z :=
  if i <? 0 then 0 else nth (Z.to_nat i) src 0.

(** [parser->current.end[k]] *)
Definition peek (p : yp_parser_t) (k : Z) : Z := byte_at (source p) (cur p + k).

(** Every scanning loop of the lexer moves the cursor forward by at least
    one byte per iteration and stops at a zero byte or at [parser->end], so
    it runs at most [length source + 1] times from a cursor inside the
    buffer. *)
Definition fuel_of (src : list Z) : nat := S (length src).

(** ** Error handlers ([yp_error_handler_t]) *)

Record yp_error_handler_t : Type := {
  unterminated_embdoc : yp_parser_t -> yp_token_type_t * yp_parser_t;
  unterminated_list : yp_parser_t -> yp_token_type_t * yp_parser_t;
  unterminated_regexp : yp_parser_t -> yp_token_type_t * yp_parser_t;
  unterminated_string : yp_parser_t -> yp_token_type_t * yp_parser_t
}.

(** ** Basic character checks *)

Definition is_binary_number_char (c : Z) : bool :=
  (c =? ch "0") || (c =? ch "1").

Definition is_octal_number_char (c : Z) : bool :=
  (ch "0" <=? c) && (c <=? ch "7").

Definition is_decimal_number_char (c : Z) : bool :=
  (ch "0" <=? c) && (c <=? ch "9").

Definition is_hexadecimal_number_char (c : Z) : bool :=
  ((ch "0" <=? c) && (c <=? ch "9")) || ((ch "a" <=? c) && (c <=? ch "f"))
  || ((ch "A" <=? c) && (c <=? ch "F")).

Definition is_identifier_start_char (c : Z) : bool :=
  ((ch "a" <=? c) && (c <=? ch "z")) || ((ch "A" <=? c) && (c <=? ch "Z"))
  || (c =? ch "_").

Definition is_identifier_char (c : Z) : bool :=
  is_identifier_start_char c || is_decimal_number_char c.

Definition is_non_newline_whitespace_char (c : Z) : bool :=
  (c =? ch " ") || (c =? ch "009") || (c =? ch "012") || (c =? ch "013")
  || (c =? ch "011").

Definition is_whitespace_char (c : Z) : bool :=
  is_non_newline_whitespace_char c || (c =? ch "010").

(** ** Lexer check helpers *)

(** [match]: if the byte under the cursor is [value], consume it. *)
Definition match_ (p : yp_parser_t) (value : Z) : bool * yp_parser_t :=
  if peek p 0 =? value then (true, advance p 1) else (false, p).

(** [match(parser, a) || match(parser, b)] *)
Definition match_either (p : yp_parser_t) (a b : Z) : bool * yp_parser_t :=
  let '(r, p1) := match_ p a in
  if r then (true, p1) else match_ p1 b.

Definition terminator (start : Z) : Z :=
  if start =? ch "(" then ch ")"
  else if start =? ch "[" then ch "]"
  else if start =? ch "{" then ch "}"
  else if start =? ch "<" then ch ">"
  else start.

(** [strncmp(source + pos, s, n) == 0], [s] being a C string: the bytes
    are compared until one differs, both are NUL, or [n] have been
    compared. *)
Fixpoint strncmp_eq (src : list Z) (pos : Z) (s : list Z) (n : nat) : bool :=
  match n with
  | O => true
  | S k =>
      let a := byte_at src pos in
      let b := hd 0 s in
      if a =? b then (if a =? 0 then true else strncmp_eq src (pos + 1) (tl s) k)
      else false
  end.

(** ** Lex mode manipulations *)

(** Reading through a [yp_lex_mode_t *].  A slot outside the inline
    array, a node that was never written and [NULL] cannot be read. *)
Definition load (p : yp_parser_t) (ptr : lex_mode_ptr) : option yp_lex_mode_t :=
  match ptr with
  | StackSlot i => lex_modes_stack p !! i
  | HeapNode a => mjoin (heap p !! a)
  | NullPtr => None
  end.

(** [ptr->mode = m] *)
Definition store_mode (p : yp_parser_t) (ptr : lex_mode_ptr) (m : yp_lex_mode_tag)
    : option yp_parser_t :=
  let upd (n : yp_lex_mode_t) := {| mode := m; term := term n; interp := interp n; prev := prev n |} in
  match ptr with
  | StackSlot i =>
      n ← lex_modes_stack p !! i;
      Some (set_lex_modes p (lex_modes_current p) (<[i := upd n]> (lex_modes_stack p))
              (lex_modes_index p) (heap p))
  | HeapNode a =>
      c ← heap p !! a;
      Some (set_lex_modes p (lex_modes_current p) (lex_modes_stack p)
              (lex_modes_index p) (<[a := upd <$> c]> (heap p)))
  | NullPtr => None
  end.

(** [push_lex_mode].  Past the inline array the new top is the node that
    [malloc] returns; the source stores nothing in it, so it is added to
    the heap unwritten.  ([malloc] is taken never to fail.) *)
Definition push_lex_mode (p : yp_parser_t) (lex_mode : yp_lex_mode_t) : yp_parser_t :=
  let lex_mode := {| mode := mode lex_mode; term := term lex_mode;
                     interp := interp lex_mode; prev := lex_modes_current p |} in
  let index := S (lex_modes_index p) in
  if (YP_LEX_STACK_SIZE - 1 <? index)%nat then
    set_lex_modes p (HeapNode (length (heap p))) (lex_modes_stack p) index (heap p ++ [None])
  else
    set_lex_modes p (StackSlot index) (<[index := lex_mode]> (lex_modes_stack p)) index (heap p).

(** [free(ptr)]: only a heap node can be freed; its contents are gone. *)
Definition free (hp : list (option yp_lex_mode_t)) (ptr : lex_mode_ptr)
    : option (list (option yp_lex_mode_t)) :=
  match ptr with
  | HeapNode a => if (a <? length hp)%nat then Some (<[a := None]> hp) else None
  | _ => None
  end.

(** [pop_lex_mode] *)
Definition pop_lex_mode (p : yp_parser_t) : option yp_parser_t :=
  if (lex_modes_index p =? 0)%nat then
    store_mode p (lex_modes_current p) YP_LEX_DEFAULT
  else if (lex_modes_index p <? YP_LEX_STACK_SIZE)%nat then
    let index := (lex_modes_index p - 1)%nat in
    Some (set_lex_modes p (StackSlot index) (lex_modes_stack p) index (heap p))
  else
    let index := (lex_modes_index p - 1)%nat in
    n ← load p (lex_modes_current p);
    hp ← free (heap p) (lex_modes_current p);
    Some (set_lex_modes p (prev n) (lex_modes_stack p) index hp).

(** ** Scanning loops *)

(** [while (f(parser->current.end)) parser->current.end++;] on the cursor [e]. *)
Fixpoint scan_while (f : Z -> bool) (src : list Z) (fuel : nat) (e : Z) : Z :=
  match fuel with
  | O => e
  | S k => if f (byte_at src e) then scan_while f src k (e + 1) else e
  end.

(** [while (is_digit(parser->current.end)) { parser->current.end++; match(parser, '_'); }] *)
Fixpoint lex_digits (is_digit : Z -> bool) (src : list Z) (fuel : nat) (e : Z) : Z :=
  match fuel with
  | O => e
  | S k =>
      if is_digit (byte_at src e) then
        let e1 := e + 1 in
        let e2 := if byte_at src e1 =? ch "_" then e1 + 1 else e1 in
        lex_digits is_digit src k e2
      else e
  end.

Definition run_scan (f : Z -> bool) (p : yp_parser_t) : yp_parser_t :=
  set_end p (scan_while f (source p) (fuel_of (source p)) (cur p)).

Definition run_digits (is_digit : Z -> bool) (p : yp_parser_t) : yp_parser_t :=
  set_end p (lex_digits is_digit (source p) (fuel_of (source p)) (cur p)).

(** ** Specific token lexers *)

Definition lex_optional_float_suffix (p : yp_parser_t) : yp_token_type_t * yp_parser_t :=
  (* the optional decimal portion; [inr] is the early return *)
  let fraction : (yp_token_type_t * yp_parser_t) + (yp_token_type_t * yp_parser_t) :=
    if peek p 0 =? ch "." then
      if (cur p + 1 <? parser_end p) && is_decimal_number_char (peek p 1) then
        inl (YP_TOKEN_FLOAT, run_digits is_decimal_number_char (advance p 2))
      else inr (YP_TOKEN_INTEGER, p)
    else inl (YP_TOKEN_INTEGER, p) in
  match fraction with
  | inr r => r
  | inl (ty, p) =>
      (* the optional exponent portion *)
      let '(e, p) := match_either p (ch "e") (ch "E") in
      if e then
        let '(_, p) := match_either p (ch "+") (ch "-") in
        if is_decimal_number_char (peek p 0) then
          (YP_TOKEN_FLOAT, run_digits is_decimal_number_char (advance p 1))
        else (YP_TOKEN_INVALID, p)
      else (ty, p)
  end.

(** The last statement of [lex_numeric_prefix]: a number may not end in an
    underscore. *)
Definition reject_trailing_underscore (r : yp_token_type_t * yp_parser_t)
    : yp_token_type_t * yp_parser_t :=
  let '(ty, p) := r in
  if peek p (-1) =? ch "_" then (YP_TOKEN_INVALID, p) else (ty, p).

(** One base of [lex_numeric_prefix]: [if (!is_digit(++end)) return INVALID;]
    followed by the digit loop. *)
Definition lex_based_digits (is_digit : Z -> bool) (p : yp_parser_t)
    : yp_token_type_t * yp_parser_t :=
  let p := advance p 1 in
  if negb (is_digit (peek p 0)) then (YP_TOKEN_INVALID, p)
  else reject_trailing_underscore (YP_TOKEN_INTEGER, run_digits is_digit p).

Definition lex_numeric_prefix (p : yp_parser_t) : yp_token_type_t * yp_parser_t :=
  if peek p (-1) =? ch "0" then
    let c := peek p 0 in
    if (c =? ch "d") || (c =? ch "D") then
      lex_based_digits is_decimal_number_char p
    else if (c =? ch "b") || (c =? ch "B") then
      lex_based_digits is_binary_number_char p
    else if (c =? ch "o") || (c =? ch "O") then
      (* falls through to the octal loop *)
      lex_based_digits is_octal_number_char p
    else if is_octal_number_char c then
      reject_trailing_underscore (YP_TOKEN_INTEGER, run_digits is_octal_number_char p)
    else if (c =? ch "x") || (c =? ch "X") then
      lex_based_digits is_hexadecimal_number_char p
    else if (c =? ch ".") || (c =? ch "e") || (c =? ch "E") then
      reject_trailing_underscore (lex_optional_float_suffix p)
    else
      reject_trailing_underscore (YP_TOKEN_INTEGER, p)
  else
    reject_trailing_underscore
      (lex_optional_float_suffix (run_digits is_decimal_number_char p)).

Definition lex_numeric (p : yp_parser_t) : yp_token_type_t * yp_parser_t :=
  let '(ty, p) := lex_numeric_prefix p in
  match ty with
  | YP_TOKEN_INVALID => (ty, p)
  | _ =>
      let '(r, p) := match_ p (ch "r") in
      let ty := if r then YP_TOKEN_RATIONAL_NUMBER else ty in
      let '(i, p) := match_ p (ch "i") in
      let ty := if i then YP_TOKEN_IMAGINARY_NUMBER else ty in
      (ty, p)
  end.

Definition is_global_special (c : Z) : bool :=
  existsb (Z.eqb c)
    [ch "~"; ch "*"; ch "$"; ch "?"; ch "!"; ch "@"; ch "/"; ch "\"; ch ";"; ch ",";
     ch "."; ch "="; ch ":"; ch "<"; ch ">"; ch "034"].

Definition is_back_reference (c : Z) : bool :=
  existsb (Z.eqb c) [ch "&"; ch "`"; ch "'"; ch "+"].

Definition lex_global_variable (p : yp_parser_t) : yp_token_type_t * yp_parser_t :=
  let c := peek p 0 in
  if is_global_special c then (YP_TOKEN_GLOBAL_VARIABLE, advance p 1)
  else if is_back_reference c then (YP_TOKEN_BACK_REFERENCE, advance p 1)
  else if (ch "1" <=? c) && (c <=? ch "9") then
    (YP_TOKEN_NTH_REFERENCE, run_scan is_decimal_number_char (advance p 1))
  else if is_identifier_char c then
    (YP_TOKEN_GLOBAL_VARIABLE, run_scan is_identifier_char (advance p 1))
  else (YP_TOKEN_INVALID, p).

(** The [KEYWORD(value, size, token)] lines of [lex_identifier], in the
    order of the source. *)
Definition keywords : list (string * Z * yp_token_type_t) :=
  [ ("__ENCODING__"%string, 12, YP_TOKEN_KEYWORD___ENCODING__);
    ("__LINE__"%string, 8, YP_TOKEN_KEYWORD___LINE__);
    ("__FILE__"%string, 8, YP_TOKEN_KEYWORD___FILE__);
    ("alias"%string, 5, YP_TOKEN_KEYWORD_ALIAS);
    ("and"%string, 3, YP_TOKEN_KEYWORD_AND);
    ("begin"%string, 5, YP_TOKEN_KEYWORD_BEGIN);
    ("BEGIN"%string, 5, YP_TOKEN_KEYWORD_BEGIN_UPCASE);
    ("break"%string, 5, YP_TOKEN_KEYWORD_BREAK);
    ("case"%string, 4, YP_TOKEN_KEYWORD_CASE);
    ("class"%string, 5, YP_TOKEN_KEYWORD_CLASS);
    ("def"%string, 3, YP_TOKEN_KEYWORD_DEF);
    ("do"%string, 2, YP_TOKEN_KEYWORD_DO);
    ("else"%string, 4, YP_TOKEN_KEYWORD_ELSE);
    ("elsif"%string, 5, YP_TOKEN_KEYWORD_ELSIF);
    ("end"%string, 3, YP_TOKEN_KEYWORD_END);
    ("END"%string, 3, YP_TOKEN_KEYWORD_END_UPCASE);
    ("ensure"%string, 6, YP_TOKEN_KEYWORD_ENSURE);
    ("false"%string, 5, YP_TOKEN_KEYWORD_FALSE);
    ("for"%string, 3, YP_TOKEN_KEYWORD_FOR);
    ("if"%string, 2, YP_TOKEN_KEYWORD_IF);
    ("in"%string, 2, YP_TOKEN_KEYWORD_IN);
    ("module"%string, 6, YP_TOKEN_KEYWORD_MODULE);
    ("next"%string, 4, YP_TOKEN_KEYWORD_NEXT);
    ("nil"%string, 3, YP_TOKEN_KEYWORD_NIL);
    ("not"%string, 3, YP_TOKEN_KEYWORD_NOT);
    ("or"%string, 2, YP_TOKEN_KEYWORD_OR);
    ("redo"%string, 4, YP_TOKEN_KEYWORD_REDO);
    ("rescue"%string, 6, YP_TOKEN_KEYWORD_RESCUE);
    ("retry"%string, 5, YP_TOKEN_KEYWORD_RETRY);
    ("return"%string, 6, YP_TOKEN_KEYWORD_RETURN);
    ("self"%string, 4, YP_TOKEN_KEYWORD_SELF);
    ("super"%string, 5, YP_TOKEN_KEYWORD_SUPER);
    ("then"%string, 4, YP_TOKEN_KEYWORD_THEN);
    ("true"%string, 4, YP_TOKEN_KEYWORD_TRUE);
    ("undef"%string, 5, YP_TOKEN_KEYWORD_UNDEF);
    ("unless"%string, 6, YP_TOKEN_KEYWORD_UNLESS);
    ("until"%string, 5, YP_TOKEN_KEYWORD_UNTIL);
    ("when"%string, 4, YP_TOKEN_KEYWORD_WHEN);
    ("while"%string, 5, YP_TOKEN_KEYWORD_WHILE);
    ("yield"%string, 5, YP_TOKEN_KEYWORD_YIELD) ].

(** The test of the [KEYWORD] macro:
    [width == size && strncmp(parser->current.start, value, size) == 0]. *)
Definition KEYWORD (p : yp_parser_t) (width : Z) (value : string) (size : Z) : bool :=
  (width =? size)
  && strncmp_eq (source p) (start (current p)) (bytes_of_string value) (Z.to_nat size).

(** The chain of [KEYWORD] lines: the first one that matches returns. *)
Fixpoint first_keyword (p : yp_parser_t) (width : Z)
    (kws : list (string * Z * yp_token_type_t)) : option yp_token_type_t :=
  match kws with
  | [] => None
  | (value, size, token) :: rest =>
      if KEYWORD p width value size then Some token else first_keyword p width rest
  end.

Definition previous_is_dot (p : yp_parser_t) : bool :=
  match type (previous p) with YP_TOKEN_DOT => true | _ => false end.

Definition lex_identifier (p : yp_parser_t) : yp_token_type_t * yp_parser_t :=
  let p := run_scan is_identifier_char p in
  let width := cur p - start (current p) in
  let '(suffix, p) :=
    if (cur p + 1 <? parser_end p) && negb (peek p 1 =? ch "=") then
      match_either p (ch "!") (ch "?")
    else (false, p) in
  if suffix then
    let width := width + 1 in
    if negb (previous_is_dot p) && KEYWORD p width "defined?" 8 then
      (YP_TOKEN_KEYWORD_DEFINED, p)
    else (YP_TOKEN_IDENTIFIER, p)
  else
    match (if negb (previous_is_dot p) then first_keyword p width keywords else None) with
    | Some token => (token, p)
    | None =>
        let start := byte_at (source p) (start (current p)) in
        if (ch "A" <=? start) && (start <=? ch "Z") then (YP_TOKEN_CONSTANT, p)
        else (YP_TOKEN_IDENTIFIER, p)
    end.

(** ** The overall lexer function, [lex_token_type] *)

Definition lex_result : Type := option (yp_token_type_t * yp_parser_t).

Definition ret (ty : yp_token_type_t) (p : yp_parser_t) : lex_result := Some (ty, p).

(** [return match(parser, value) ? yes : no;] *)
Definition ret_match (p : yp_parser_t) (value : Z) (yes no : yp_token_type_t) : lex_result :=
  let '(r, p) := match_ p value in ret (if r then yes else no) p.

(** [(previous.type == KEYWORD_DEF || previous.type == DOT) && match(parser, '@')] *)
Definition match_at_after_def_or_dot (p : yp_parser_t) : bool * yp_parser_t :=
  match type (previous p) with
  | YP_TOKEN_KEYWORD_DEF | YP_TOKEN_DOT => match_ p (ch "@")
  | _ => (false, p)
  end.

(** A percent literal: consume the type letter, consume the delimiter,
    push the mode with the matching terminator. *)
Definition lex_percent (p : yp_parser_t) (m : yp_lex_mode_tag) (i : bool)
    (ty : yp_token_type_t) : lex_result :=
  let p := advance p 1 in
  let delimiter := peek p 0 in
  let p := advance p 1 in
  ret ty (push_lex_mode p (lex_mode_lit m (terminator delimiter) i)).

(** The [YP_LEX_DEFAULT] and [YP_LEX_EMBEXPR] case; [top] is the mode
    that [parser->lex_modes.current] points to. *)
Definition lex_default (top : yp_lex_mode_t) (p : yp_parser_t) : lex_result :=
  let p := run_scan is_non_newline_whitespace_char p in
  let p := set_start p (cur p) in
  let c := peek p 0 in
  let p := advance p 1 in
  if (c =? 0) || (c =? 4) || (c =? 26) then ret YP_TOKEN_EOF p
  else if c =? ch "#" then
    let p := run_scan (fun b => negb (b =? ch "010") && negb (b =? 0)) p in
    let '(_, p) := match_ p (ch "010") in
    ret YP_TOKEN_COMMENT p
  else if c =? ch "010" then
    ret YP_TOKEN_NEWLINE (set_lineno p (lineno p + 1))
  else if c =? ch "," then ret YP_TOKEN_COMMA p
  else if c =? ch "(" then ret YP_TOKEN_PARENTHESIS_LEFT p
  else if c =? ch ")" then ret YP_TOKEN_PARENTHESIS_RIGHT p
  else if c =? ch ";" then ret YP_TOKEN_SEMICOLON p
  else if c =? ch "[" then
    if previous_is_dot p then ret_match p (ch "]") YP_TOKEN_BRACKET_LEFT_RIGHT YP_TOKEN_BRACKET_LEFT
    else ret YP_TOKEN_BRACKET_LEFT p
  else if c =? ch "]" then ret YP_TOKEN_BRACKET_RIGHT p
  else if c =? ch "{" then
    match type (previous p) with
    | YP_TOKEN_MINUS_GREATER => ret YP_TOKEN_LAMBDA_BEGIN p
    | _ => ret YP_TOKEN_BRACE_LEFT p
    end
  else if c =? ch "}" then
    match mode top with
    | YP_LEX_EMBEXPR => p ← pop_lex_mode p; ret YP_TOKEN_EMBEXPR_END p
    | _ => ret YP_TOKEN_BRACE_RIGHT p
    end
  else if c =? ch "*" then
    let '(r, p) := match_ p (ch "*") in
    if r then ret_match p (ch "=") YP_TOKEN_STAR_STAR_EQUAL YP_TOKEN_STAR_STAR
    else ret_match p (ch "=") YP_TOKEN_STAR_EQUAL YP_TOKEN_STAR
  else if c =? ch "!" then
    let '(r, p) := match_ p (ch "=") in
    if r then ret YP_TOKEN_BANG_EQUAL p else
    let '(r, p) := match_ p (ch "~") in
    if r then ret YP_TOKEN_BANG_TILDE p else
    let '(r, p) := match_at_after_def_or_dot p in
    if r then ret YP_TOKEN_BANG_AT p else
    ret YP_TOKEN_BANG p
  else if c =? ch "=" then
    (* [parser->current.end[-2]] lies before the buffer when [=] is its first byte *)
    if cur p - 2 <? 0 then None else
    if (peek p (-2) =? ch "010")
       && strncmp_eq (source p) (cur p) (bytes_of_string "begin" ++ [ch "010"]) 6 then
      let p := advance p 6 in
      ret YP_TOKEN_EMBDOC_BEGIN (push_lex_mode p (lex_mode_lit YP_LEX_EMBDOC 0 false))
    else
    let '(r, p) := match_ p (ch ">") in
    if r then ret YP_TOKEN_EQUAL_GREATER p else
    let '(r, p) := match_ p (ch "~") in
    if r then ret YP_TOKEN_EQUAL_TILDE p else
    let '(r, p) := match_ p (ch "=") in
    if r then ret_match p (ch "=") YP_TOKEN_EQUAL_EQUAL_EQUAL YP_TOKEN_EQUAL_EQUAL else
    ret YP_TOKEN_EQUAL p
  else if c =? ch "<" then
    let '(r, p) := match_ p (ch "<") in
    if r then
      let '(r, p) := match_ p (ch "=") in
      if r then ret YP_TOKEN_LESS_LESS_EQUAL p else
      (* heredocs are not handled *)
      let '(r, p) := match_either p (ch "-") (ch "~") in
      if r then ret YP_TOKEN_EOF p else
      ret YP_TOKEN_LESS_LESS p
    else
    let '(r, p) := match_ p (ch "=") in
    if r then ret_match p (ch ">") YP_TOKEN_LESS_EQUAL_GREATER YP_TOKEN_LESS_EQUAL else
    ret YP_TOKEN_LESS p
  else if c =? ch ">" then
    let '(r, p) := match_ p (ch ">") in
    if r then ret_match p (ch "=") YP_TOKEN_GREATER_GREATER_EQUAL YP_TOKEN_GREATER_GREATER
    else ret_match p (ch "=") YP_TOKEN_GREATER_EQUAL YP_TOKEN_GREATER
  else if c =? ch "034" then
    ret YP_TOKEN_STRING_BEGIN (push_lex_mode p (lex_mode_lit YP_LEX_STRING (ch "034") true))
  else if c =? ch "`" then
    ret YP_TOKEN_BACKTICK (push_lex_mode p (lex_mode_lit YP_LEX_STRING (ch "`") true))
  else if c =? ch "'" then
    ret YP_TOKEN_STRING_BEGIN (push_lex_mode p (lex_mode_lit YP_LEX_STRING (ch "'") false))
  else if c =? ch "?" then
    if is_identifier_char (peek p 0) then ret YP_TOKEN_CHARACTER_LITERAL (advance p 1)
    else ret YP_TOKEN_QUESTION_MARK p
  else if c =? ch "&" then
    let '(r, p) := match_ p (ch "&") in
    if r then ret_match p (ch "=") YP_TOKEN_AMPERSAND_AMPERSAND_EQUAL YP_TOKEN_AMPERSAND_AMPERSAND
    else ret_match p (ch "=") YP_TOKEN_AMPERSAND_EQUAL YP_TOKEN_AMPERSAND
  else if c =? ch "|" then
    let '(r, p) := match_ p (ch "|") in
    if r then ret_match p (ch "=") YP_TOKEN_PIPE_PIPE_EQUAL YP_TOKEN_PIPE_PIPE
    else ret_match p (ch "=") YP_TOKEN_PIPE_EQUAL YP_TOKEN_PIPE
  else if c =? ch "+" then
    let '(r, p) := match_ p (ch "=") in
    if r then ret YP_TOKEN_PLUS_EQUAL p else
    let '(r, p) := match_at_after_def_or_dot p in
    if r then ret YP_TOKEN_PLUS_AT p else
    ret YP_TOKEN_PLUS p
  else if c =? ch "-" then
    let '(r, p) := match_ p (ch ">") in
    if r then ret YP_TOKEN_MINUS_GREATER p else
    let '(r, p) := match_ p (ch "=") in
    if r then ret YP_TOKEN_MINUS_EQUAL p else
    let '(r, p) := match_at_after_def_or_dot p in
    if r then ret YP_TOKEN_MINUS_AT p else
    ret YP_TOKEN_MINUS p
  else if c =? ch "." then
    let '(r, p) := match_ p (ch ".") in
    if negb r then ret YP_TOKEN_DOT p
    else ret_match p (ch ".") YP_TOKEN_DOT_DOT_DOT YP_TOKEN_DOT_DOT
  else if is_decimal_number_char c then Some (lex_numeric p)
  else if c =? ch ":" then
    let '(r, p) := match_ p (ch ":") in
    if r then ret YP_TOKEN_COLON_COLON p else
    if is_identifier_char (peek p 0) then
      ret YP_TOKEN_SYMBOL_BEGIN (push_lex_mode p (lex_mode_lit YP_LEX_SYMBOL 0 false))
    else ret YP_TOKEN_COLON p
  else if c =? ch "/" then
    let '(r, p) := match_ p (ch "=") in
    if r then ret YP_TOKEN_SLASH_EQUAL p else
    if peek p 0 =? ch " " then ret YP_TOKEN_SLASH p else
    ret YP_TOKEN_REGEXP_BEGIN (push_lex_mode p (lex_mode_lit YP_LEX_REGEXP (ch "/") false))
  else if c =? ch "^" then ret_match p (ch "=") YP_TOKEN_CARET_EQUAL YP_TOKEN_CARET
  else if c =? ch "~" then
    let '(r, p) := match_at_after_def_or_dot p in
    if r then ret YP_TOKEN_TILDE_AT p else
    ret YP_TOKEN_TILDE p
  else if c =? ch "\" then ret YP_TOKEN_INVALID p
  else if c =? ch "%" then
    let k := peek p 0 in
    if k =? ch "=" then ret YP_TOKEN_PERCENT_EQUAL (advance p 1)
    else if k =? ch "i" then lex_percent p YP_LEX_LIST false YP_TOKEN_PERCENT_LOWER_I
    else if k =? ch "I" then lex_percent p YP_LEX_LIST true YP_TOKEN_PERCENT_UPPER_I
    else if k =? ch "r" then lex_percent p YP_LEX_REGEXP true YP_TOKEN_REGEXP_BEGIN
    else if k =? ch "q" then lex_percent p YP_LEX_STRING false YP_TOKEN_STRING_BEGIN
    else if k =? ch "Q" then lex_percent p YP_LEX_STRING true YP_TOKEN_STRING_BEGIN
    else if k =? ch "w" then lex_percent p YP_LEX_LIST false YP_TOKEN_PERCENT_LOWER_W
    else if k =? ch "W" then lex_percent p YP_LEX_LIST true YP_TOKEN_PERCENT_UPPER_W
    else if k =? ch "x" then lex_percent p YP_LEX_STRING true YP_TOKEN_PERCENT_LOWER_X
    else ret YP_TOKEN_PERCENT p
  else if c =? ch "$" then Some (lex_global_variable p)
  else if c =? ch "@" then
    let '(r, p) := match_ p (ch "@") in
    let ty := if r then YP_TOKEN_CLASS_VARIABLE else YP_TOKEN_INSTANCE_VARIABLE in
    if is_identifier_start_char (peek p 0) then
      ret ty (run_scan is_identifier_char (advance p 1))
    else ret YP_TOKEN_INVALID p
  else
    if negb (is_identifier_start_char c) then ret YP_TOKEN_INVALID p else
    let '(ty, p) := lex_identifier p in
    if (peek p 0 =? ch ":") && negb (peek p 1 =? ch ":") then ret YP_TOKEN_LABEL (advance p 1)
    else ret ty p.

(** The line loop of the embdoc case: while [end < parser->end], read the
    byte under the cursor, step over it, and stop once it was a newline. *)
Fixpoint embdoc_line (src : list Z) (pend : Z) (fuel : nat) (e : Z) : Z :=
  match fuel with
  | O => e
  | S k =>
      if e <? pend then
        if negb (byte_at src e =? ch "010") then embdoc_line src pend k (e + 1) else e + 1
      else e
  end.

(** The [YP_LEX_EMBDOC] case. *)
Definition lex_embdoc (h : yp_error_handler_t) (p : yp_parser_t) : lex_result :=
  let p := set_start p (cur p) in
  if strncmp_eq (source p) (cur p) (bytes_of_string "=end" ++ [ch "010"]) 5 then
    let p := advance p 5 in
    p ← pop_lex_mode p;
    ret YP_TOKEN_EMBDOC_END p
  else
    let p := set_end p (embdoc_line (source p) (parser_end p) (fuel_of (source p)) (cur p)) in
    if cur p <? parser_end p then
      ret YP_TOKEN_EMBDOC_LINE (set_lineno p (lineno p + 1))
    else Some (unterminated_embdoc h p).

(** The separator loop of the list case, on the cursor and the line
    number: do (count a newline under the cursor, step over the byte) while
    [is_whitespace_char(end)]. *)
Fixpoint list_separator (src : list Z) (fuel : nat) (e : Z) (line : Z) : Z * Z :=
  match fuel with
  | O => (e, line)
  | S k =>
      let line := if byte_at src e =? ch "010" then line + 1 else line in
      let e := e + 1 in
      if is_whitespace_char (byte_at src e) then list_separator src k e line
      else (e, line)
  end.

(** How a content loop of a literal mode is left. *)
Inductive loop_exit : Set :=
| ExitContent        (* [return YP_TOKEN_STRING_CONTENT] *)
| ExitTerminator     (* the terminator, with no content before it *)
| ExitEmbexpr        (* [#{], with no content before it *)
| ExitEnd.           (* the loop condition [end < parser->end] failed *)

(** The word loop of the list case. *)
Fixpoint list_word (src : list Z) (pend term_ tstart : Z) (fuel : nat) (e : Z)
    : loop_exit * Z :=
  match fuel with
  | O => (ExitEnd, e)
  | S k =>
      if e <? pend then
        if is_whitespace_char (byte_at src e) then (ExitContent, e)
        else if byte_at src e =? term_ then
          if tstart <? e then (ExitContent, e) else (ExitTerminator, e)
        else list_word src pend term_ tstart k (e + 1)
      else (ExitEnd, e)
  end.

(** The [YP_LEX_LIST] case. *)
Definition lex_list (h : yp_error_handler_t) (top : yp_lex_mode_t) (p : yp_parser_t)
    : lex_result :=
  if is_whitespace_char (peek p 0) then
    let p := set_start p (cur p) in
    let '(e, line) := list_separator (source p) (fuel_of (source p)) (cur p) (lineno p) in
    ret YP_TOKEN_WORDS_SEP (set_lineno (set_end p e) line)
  else
    let p := set_start p (cur p) in
    let '(x, e) := list_word (source p) (parser_end p) (term top) (start (current p))
                     (fuel_of (source p)) (cur p) in
    let p := set_end p e in
    match x with
    | ExitContent => ret YP_TOKEN_STRING_CONTENT p
    | ExitTerminator =>
        let p := advance p 1 in
        p ← pop_lex_mode p;
        ret YP_TOKEN_STRING_END p
    | _ => Some (unterminated_list h p)
    end.

Definition is_regexp_option (c : Z) : bool :=
  existsb (Z.eqb c) [ch "e"; ch "i"; ch "m"; ch "n"; ch "s"; ch "u"; ch "x"].

(** The content loop of the regexp case, on the cursor and the line
    number. *)
Fixpoint regexp_content (src : list Z) (pend term_ tstart : Z) (fuel : nat) (e : Z)
    (line : Z) : loop_exit * Z * Z :=
  match fuel with
  | O => (ExitEnd, e, line)
  | S k =>
      if e <? pend then
        if byte_at src e =? term_ then (ExitContent, e, line) else
        let line := if byte_at src e =? ch "010" then line + 1 else line in
        if (byte_at src e =? ch "#") && (byte_at src (e + 1) =? ch "{") then
          if tstart <? e then (ExitContent, e, line) else (ExitEmbexpr, e, line)
        else regexp_content src pend term_ tstart k (e + 1) line
      else (ExitEnd, e, line)
  end.

(** The [YP_LEX_REGEXP] case. *)
Definition lex_regexp (h : yp_error_handler_t) (top : yp_lex_mode_t) (p : yp_parser_t)
    : lex_result :=
  let p := set_start p (cur p) in
  let '(r, p) := match_ p (term top) in
  if r then
    let p := run_scan is_regexp_option p in
    p ← pop_lex_mode p;
    ret YP_TOKEN_REGEXP_END p
  else
    let '(x, e, line) := regexp_content (source p) (parser_end p) (term top)
                           (start (current p)) (fuel_of (source p)) (cur p) (lineno p) in
    let p := set_lineno (set_end p e) line in
    match x with
    | ExitContent => ret YP_TOKEN_STRING_CONTENT p
    | ExitEmbexpr =>
        let p := advance p 2 in
        ret YP_TOKEN_EMBEXPR_BEGIN (push_lex_mode p (lex_mode_lit YP_LEX_EMBEXPR 0 false))
    | _ => Some (unterminated_regexp h p)
    end.

(** The content loop of the string case.  With [#@] and [#$] the inner
    switch is left by [break] and the [#] is consumed as content. *)
Fixpoint string_content (src : list Z) (pend term_ : Z) (interp_ : bool) (tstart : Z)
    (fuel : nat) (e : Z) (line : Z) : loop_exit * Z * Z :=
  match fuel with
  | O => (ExitEnd, e, line)
  | S k =>
      if e <? pend then
        if byte_at src e =? term_ then (ExitContent, e, line) else
        let line := if byte_at src e =? ch "010" then line + 1 else line in
        if interp_ && (byte_at src e =? ch "#") then
          let next := byte_at src (e + 1) in
          if next =? ch "@" then string_content src pend term_ interp_ tstart k (e + 1) line
          else if next =? ch "$" then string_content src pend term_ interp_ tstart k (e + 1) line
          else if next =? ch "{" then
            if tstart <? e then (ExitContent, e, line) else (ExitEmbexpr, e, line)
          else string_content src pend term_ interp_ tstart k (e + 1) line
        else string_content src pend term_ interp_ tstart k (e + 1) line
      else (ExitEnd, e, line)
  end.

(** The [YP_LEX_STRING] case. *)
Definition lex_string (h : yp_error_handler_t) (top : yp_lex_mode_t) (p : yp_parser_t)
    : lex_result :=
  let p := set_start p (cur p) in
  let '(r, p) := match_ p (term top) in
  if r then
    p ← pop_lex_mode p;
    ret YP_TOKEN_STRING_END p
  else
    let '(x, e, line) := string_content (source p) (parser_end p) (term top) (interp top)
                           (start (current p)) (fuel_of (source p)) (cur p) (lineno p) in
    let p := set_lineno (set_end p e) line in
    match x with
    | ExitContent => ret YP_TOKEN_STRING_CONTENT p
    | ExitEmbexpr =>
        let p := advance p 2 in
        ret YP_TOKEN_EMBEXPR_BEGIN (push_lex_mode p (lex_mode_lit YP_LEX_EMBEXPR 0 false))
    | _ => Some (unterminated_string h p)
    end.

(** The [YP_LEX_SYMBOL] case. *)
Definition lex_symbol (p : yp_parser_t) : lex_result :=
  let p := set_start p (cur p) in
  if cur p <? parser_end p then
    let c := peek p 0 in
    let p := advance p 1 in
    if is_identifier_start_char c then
      p ← pop_lex_mode p;
      let '(ty, p) := lex_identifier p in
      let '(r, p) := match_ p (ch "=") in
      ret (if r then YP_TOKEN_IDENTIFIER else ty) p
    else ret YP_TOKEN_INVALID p
  else ret YP_TOKEN_INVALID p.

(** [lex_token_type]: the switch on [parser->lex_modes.current->mode]. *)
Definition lex_token_type (h : yp_error_handler_t) (p : yp_parser_t) : lex_result :=
  top ← load p (lex_modes_current p);
  match mode top with
  | YP_LEX_DEFAULT | YP_LEX_EMBEXPR => lex_default top p
  | YP_LEX_EMBDOC => lex_embdoc h p
  | YP_LEX_LIST => lex_list h top p
  | YP_LEX_REGEXP => lex_regexp h top p
  | YP_LEX_STRING => lex_string h top p
  | YP_LEX_SYMBOL => lex_symbol p
  end.

(** ** External functions *)

(** [yp_parser_init]: the compound literal zeroes what it does not name,
    so the four inline slots are [YP_LEX_DEFAULT] modes and both tokens
    have type [YP_TOKEN_EOF] (the enumeration's zero).  The pointers of
    [previous] are NULL; nothing reads them before the first call
    overwrites them, and they are given the offset [0].  The handler table
    is not stored in the parser: it is an argument of the lexer. *)
Definition yp_parser_init (source : list Z) : yp_parser_t :=
  {| lex_modes_current := StackSlot 0;
     lex_modes_stack := replicate YP_LEX_STACK_SIZE (lex_mode_lit YP_LEX_DEFAULT 0 false);
     lex_modes_index := 0;
     heap := [];
     source := source;
     previous := {| type := YP_TOKEN_EOF; start := 0; end_ := 0 |};
     current := {| type := YP_TOKEN_EOF; start := 0; end_ := 0 |};
     lineno := 1 |}.

(** [yp_lex_token] *)
Definition yp_lex_token (h : yp_error_handler_t) (p : yp_parser_t) : option yp_parser_t :=
  let p := set_previous p (current p) in
  '(ty, p) ← lex_token_type h p;
  Some (set_type p ty).

(** ** The default error handler of the extension *)

Definition unrecoverable (p : yp_parser_t) : yp_token_type_t * yp_parser_t :=
  (YP_TOKEN_EOF, p).

Definition default_error_handler : yp_error_handler_t :=
  {| unterminated_embdoc := unrecoverable;
     unterminated_list := unrecoverable;
     unterminated_regexp := unrecoverable;
     unterminated_string := unrecoverable |}.

(** ** Draining tokens *)

(** [lex_n h n p]: the parser after [n] calls of [yp_lex_token]. *)
Fixpoint lex_n (h : yp_error_handler_t) (n : nat) (p : yp_parser_t) : option yp_parser_t :=
  match n with
  | O => Some p
  | S k => p ← lex_n h k p; yp_lex_token h p
  end.

(** The tokens of the first [n] calls, as (type, start, end); [None] once a
    call is undefined. *)
Fixpoint tokens (h : yp_error_handler_t) (n : nat) (p : yp_parser_t)
    : list (option (yp_token_type_t * Z * Z)) :=
  match n with
  | O => []
  | S k =>
      match yp_lex_token h p with
      | Some p' => Some (type (current p'), start (current p'), end_ (current p')) :: tokens h k p'
      | None => [None]
      end
  end.

(** What the host sees from the first [n] calls on the buffer [s], with
    the default handlers. *)
Definition lex_tokens (n : nat) (s : list Z) : list (option (yp_token_type_t * Z * Z)) :=
  tokens default_error_handler n (yp_parser_init s).

(** The parser after [n] calls on the buffer [s]. *)
Definition run (n : nat) (s : list Z) : option yp_parser_t :=
  lex_n default_error_handler n (yp_parser_init s).

(** The parser after [n] calls on [s], when they are all defined. *)
Definition state_after (n : nat) (s : list Z) : yp_parser_t :=
  default (yp_parser_init s) (run n s).

(** The mode on top of the stack, [*parser->lex_modes.current]. *)
Definition top_mode (p : yp_parser_t) : option yp_lex_mode_t := load p (lex_modes_current p).

Definition top_tag (p : yp_parser_t) : option yp_lex_mode_tag := mode <$> top_mode p.

(** A double quote and a newline, for writing buffers. *)
Definition DQ : list Z := [ch "034"].
Definition NL : list Z := [ch "010"].

(** The deeply nested interpolation of the specification,
    ["a#{"b#{"c#{"d"}"}"}"] with its quotes. *)
Definition deep_interpolation : list Z :=
  DQ ++ bytes_of_string "a#{" ++ DQ ++ bytes_of_string "b#{" ++ DQ ++ bytes_of_string "c#{"
  ++ DQ ++ bytes_of_string "d" ++ DQ ++ bytes_of_string "}" ++ DQ ++ bytes_of_string "}"
  ++ DQ ++ bytes_of_string "}" ++ DQ.

(** Whether a keyword begins with an ASCII uppercase letter. *)
Definition starts_upcase (s : string) : bool :=
  match s with
  | String a _ => (ch "A" <=? ch a) && (ch a <=? ch "Z")
  | EmptyString => false
  end.

(** ** Predicates for the properties of a call *)

(** [q] is [p] but for the token offsets and the line number. *)
Definition same_frame (p q : yp_parser_t) : Prop :=
  lex_modes_current q = lex_modes_current p /\ lex_modes_stack q = lex_modes_stack p
  /\ lex_modes_index q = lex_modes_index p /\ heap q = heap p
  /\ source q = source p /\ previous q = previous p.

(** [q] is [p] with the cursor moved forward over bytes of the buffer. *)
Definition fwd (p q : yp_parser_t) : Prop :=
  exists e, q = set_end p e /\ cur p <= e /\ (cur p < e -> e <= parser_end p).

(** The one call that makes no progress: the symbol case returning
    INVALID. *)
Definition stuck_symbol (top : yp_lex_mode_t) (ty : yp_token_type_t) : Prop :=
  mode top = YP_LEX_SYMBOL /\ ty = YP_TOKEN_INVALID.

(** What a call does to the mode stack, [q] being the parser just before
    the push or pop. *)
Inductive stack_effect (top : yp_lex_mode_t) (ty : yp_token_type_t)
    (p q p' : yp_parser_t) : Prop :=
| effect_keep :
    p' = q ->
    ty = YP_TOKEN_EOF \/ stuck_symbol top ty \/ (cur p < cur q /\ cur p < parser_end p) ->
    stack_effect top ty p q p'
| effect_push (m : yp_lex_mode_t) :
    p' = push_lex_mode q m -> cur p < cur q -> cur p < parser_end p ->
    stack_effect top ty p q p'
| effect_pop :
    pop_lex_mode q = Some p' -> cur p < cur q ->
    cur p < parser_end p \/ mode top = YP_LEX_REGEXP \/ mode top = YP_LEX_STRING ->
    stack_effect top ty p q p'.

(** The postcondition of a defined call of [lex_token_type]. *)
Definition step_post (top : yp_lex_mode_t) (p : yp_parser_t) (ty : yp_token_type_t)
    (p' : yp_parser_t) : Prop :=
  exists q, same_frame p q
    /\ cur p <= start (current q) /\ start (current q) <= cur q
    /\ cur q <= Z.max (cur p) (parser_end p) + 1
    /\ stack_effect top ty p q p'.

(** The shape of the mode stack that [yp_parser_init] sets up and every
    defined call keeps: the inline array has its [YP_LEX_STACK_SIZE]
    slots, the base slot is a default mode, and [current] is the slot at
    [index] while the index is inside the inline array; past it, [current]
    cannot be read. *)
Definition stack_inv (p : yp_parser_t) : Prop :=
  length (lex_modes_stack p) = YP_LEX_STACK_SIZE
  /\ mode <$> lex_modes_stack p !! 0%nat = Some YP_LEX_DEFAULT
  /\ (if (lex_modes_index p <? YP_LEX_STACK_SIZE)%nat
      then lex_modes_current p = StackSlot (lex_modes_index p)
      else top_mode p = None).

(** The measure that decreases with every call that is neither an EOF nor
    stuck in the symbol case. *)
Definition measure (p : yp_parser_t) : nat :=
  (2 * Z.to_nat (parser_end p - cur p) + lex_modes_index p)%nat.

(** The parser after the default case has consumed a first byte that is
    not NUL. *)
Definition entered (p p0 : yp_parser_t) : Prop :=
  same_frame p p0 /\ cur p <= start (current p0)
  /\ cur p0 = start (current p0) + 1 /\ cur p0 <= parser_end p.



(** The two modes that run the default case. *)
Definition code_mode (top : yp_lex_mode_t) : Prop :=
  mode top = YP_LEX_DEFAULT \/ mode top = YP_LEX_EMBEXPR.


(** ** Notions for the further properties *)

(** The number of newline bytes of the source in the [n] offsets from [a]. *)
Fixpoint count_newlines_from (src : list Z) (n : nat) (a : Z) : Z :=
  match n with
  | O => 0
  | S k => (if byte_at src a =? ch "010" then 1 else 0) + count_newlines_from src k (a + 1)
  end.

(** The number of newline bytes of the source at the offsets [a <= i < b]. *)
Definition count_newlines (src : list Z) (a b : Z) : Z :=
  count_newlines_from src (Z.to_nat (b - a)) a.

(** The bytes of the source at the [n] offsets from [a]: the lexeme of a
    token that starts at [a] and is [n] bytes long. *)
Fixpoint lexeme_from (src : list Z) (n : nat) (a : Z) : list Z :=
  match n with
  | O => []
  | S k => byte_at src a :: lexeme_from src k (a + 1)
  end.

(** The lexeme of the current token. *)
Definition lexeme (p : yp_parser_t) : list Z :=
  lexeme_from (source p) (Z.to_nat (cur p - start (current p))) (start (current p)).

(** What the heap holds along a run: nothing while the mode stack is
    inside the inline array, and the one unwritten node of the push past
    it afterwards. *)
Definition heap_inv (p : yp_parser_t) : Prop :=
  ((lex_modes_index p < YP_LEX_STACK_SIZE)%nat /\ heap p = [])
  \/ (lex_modes_index p = YP_LEX_STACK_SIZE /\ heap p = [None]
      /\ lex_modes_current p = HeapNode 0).

(** Every [KEYWORD] line of [lex_identifier]: the one for [defined?],
    which is tried only after a [!] or [?] suffix, and the table tried
    without one. *)
Definition all_keywords : list (string * Z * yp_token_type_t) :=
  ("defined?"%string, 8, YP_TOKEN_KEYWORD_DEFINED) :: keywords.

(** [p'] has the token start and the line number of [p0], and its cursor
    is not before the one of [p0]. *)
Definition token_kept (p0 p' : yp_parser_t) : Prop :=
  start (current p') = start (current p0) /\ cur p0 <= cur p'
  /\ lineno p' = lineno p0 /\ source p' = source p0.

(** What the default case returns, [c] being the byte it dispatched on
    and [p0] the parser just after that byte: the token starts where [p0]
    has it, and the line number moves only for a newline, by one. *)
Definition default_shape (c : Z) (p0 : yp_parser_t) (ty : yp_token_type_t)
    (p' : yp_parser_t) : Prop :=
  start (current p') = start (current p0) /\ cur p0 <= cur p'
  /\ source p' = source p0
  /\ (c = ch "010" ->
      ty = YP_TOKEN_NEWLINE /\ cur p' = cur p0 /\ lineno p' = lineno p0 + 1)
  /\ (c <> ch "010" -> lineno p' = lineno p0).

(** What a call does to the line number: it never decreases, and it
    grows by at most the number of newlines among the bytes the cursor
    moved over. *)
Definition lines_post (p p' : yp_parser_t) : Prop :=
  source p' = source p /\ cur p <= cur p'
  /\ lineno p <= lineno p'
  /\ lineno p' <= lineno p + count_newlines (source p) (cur p) (cur p').

(** The token types that come with a push of a lex mode. *)
Definition opens_mode (ty : yp_token_type_t) : bool :=
  match ty with
  | YP_TOKEN_EMBDOC_BEGIN | YP_TOKEN_STRING_BEGIN | YP_TOKEN_BACKTICK
  | YP_TOKEN_SYMBOL_BEGIN | YP_TOKEN_REGEXP_BEGIN | YP_TOKEN_EMBEXPR_BEGIN
  | YP_TOKEN_PERCENT_LOWER_I | YP_TOKEN_PERCENT_UPPER_I | YP_TOKEN_PERCENT_LOWER_W
  | YP_TOKEN_PERCENT_UPPER_W | YP_TOKEN_PERCENT_LOWER_X => true
  | _ => false
  end.

(** The token types that end a literal or an embedded expression. *)
Definition is_closer (ty : yp_token_type_t) : bool :=
  match ty with
  | YP_TOKEN_EMBDOC_END | YP_TOKEN_STRING_END | YP_TOKEN_REGEXP_END
  | YP_TOKEN_EMBEXPR_END => true
  | _ => false
  end.

(** The token types that come with a pop of the lex mode [m]: the closers,
    and in the symbol mode every token but INVALID. *)
Definition closes_mode (m : yp_lex_mode_tag) (ty : yp_token_type_t) : bool :=
  match m with
  | YP_LEX_SYMBOL => match ty with YP_TOKEN_INVALID => false | _ => true end
  | _ => is_closer ty
  end.

(** ** The C extension: [token_inspect] and [each_token] *)

(** The symbol that [token_inspect] pushes for a token type: the switch
    names INVALID by hand and every [CASE(type)] line by the name of its
    constant; a type without a case reaches [default], where [rb_bug]
    aborts the process ([None]). *)
Definition token_name (ty : yp_token_type_t) : option string :=
  match ty with
  | YP_TOKEN_INVALID => Some "INVALID"%string
  | YP_TOKEN_AMPERSAND => Some "AMPERSAND"%string
  | YP_TOKEN_AMPERSAND_AMPERSAND => Some "AMPERSAND_AMPERSAND"%string
  | YP_TOKEN_AMPERSAND_AMPERSAND_EQUAL => Some "AMPERSAND_AMPERSAND_EQUAL"%string
  | YP_TOKEN_AMPERSAND_EQUAL => Some "AMPERSAND_EQUAL"%string
  | YP_TOKEN_BACK_REFERENCE => Some "BACK_REFERENCE"%string
  | YP_TOKEN_BACKTICK => Some "BACKTICK"%string
  | YP_TOKEN_BANG => Some "BANG"%string
  | YP_TOKEN_BANG_AT => Some "BANG_AT"%string
  | YP_TOKEN_BANG_EQUAL => Some "BANG_EQUAL"%string
  | YP_TOKEN_BANG_TILDE => Some "BANG_TILDE"%string
  | YP_TOKEN_BRACE_LEFT => Some "BRACE_LEFT"%string
  | YP_TOKEN_BRACE_RIGHT => Some "BRACE_RIGHT"%string
  | YP_TOKEN_BRACKET_LEFT => Some "BRACKET_LEFT"%string
  | YP_TOKEN_BRACKET_LEFT_RIGHT => Some "BRACKET_LEFT_RIGHT"%string
  | YP_TOKEN_BRACKET_RIGHT => Some "BRACKET_RIGHT"%string
  | YP_TOKEN_CARET => Some "CARET"%string
  | YP_TOKEN_CARET_EQUAL => Some "CARET_EQUAL"%string
  | YP_TOKEN_CHARACTER_LITERAL => Some "CHARACTER_LITERAL"%string
  | YP_TOKEN_CLASS_VARIABLE => Some "CLASS_VARIABLE"%string
  | YP_TOKEN_COLON => Some "COLON"%string
  | YP_TOKEN_COLON_COLON => Some "COLON_COLON"%string
  | YP_TOKEN_COMMA => Some "COMMA"%string
  | YP_TOKEN_COMMENT => Some "COMMENT"%string
  | YP_TOKEN_CONSTANT => Some "CONSTANT"%string
  | YP_TOKEN_DOT => Some "DOT"%string
  | YP_TOKEN_DOT_DOT => Some "DOT_DOT"%string
  | YP_TOKEN_DOT_DOT_DOT => Some "DOT_DOT_DOT"%string
  | YP_TOKEN_EMBDOC_BEGIN => Some "EMBDOC_BEGIN"%string
  | YP_TOKEN_EMBDOC_END => Some "EMBDOC_END"%string
  | YP_TOKEN_EMBDOC_LINE => Some "EMBDOC_LINE"%string
  | YP_TOKEN_EMBEXPR_BEGIN => Some "EMBEXPR_BEGIN"%string
  | YP_TOKEN_EMBEXPR_END => Some "EMBEXPR_END"%string
  | YP_TOKEN_EQUAL => Some "EQUAL"%string
  | YP_TOKEN_EQUAL_EQUAL => Some "EQUAL_EQUAL"%string
  | YP_TOKEN_EQUAL_EQUAL_EQUAL => Some "EQUAL_EQUAL_EQUAL"%string
  | YP_TOKEN_EQUAL_GREATER => Some "EQUAL_GREATER"%string
  | YP_TOKEN_EQUAL_TILDE => Some "EQUAL_TILDE"%string
  | YP_TOKEN_FLOAT => Some "FLOAT"%string
  | YP_TOKEN_GREATER => Some "GREATER"%string
  | YP_TOKEN_GREATER_EQUAL => Some "GREATER_EQUAL"%string
  | YP_TOKEN_GREATER_GREATER => Some "GREATER_GREATER"%string
  | YP_TOKEN_GREATER_GREATER_EQUAL => Some "GREATER_GREATER_EQUAL"%string
  | YP_TOKEN_GLOBAL_VARIABLE => Some "GLOBAL_VARIABLE"%string
  | YP_TOKEN_IDENTIFIER => Some "IDENTIFIER"%string
  | YP_TOKEN_IMAGINARY_NUMBER => Some "IMAGINARY_NUMBER"%string
  | YP_TOKEN_INTEGER => Some "INTEGER"%string
  | YP_TOKEN_INSTANCE_VARIABLE => Some "INSTANCE_VARIABLE"%string
  | YP_TOKEN_KEYWORD___ENCODING__ => Some "KEYWORD___ENCODING__"%string
  | YP_TOKEN_KEYWORD___LINE__ => Some "KEYWORD___LINE__"%string
  | YP_TOKEN_KEYWORD___FILE__ => Some "KEYWORD___FILE__"%string
  | YP_TOKEN_KEYWORD_ALIAS => Some "KEYWORD_ALIAS"%string
  | YP_TOKEN_KEYWORD_AND => Some "KEYWORD_AND"%string
  | YP_TOKEN_KEYWORD_BEGIN => Some "KEYWORD_BEGIN"%string
  | YP_TOKEN_KEYWORD_BEGIN_UPCASE => Some "KEYWORD_BEGIN_UPCASE"%string
  | YP_TOKEN_KEYWORD_BREAK => Some "KEYWORD_BREAK"%string
  | YP_TOKEN_KEYWORD_CASE => Some "KEYWORD_CASE"%string
  | YP_TOKEN_KEYWORD_CLASS => Some "KEYWORD_CLASS"%string
  | YP_TOKEN_KEYWORD_DEF => Some "KEYWORD_DEF"%string
  | YP_TOKEN_KEYWORD_DEFINED => Some "KEYWORD_DEFINED"%string
  | YP_TOKEN_KEYWORD_DO => Some "KEYWORD_DO"%string
  | YP_TOKEN_KEYWORD_ELSE => Some "KEYWORD_ELSE"%string
  | YP_TOKEN_KEYWORD_ELSIF => Some "KEYWORD_ELSIF"%string
  | YP_TOKEN_KEYWORD_END => Some "KEYWORD_END"%string
  | YP_TOKEN_KEYWORD_END_UPCASE => Some "KEYWORD_END_UPCASE"%string
  | YP_TOKEN_KEYWORD_ENSURE => Some "KEYWORD_ENSURE"%string
  | YP_TOKEN_KEYWORD_FALSE => Some "KEYWORD_FALSE"%string
  | YP_TOKEN_KEYWORD_FOR => Some "KEYWORD_FOR"%string
  | YP_TOKEN_KEYWORD_IF => Some "KEYWORD_IF"%string
  | YP_TOKEN_KEYWORD_IN => Some "KEYWORD_IN"%string
  | YP_TOKEN_KEYWORD_MODULE => Some "KEYWORD_MODULE"%string
  | YP_TOKEN_KEYWORD_NEXT => Some "KEYWORD_NEXT"%string
  | YP_TOKEN_KEYWORD_NIL => Some "KEYWORD_NIL"%string
  | YP_TOKEN_KEYWORD_NOT => Some "KEYWORD_NOT"%string
  | YP_TOKEN_KEYWORD_OR => Some "KEYWORD_OR"%string
  | YP_TOKEN_KEYWORD_REDO => Some "KEYWORD_REDO"%string
  | YP_TOKEN_KEYWORD_RESCUE => Some "KEYWORD_RESCUE"%string
  | YP_TOKEN_KEYWORD_RETRY => Some "KEYWORD_RETRY"%string
  | YP_TOKEN_KEYWORD_RETURN => Some "KEYWORD_RETURN"%string
  | YP_TOKEN_KEYWORD_SELF => Some "KEYWORD_SELF"%string
  | YP_TOKEN_KEYWORD_SUPER => Some "KEYWORD_SUPER"%string
  | YP_TOKEN_KEYWORD_THEN => Some "KEYWORD_THEN"%string
  | YP_TOKEN_KEYWORD_TRUE => Some "KEYWORD_TRUE"%string
  | YP_TOKEN_KEYWORD_UNDEF => Some "KEYWORD_UNDEF"%string
  | YP_TOKEN_KEYWORD_UNLESS => Some "KEYWORD_UNLESS"%string
  | YP_TOKEN_KEYWORD_UNTIL => Some "KEYWORD_UNTIL"%string
  | YP_TOKEN_KEYWORD_WHEN => Some "KEYWORD_WHEN"%string
  | YP_TOKEN_KEYWORD_WHILE => Some "KEYWORD_WHILE"%string
  | YP_TOKEN_KEYWORD_YIELD => Some "KEYWORD_YIELD"%string
  | YP_TOKEN_LABEL => Some "LABEL"%string
  | YP_TOKEN_LAMBDA_BEGIN => Some "LAMBDA_BEGIN"%string
  | YP_TOKEN_LESS => Some "LESS"%string
  | YP_TOKEN_LESS_EQUAL => Some "LESS_EQUAL"%string
  | YP_TOKEN_LESS_EQUAL_GREATER => Some "LESS_EQUAL_GREATER"%string
  | YP_TOKEN_LESS_LESS => Some "LESS_LESS"%string
  | YP_TOKEN_LESS_LESS_EQUAL => Some "LESS_LESS_EQUAL"%string
  | YP_TOKEN_MINUS => Some "MINUS"%string
  | YP_TOKEN_MINUS_AT => Some "MINUS_AT"%string
  | YP_TOKEN_MINUS_EQUAL => Some "MINUS_EQUAL"%string
  | YP_TOKEN_MINUS_GREATER => Some "MINUS_GREATER"%string
  | YP_TOKEN_NEWLINE => Some "NEWLINE"%string
  | YP_TOKEN_NTH_REFERENCE => Some "NTH_REFERENCE"%string
  | YP_TOKEN_PARENTHESIS_LEFT => Some "PARENTHESIS_LEFT"%string
  | YP_TOKEN_PARENTHESIS_RIGHT => Some "PARENTHESIS_RIGHT"%string
  | YP_TOKEN_PERCENT => Some "PERCENT"%string
  | YP_TOKEN_PERCENT_EQUAL => Some "PERCENT_EQUAL"%string
  | YP_TOKEN_PERCENT_LOWER_I => Some "PERCENT_LOWER_I"%string
  | YP_TOKEN_PERCENT_LOWER_W => Some "PERCENT_LOWER_W"%string
  | YP_TOKEN_PERCENT_LOWER_X => Some "PERCENT_LOWER_X"%string
  | YP_TOKEN_PERCENT_UPPER_I => Some "PERCENT_UPPER_I"%string
  | YP_TOKEN_PERCENT_UPPER_W => Some "PERCENT_UPPER_W"%string
  | YP_TOKEN_PIPE => Some "PIPE"%string
  | YP_TOKEN_PIPE_EQUAL => Some "PIPE_EQUAL"%string
  | YP_TOKEN_PIPE_PIPE => Some "PIPE_PIPE"%string
  | YP_TOKEN_PIPE_PIPE_EQUAL => Some "PIPE_PIPE_EQUAL"%string
  | YP_TOKEN_PLUS => Some "PLUS"%string
  | YP_TOKEN_PLUS_AT => Some "PLUS_AT"%string
  | YP_TOKEN_PLUS_EQUAL => Some "PLUS_EQUAL"%string
  | YP_TOKEN_QUESTION_MARK => Some "QUESTION_MARK"%string
  | YP_TOKEN_RATIONAL_NUMBER => Some "RATIONAL_NUMBER"%string
  | YP_TOKEN_REGEXP_BEGIN => Some "REGEXP_BEGIN"%string
  | YP_TOKEN_REGEXP_END => Some "REGEXP_END"%string
  | YP_TOKEN_SEMICOLON => Some "SEMICOLON"%string
  | YP_TOKEN_SLASH => Some "SLASH"%string
  | YP_TOKEN_SLASH_EQUAL => Some "SLASH_EQUAL"%string
  | YP_TOKEN_STAR => Some "STAR"%string
  | YP_TOKEN_STAR_EQUAL => Some "STAR_EQUAL"%string
  | YP_TOKEN_STAR_STAR => Some "STAR_STAR"%string
  | YP_TOKEN_STAR_STAR_EQUAL => Some "STAR_STAR_EQUAL"%string
  | YP_TOKEN_STRING_BEGIN => Some "STRING_BEGIN"%string
  | YP_TOKEN_STRING_CONTENT => Some "STRING_CONTENT"%string
  | YP_TOKEN_STRING_END => Some "STRING_END"%string
  | YP_TOKEN_SYMBOL_BEGIN => Some "SYMBOL_BEGIN"%string
  | YP_TOKEN_TILDE => Some "TILDE"%string
  | YP_TOKEN_TILDE_AT => Some "TILDE_AT"%string
  | YP_TOKEN_WORDS_SEP => Some "WORDS_SEP"%string
  | _ => None
  end.

(** [token_inspect]: the location (the two offsets from [parser->start]),
    the name of the type, and the bytes of the token. *)
Definition token_inspect (p : yp_parser_t) : option (Z * Z * string * list Z) :=
  name ← token_name (type (current p));
  Some (start (current p), cur p, name, lexeme p).

(** How a run of [each_token] on a mapped buffer ends. *)
Inductive each_token_result : Type :=
| Yielded (items : list (Z * Z * string * list Z))  (* the loop met EOF *)
| Aborted      (* [rb_bug], in [token_inspect] *)
| Undefined    (* a call of [yp_lex_token] is undefined *)
| Running.     (* the loop has not ended within the fuel *)

(** The loop of [each_token],
    [for (yp_lex_token(&parser); parser.current.type != YP_TOKEN_EOF; yp_lex_token(&parser))
       rb_yield(token_inspect(&parser));]
    entered with the parser after the first call; [acc] holds the items
    yielded so far, last first. *)
Fixpoint each_token_loop (fuel : nat) (p : yp_parser_t)
    (acc : list (Z * Z * string * list Z)) : each_token_result :=
  match fuel with
  | O => Running
  | S k =>
      match type (current p) with
      | YP_TOKEN_EOF => Yielded (rev acc)
      | _ =>
          match token_inspect p with
          | None => Aborted
          | Some item =>
              match yp_lex_token default_error_handler p with
              | None => Undefined
              | Some p' => each_token_loop k p' (item :: acc)
              end
          end
      end
  end.

(** [each_token] on the contents of the file, once they are mapped. *)
Definition each_token (fuel : nat) (src : list Z) : each_token_result :=
  match yp_lex_token default_error_handler (yp_parser_init src) with
  | None => Undefined
  | Some p => each_token_loop fuel p []
  end.

(** ** The Ruby side: [lib/yarp.rb] *)

(** The [RIPPER] hash, from the name of a token type to the Ripper event,
    in the order of the source. *)
Definition RIPPER : list (string * string) :=
  [
    ("AMPERSAND"%string, "on_op"%string);
    ("AMPERSAND_AMPERSAND"%string, "on_op"%string);
    ("AMPERSAND_AMPERSAND_EQUAL"%string, "on_op"%string);
    ("AMPERSAND_EQUAL"%string, "on_op"%string);
    ("BACK_REFERENCE"%string, "on_backref"%string);
    ("BACKTICK"%string, "on_backtick"%string);
    ("BANG"%string, "on_op"%string);
    ("BANG_AT"%string, "on_op"%string);
    ("BANG_EQUAL"%string, "on_op"%string);
    ("BANG_TILDE"%string, "on_op"%string);
    ("BRACE_LEFT"%string, "on_lbrace"%string);
    ("BRACE_RIGHT"%string, "on_rbrace"%string);
    ("BRACKET_LEFT"%string, "on_lbracket"%string);
    ("BRACKET_LEFT_RIGHT"%string, "on_op"%string);
    ("BRACKET_RIGHT"%string, "on_rbracket"%string);
    ("CARET"%string, "on_op"%string);
    ("CARET_EQUAL"%string, "on_op"%string);
    ("CHARACTER_LITERAL"%string, "on_CHAR"%string);
    ("CLASS_VARIABLE"%string, "on_cvar"%string);
    ("COLON"%string, "on_op"%string);
    ("COLON_COLON"%string, "on_op"%string);
    ("COMMA"%string, "on_comma"%string);
    ("COMMENT"%string, "on_comment"%string);
    ("CONSTANT"%string, "on_const"%string);
    ("DOT"%string, "on_period"%string);
    ("DOT_DOT"%string, "on_op"%string);
    ("DOT_DOT_DOT"%string, "on_op"%string);
    ("EMBDOC_BEGIN"%string, "on_embdoc_beg"%string);
    ("EMBDOC_END"%string, "on_embdoc_end"%string);
    ("EMBDOC_LINE"%string, "on_embdoc"%string);
    ("EMBEXPR_BEGIN"%string, "on_embexpr_beg"%string);
    ("EMBEXPR_END"%string, "on_embexpr_end"%string);
    ("EQUAL"%string, "on_op"%string);
    ("EQUAL_EQUAL"%string, "on_op"%string);
    ("EQUAL_EQUAL_EQUAL"%string, "on_op"%string);
    ("EQUAL_GREATER"%string, "on_op"%string);
    ("EQUAL_TILDE"%string, "on_op"%string);
    ("FLOAT"%string, "on_float"%string);
    ("GREATER"%string, "on_op"%string);
    ("GREATER_EQUAL"%string, "on_op"%string);
    ("GREATER_GREATER"%string, "on_op"%string);
    ("GREATER_GREATER_EQUAL"%string, "on_op"%string);
    ("GLOBAL_VARIABLE"%string, "on_gvar"%string);
    ("IDENTIFIER"%string, "on_ident"%string);
    ("IMAGINARY_NUMBER"%string, "on_imaginary"%string);
    ("INTEGER"%string, "on_int"%string);
    ("INSTANCE_VARIABLE"%string, "on_ivar"%string);
    ("INVALID"%string, "INVALID"%string);
    ("KEYWORD___ENCODING__"%string, "on_kw"%string);
    ("KEYWORD___LINE__"%string, "on_kw"%string);
    ("KEYWORD___FILE__"%string, "on_kw"%string);
    ("KEYWORD_ALIAS"%string, "on_kw"%string);
    ("KEYWORD_AND"%string, "on_kw"%string);
    ("KEYWORD_BEGIN"%string, "on_kw"%string);
    ("KEYWORD_BEGIN_UPCASE"%string, "on_kw"%string);
    ("KEYWORD_BREAK"%string, "on_kw"%string);
    ("KEYWORD_CASE"%string, "on_kw"%string);
    ("KEYWORD_CLASS"%string, "on_kw"%string);
    ("KEYWORD_DEF"%string, "on_kw"%string);
    ("KEYWORD_DEFINED"%string, "on_kw"%string);
    ("KEYWORD_DO"%string, "on_kw"%string);
    ("KEYWORD_ELSE"%string, "on_kw"%string);
    ("KEYWORD_ELSIF"%string, "on_kw"%string);
    ("KEYWORD_END"%string, "on_kw"%string);
    ("KEYWORD_END_UPCASE"%string, "on_kw"%string);
    ("KEYWORD_ENSURE"%string, "on_kw"%string);
    ("KEYWORD_FALSE"%string, "on_kw"%string);
    ("KEYWORD_FOR"%string, "on_kw"%string);
    ("KEYWORD_IF"%string, "on_kw"%string);
    ("KEYWORD_IN"%string, "on_kw"%string);
    ("KEYWORD_MODULE"%string, "on_kw"%string);
    ("KEYWORD_NEXT"%string, "on_kw"%string);
    ("KEYWORD_NIL"%string, "on_kw"%string);
    ("KEYWORD_NOT"%string, "on_kw"%string);
    ("KEYWORD_OR"%string, "on_kw"%string);
    ("KEYWORD_REDO"%string, "on_kw"%string);
    ("KEYWORD_RESCUE"%string, "on_kw"%string);
    ("KEYWORD_RETRY"%string, "on_kw"%string);
    ("KEYWORD_RETURN"%string, "on_kw"%string);
    ("KEYWORD_SELF"%string, "on_kw"%string);
    ("KEYWORD_SUPER"%string, "on_kw"%string);
    ("KEYWORD_THEN"%string, "on_kw"%string);
    ("KEYWORD_TRUE"%string, "on_kw"%string);
    ("KEYWORD_UNDEF"%string, "on_kw"%string);
    ("KEYWORD_UNLESS"%string, "on_kw"%string);
    ("KEYWORD_UNTIL"%string, "on_kw"%string);
    ("KEYWORD_WHEN"%string, "on_kw"%string);
    ("KEYWORD_WHILE"%string, "on_kw"%string);
    ("KEYWORD_YIELD"%string, "on_kw"%string);
    ("LABEL"%string, "on_label"%string);
    ("LAMBDA_BEGIN"%string, "on_tlambeg"%string);
    ("LESS"%string, "on_op"%string);
    ("LESS_EQUAL"%string, "on_op"%string);
    ("LESS_EQUAL_GREATER"%string, "on_op"%string);
    ("LESS_LESS"%string, "on_op"%string);
    ("LESS_LESS_EQUAL"%string, "on_op"%string);
    ("MINUS"%string, "on_op"%string);
    ("MINUS_AT"%string, "on_op"%string);
    ("MINUS_EQUAL"%string, "on_op"%string);
    ("MINUS_GREATER"%string, "on_tlambda"%string);
    ("NEWLINE"%string, "on_nl"%string);
    ("NTH_REFERENCE"%string, "on_backref"%string);
    ("PARENTHESIS_LEFT"%string, "on_lparen"%string);
    ("PARENTHESIS_RIGHT"%string, "on_rparen"%string);
    ("PERCENT"%string, "on_op"%string);
    ("PERCENT_EQUAL"%string, "on_op"%string);
    ("PERCENT_LOWER_I"%string, "on_qsymbols_beg"%string);
    ("PERCENT_LOWER_W"%string, "on_qwords_beg"%string);
    ("PERCENT_LOWER_X"%string, "on_backtick"%string);
    ("PERCENT_UPPER_I"%string, "on_symbols_beg"%string);
    ("PERCENT_UPPER_W"%string, "on_words_beg"%string);
    ("PIPE"%string, "on_op"%string);
    ("PIPE_EQUAL"%string, "on_op"%string);
    ("PIPE_PIPE"%string, "on_op"%string);
    ("PIPE_PIPE_EQUAL"%string, "on_op"%string);
    ("PLUS"%string, "on_op"%string);
    ("PLUS_AT"%string, "on_op"%string);
    ("PLUS_EQUAL"%string, "on_op"%string);
    ("QUESTION_MARK"%string, "on_op"%string);
    ("RATIONAL_NUMBER"%string, "on_rational"%string);
    ("REGEXP_BEGIN"%string, "on_regexp_beg"%string);
    ("REGEXP_END"%string, "on_regexp_end"%string);
    ("SEMICOLON"%string, "on_semicolon"%string);
    ("SLASH"%string, "on_op"%string);
    ("SLASH_EQUAL"%string, "on_op"%string);
    ("STAR"%string, "on_op"%string);
    ("STAR_EQUAL"%string, "on_op"%string);
    ("STAR_STAR"%string, "on_op"%string);
    ("STAR_STAR_EQUAL"%string, "on_op"%string);
    ("STRING_BEGIN"%string, "on_tstring_beg"%string);
    ("STRING_CONTENT"%string, "on_tstring_content"%string);
    ("STRING_END"%string, "on_tstring_end"%string);
    ("SYMBOL_BEGIN"%string, "on_symbeg"%string);
    ("TILDE"%string, "on_op"%string);
    ("TILDE_AT"%string, "on_op"%string);
    ("WORDS_SEP"%string, "on_words_sep"%string) ].

(** [RIPPER.fetch(type)]: the event of the key, or a [KeyError] ([None]). *)
Definition RIPPER_fetch (key : string) : option string :=
  snd <$> find (fun kv => String.eqb (fst kv) key) RIPPER.

(** [File.foreach(filepath)]: the lines of the file, each with the
    newline that ends it; the last one may have none. *)
Fixpoint foreach_line (src : list Z) : list (list Z) :=
  match src with
  | [] => []
  | b :: rest =>
      if b =? ch "010" then [b] :: foreach_line rest
      else match foreach_line rest with
           | [] => [[b]]
           | l :: ls => (b :: l) :: ls
           end
  end.

(** [offsets = [0]; File.foreach(filepath) { |line| offsets << offsets.last + line.bytesize }] *)
Definition offsets_of (src : list Z) : list Z :=
  fold_left (fun offsets line => offsets ++ [List.last offsets 0 + Z.of_nat (length line)])
            (foreach_line src) [0].

(** [array[i]] in Ruby: a negative index counts from the end, and an
    index outside the array gives [nil]. *)
Definition ruby_at (l : list Z) (i : Z) : option Z :=
  if i <? 0 then
    if 0 <=? Z.of_nat (length l) + i then l !! Z.to_nat (Z.of_nat (length l) + i) else None
  else l !! Z.to_nat i.

(** [offsets.each_with_index.detect { |(offset, line)| break [line, offsets[line - 1]] if start_char < offset }]
    from the index [line] on: the [break] makes the pair the value of the
    whole expression; without it the block gives [nil] every time and so
    does [detect]. *)
Fixpoint detect_line (offsets rest : list Z) (line : Z) (start_char : Z)
    : option (Z * option Z) :=
  match rest with
  | [] => None
  | offset :: rest' =>
      if start_char <? offset then Some (line, ruby_at offsets (line - 1))
      else detect_line offsets rest' (line + 1) start_char
  end.

(** The line number and the byte in the line that [lex_compat] gives a
    token that starts at [start_char]; [||=] replaces a [nil]. *)
Definition line_and_byte (offsets : list Z) (start_char : Z) : Z * Z :=
  let found := detect_line offsets offsets 0 start_char in
  let line_number :=
    match found with Some (line, _) => line | None => Z.of_nat (length offsets) + 1 end in
  let line_offset :=
    match found with Some (_, Some offset) => offset | _ => List.last offsets 0 end in
  (line_number, start_char - line_offset).

(** What the block of [lex_compat] does with one token: it appends a
    token to [tokens], or an exception leaves the method. *)
Inductive compat_result : Type :=
| Appended (line_number line_byte : Z) (event : string) (unescaped : list Z)
| KeyError         (* [RIPPER.fetch(type)], [type] not being a key *)
| ArgumentError.   (* [unicode_normalize] on bytes that are not valid UTF-8 *)

(** [%i[on_comment on_tstring_content].include?(event) && value.include?("\\")] *)
Definition unescapes (event : string) (value : list Z) : bool :=
  (String.eqb event "on_comment" || String.eqb event "on_tstring_content")
  && existsb (Z.eqb (ch "\")) value.

(** The block of [lex_compat] on one token that the lexer yields.
    [unicode_normalize] stands for [value.force_encoding("UTF-8").unicode_normalize]
    of the Ruby library, [None] being the exception it raises; the lexer
    state, the same constant in every token, is left out. *)
Definition lex_compat_token (unicode_normalize : list Z -> option (list Z))
    (offsets : list Z) (item : Z * Z * string * list Z) : compat_result :=
  let '(start_char, _, type, value) := item in
  let '(line_number, line_byte) := line_and_byte offsets start_char in
  match RIPPER_fetch type with
  | None => KeyError
  | Some event =>
      if unescapes event value then
        match unicode_normalize value with
        | Some unescaped => Appended line_number line_byte event unescaped
        | None => ArgumentError
        end
      else Appended line_number line_byte event value
  end.

(** The offsets after each of the lines, the first of them starting at
    the offset [a]. *)
Fixpoint line_ends (a : Z) (lines : list (list Z)) : list Z :=
  match lines with
  | [] => []
  | l :: ls => (a + Z.of_nat (length l)) :: line_ends (a + Z.of_nat (length l)) ls
  end.

(** [lex_ripper] on the tokens that [Ripper.lex] returns, each a position,
    an event, a value and a lexer state: an [on_ignored_nl] becomes an
    [on_nl], an [on_sp] is dropped, every other token is kept. *)
Definition lex_ripper {State : Type} (ripper_lex : list (Z * Z * string * list Z * State))
    : list (Z * Z * string * list Z * State) :=
  fold_left
    (fun tokens token =>
       let '(position, event, value, state) := token in
       if String.eqb event "on_ignored_nl" then tokens ++ [(position, "on_nl"%string, value, state)]
       else if String.eqb event "on_sp" then tokens
       else tokens ++ [token])
    ripper_lex [].

(** * Lemmas *)

(** ** Basic facts *)

Lemma byte_at_nonzero (src : list Z) (i : Z) :
  byte_at src i <> 0 -> 0 <= i < Z.of_nat (length src).
Proof.
  unfold byte_at. destruct (i <? 0) eqn:E; [congruence|].
  apply Z.ltb_ge in E. intros H. split; [lia|].
  destruct (Z_lt_ge_dec i (Z.of_nat (length src))) as [|G]; [assumption|].
  exfalso. apply H. apply nth_overflow. lia.
Qed.

Lemma byte_at_past_end (src : list Z) (i : Z) :
  Z.of_nat (length src) <= i -> byte_at src i = 0.
Proof.
  intros H. destruct (Z.eq_dec (byte_at src i) 0) as [|E]; [assumption|].
  apply byte_at_nonzero in E. lia.
Qed.

Lemma set_end_cur (p : yp_parser_t) : set_end p (cur p) = p.
Proof. destruct p as [? ? ? ? ? ? [? ? ?] ?]. reflexivity. Qed.

Lemma set_end_set_end (p : yp_parser_t) (a b : Z) : set_end (set_end p a) b = set_end p b.
Proof. reflexivity. Qed.

Lemma fwd_refl (p : yp_parser_t) : fwd p p.
Proof. exists (cur p). rewrite set_end_cur. repeat split; lia. Qed.

Lemma fwd_trans (p q r : yp_parser_t) : fwd p q -> fwd q r -> fwd p r.
Proof.
  intros (e1 & -> & H1 & H2) (e2 & -> & H3 & H4). exists e2.
  unfold parser_end in *. cbn in *. repeat split; lia.
Qed.


Lemma fwd_advance_within (p : yp_parser_t) (k : Z) :
  0 <= k -> cur p + k <= parser_end p -> fwd p (advance p k).
Proof.
  intros Hk H. exists (cur p + k). repeat split; lia.
Qed.

Lemma fwd_advance (p : yp_parser_t) :
  peek p 0 <> 0 -> fwd p (advance p 1).
Proof.
  intros H. unfold peek in H. apply byte_at_nonzero in H.
  apply fwd_advance_within; unfold parser_end; lia.
Qed.

Lemma match_fwd (p q : yp_parser_t) (v : Z) (r : bool) :
  v <> 0 -> match_ p v = (r, q) ->
  fwd p q /\ (if r then q = advance p 1 /\ peek p 0 = v else q = p /\ peek p 0 <> v).
Proof.
  intros Hv. unfold match_. destruct (peek p 0 =? v) eqn:E; intros [= <- <-].
  - apply Z.eqb_eq in E. split; [apply fwd_advance; congruence|]. split; [reflexivity|assumption].
  - apply Z.eqb_neq in E. split; [apply fwd_refl|]. split; [reflexivity|assumption].
Qed.

Lemma match_either_fwd (p q : yp_parser_t) (a b : Z) (r : bool) :
  a <> 0 -> b <> 0 -> match_either p a b = (r, q) ->
  fwd p q /\ (if r then q = advance p 1 else q = p).
Proof.
  intros Ha Hb. unfold match_either.
  destruct (match_ p a) as [r1 p1] eqn:E1. apply match_fwd in E1 as [F1 R1]; [|assumption].
  destruct r1.
  - intros [= <- <-]. split; [assumption|tauto].
  - destruct R1 as [-> _]. intros E2. apply match_fwd in E2 as [F2 R2]; [|assumption].
    split; [assumption|]. destruct r; tauto.
Qed.

Lemma scan_while_spec (f : Z -> bool) (src : list Z) (fuel : nat) (e : Z) :
  f 0 = false ->
  let e' := scan_while f src fuel e in
  e <= e' /\ (e < e' -> e' <= Z.of_nat (length src)).
Proof.
  intros Hf. revert e. induction fuel as [|k IH]; intros e; cbn; [lia|].
  destruct (f (byte_at src e)) eqn:E; [|lia].
  assert (byte_at src e <> 0) as Hb by (intros Hz; rewrite Hz in E; congruence).
  apply byte_at_nonzero in Hb. specialize (IH (e + 1)). cbn in IH. lia.
Qed.

Lemma run_scan_fwd (f : Z -> bool) (p : yp_parser_t) :
  f 0 = false -> fwd p (run_scan f p).
Proof.
  intros Hf. unfold run_scan. eexists. split; [reflexivity|].
  exact (scan_while_spec f (source p) (fuel_of (source p)) (cur p) Hf).
Qed.

Lemma lex_digits_spec (f : Z -> bool) (src : list Z) (fuel : nat) (e : Z) :
  f 0 = false ->
  let e' := lex_digits f src fuel e in
  e <= e' /\ (e < e' -> e' <= Z.of_nat (length src)).
Proof.
  intros Hf. revert e. induction fuel as [|k IH]; intros e; cbn; [lia|].
  destruct (f (byte_at src e)) eqn:E; [|lia].
  assert (byte_at src e <> 0) as Hb by (intros Hz; rewrite Hz in E; congruence).
  apply byte_at_nonzero in Hb.
  destruct (byte_at src (e + 1) =? ch "_") eqn:U.
  - apply Z.eqb_eq in U.
    assert (byte_at src (e + 1) <> 0) as Hu by (rewrite U; discriminate).
    apply byte_at_nonzero in Hu. specialize (IH (e + 1 + 1)). cbn in IH. lia.
  - specialize (IH (e + 1)). cbn in IH. lia.
Qed.

Lemma run_digits_fwd (f : Z -> bool) (p : yp_parser_t) :
  f 0 = false -> fwd p (run_digits f p).
Proof.
  intros Hf. unfold run_digits. eexists. split; [reflexivity|].
  exact (lex_digits_spec f (source p) (fuel_of (source p)) (cur p) Hf).
Qed.

(** ** The token lexers only move the cursor forward *)

Lemma class_nonzero (f : Z -> bool) (b : Z) : f 0 = false -> f b = true -> b <> 0.
Proof. intros H0 Hb ->. congruence. Qed.

(** A literal character is not NUL. *)
Ltac literal_nonzero := let H := fresh in intro H; vm_compute in H; discriminate H.

(** The byte under the cursor is not NUL, from a test on it in the context. *)
Ltac tested_nonzero :=
  let Hz := fresh "Hz" in
  intro Hz;
  match goal with
  | H : _ = true |- _ => rewrite Hz in H; vm_compute in H; discriminate H
  | H : _ = _ |- _ => rewrite Hz in H; vm_compute in H; discriminate H
  end.

(** Name the result of the next [match] of the goal and record how it
    moved the cursor. *)
Ltac next_match :=
  match goal with
  | |- context [match_either ?p ?a ?b] =>
      let r := fresh "r" in let q := fresh "q" in let E := fresh "E" in
      let F := fresh "F" in let R := fresh "R" in
      destruct (match_either p a b) as [r q] eqn:E;
      apply match_either_fwd in E as [F R]; [|literal_nonzero|literal_nonzero]
  | |- context [match_ ?p ?v] =>
      let r := fresh "r" in let q := fresh "q" in let E := fresh "E" in
      let F := fresh "F" in let R := fresh "R" in
      destruct (match_ p v) as [r q] eqn:E;
      apply match_fwd in E as [F R]; [|literal_nonzero]
  end.

(** Prove [fwd p x] by walking back from [x] to [p]. *)
Ltac fwd_chain :=
  lazymatch goal with
  | |- fwd ?p ?p => apply fwd_refl
  | |- fwd ?p (run_scan ?f ?y) =>
      apply (fwd_trans p y); [fwd_chain | apply run_scan_fwd; reflexivity]
  | |- fwd ?p (run_digits ?f ?y) =>
      apply (fwd_trans p y); [fwd_chain | apply run_digits_fwd; reflexivity]
  | |- fwd ?p (advance ?y 1) =>
      apply (fwd_trans p y); [fwd_chain | apply fwd_advance; tested_nonzero]
  | |- fwd ?p (advance ?y ?k) =>
      apply (fwd_trans p y);
        [fwd_chain | apply fwd_advance_within; unfold parser_end in *; cbn in *; lia]
  | |- fwd ?p ?x =>
      match goal with
      | H : fwd ?y x |- _ => apply (fwd_trans p y); [fwd_chain | exact H]
      | H : x = ?y |- _ => rewrite H; fwd_chain
      end
  end.

(** Split the goal along the tests and [match]es of a lexer. *)
Ltac split_lexer :=
  repeat first
    [ next_match
    | match goal with
      | |- (if ?c then _ else _) = _ -> _ => destruct c eqn:?
      | |- (match ?c with Some _ => _ | None => _ end) = _ -> _ => destruct c eqn:?
      | |- (match (if ?c then _ else _) with inl _ => _ | inr _ => _ end) = _ -> _ =>
          destruct c eqn:?
      end ].

Ltac guard_facts :=
  repeat match goal with
  | H : (_ && _) = true |- _ => apply andb_true_iff in H as [? ?]
  | H : (_ <? _) = true |- _ => apply Z.ltb_lt in H
  end.

Lemma lex_optional_float_suffix_fwd (p q : yp_parser_t) (ty : yp_token_type_t) :
  lex_optional_float_suffix p = (ty, q) -> fwd p q.
Proof.
  unfold lex_optional_float_suffix.
  split_lexer; guard_facts; intros [= <- <-]; fwd_chain.
Qed.

Lemma reject_trailing_underscore_fwd (r : yp_token_type_t * yp_parser_t)
    (p q : yp_parser_t) (ty : yp_token_type_t) :
  fwd p (snd r) -> reject_trailing_underscore r = (ty, q) -> fwd p q.
Proof.
  destruct r as [t x]. cbn. intros F.
  destruct (peek x (-1) =? ch "_"); intros [= <- <-]; exact F.
Qed.

Lemma lex_based_digits_fwd (f : Z -> bool) (p q : yp_parser_t) (ty : yp_token_type_t) :
  f 0 = false -> peek p 0 <> 0 -> lex_based_digits f p = (ty, q) -> fwd p q.
Proof.
  intros Hf Hp. unfold lex_based_digits.
  assert (fwd p (advance p 1)) as F by (apply fwd_advance; assumption).
  destruct (negb (f (peek (advance p 1) 0))).
  - intros [= <- <-]. exact F.
  - apply reject_trailing_underscore_fwd. cbn [snd].
    apply (fwd_trans _ _ _ F). apply run_digits_fwd. assumption.
Qed.

Lemma lex_numeric_prefix_fwd (p q : yp_parser_t) (ty : yp_token_type_t) :
  lex_numeric_prefix p = (ty, q) -> fwd p q.
Proof.
  unfold lex_numeric_prefix.
  destruct (peek p (-1) =? ch "0").
  - repeat match goal with
    | |- (if ?c then _ else _) = _ -> _ => destruct c eqn:?
    end;
    try (apply lex_based_digits_fwd; [reflexivity | tested_nonzero]);
    apply reject_trailing_underscore_fwd; cbn [snd]; try fwd_chain.
    destruct (lex_optional_float_suffix p) as [t x] eqn:E.
    apply lex_optional_float_suffix_fwd in E. exact E.
  - apply reject_trailing_underscore_fwd.
    destruct (lex_optional_float_suffix (run_digits is_decimal_number_char p)) as [t x] eqn:E.
    apply lex_optional_float_suffix_fwd in E. cbn [snd]. fwd_chain.
Qed.

Lemma lex_numeric_fwd (p q : yp_parser_t) (ty : yp_token_type_t) :
  lex_numeric p = (ty, q) -> fwd p q.
Proof.
  unfold lex_numeric.
  destruct (lex_numeric_prefix p) as [t x] eqn:E. apply lex_numeric_prefix_fwd in E.
  assert (forall y r, (let '(r, p) := match_ x (ch "r") in
            let ty := if r then YP_TOKEN_RATIONAL_NUMBER else t in
            let '(i, p0) := match_ p (ch "i") in
            let ty0 := if i then YP_TOKEN_IMAGINARY_NUMBER else ty in (ty0, p0)) = (r, y) ->
          fwd p y) as K.
  { intros y r0. next_match. next_match. intros [= <- <-]. fwd_chain. }
  destruct t; try (intros [= <- <-]; exact E); apply K.
Qed.

Lemma lex_global_variable_fwd (p q : yp_parser_t) (ty : yp_token_type_t) :
  lex_global_variable p = (ty, q) -> fwd p q.
Proof.
  unfold lex_global_variable.
  repeat match goal with
  | |- (if ?c then _ else _) = _ -> _ => destruct c eqn:?
  end; intros [= <- <-]; fwd_chain.
Qed.

Lemma lex_identifier_fwd (p q : yp_parser_t) (ty : yp_token_type_t) :
  lex_identifier p = (ty, q) -> fwd p q.
Proof.
  unfold lex_identifier.
  set (p1 := run_scan is_identifier_char p).
  assert (fwd p p1) as F1 by (apply run_scan_fwd; reflexivity).
  clearbody p1.
  destruct ((cur p1 + 1 <? parser_end p1) && negb (peek p1 1 =? ch "="));
    split_lexer; intros [= <- <-]; fwd_chain.
Qed.

(** ** Pushing and popping leave the tokens alone *)

Lemma push_lex_mode_tokens (p : yp_parser_t) (m : yp_lex_mode_t) :
  let q := push_lex_mode p m in
  current q = current p /\ previous q = previous p /\ source q = source p
  /\ lineno q = lineno p
  /\ lex_modes_index q = S (lex_modes_index p).
Proof.
  unfold push_lex_mode.
  destruct (YP_LEX_STACK_SIZE - 1 <? S (lex_modes_index p))%nat; repeat split.
Qed.

Lemma store_mode_tokens (p q : yp_parser_t) (ptr : lex_mode_ptr) (m : yp_lex_mode_tag) :
  store_mode p ptr m = Some q ->
  current q = current p /\ previous q = previous p /\ source q = source p
  /\ lineno q = lineno p /\ lex_modes_index q = lex_modes_index p
  /\ lex_modes_current q = lex_modes_current p.
Proof.
  unfold store_mode. destruct ptr as [i|a|]; [| |discriminate].
  - destruct (lex_modes_stack p !! i); [|discriminate]. intros [= <-]. repeat split.
  - destruct (heap p !! a); [|discriminate]. intros [= <-]. repeat split.
Qed.

Lemma pop_lex_mode_tokens (p q : yp_parser_t) :
  pop_lex_mode p = Some q ->
  current q = current p /\ previous q = previous p /\ source q = source p
  /\ lineno q = lineno p
  /\ (lex_modes_index q <= lex_modes_index p)%nat
  /\ (lex_modes_index p <> 0%nat -> lex_modes_index q = (lex_modes_index p - 1)%nat).
Proof.
  unfold pop_lex_mode.
  destruct (lex_modes_index p =? 0)%nat eqn:E0.
  - intros H. apply store_mode_tokens in H as (? & ? & ? & ? & Hi & ?).
    apply Nat.eqb_eq in E0. repeat split; try assumption; lia.
  - destruct (lex_modes_index p <? YP_LEX_STACK_SIZE)%nat.
    + intros [= <-]. cbn. repeat split; lia.
    + destruct (load p (lex_modes_current p)); [|discriminate].
      destruct (free (heap p) (lex_modes_current p)); [|discriminate].
      intros [= <-]. cbn. repeat split; lia.
Qed.

(** ** The default case *)

Ltac open_fwd :=
  repeat match goal with
  | H : fwd _ _ |- _ =>
      let e := fresh "e" in destruct H as (e & -> & ? & ?)
  end.

Ltac open_entered :=
  match goal with
  | H : entered _ _ |- _ =>
      let S := fresh "S" in
      destruct H as ((? & ? & ? & ? & S & ?) & ? & ? & ?);
      unfold parser_end in *; try rewrite S in *
  end.

Lemma leaf_keep (top : yp_lex_mode_t) (p p0 q : yp_parser_t) (ty : yp_token_type_t) (n : Z) :
  entered p p0 -> fwd p0 q -> step_post top p ty (set_lineno q n).
Proof.
  intros He F. open_fwd. open_entered. cbn in *.
  exists (set_lineno (set_end p0 e) n). cbn.
  split; [repeat split; assumption|].
  unfold parser_end. split; [lia|]. split; [lia|]. split; [lia|].
  apply effect_keep; [reflexivity|]. right. right. unfold parser_end. cbn. lia.
Qed.

Lemma leaf_keep' (top : yp_lex_mode_t) (p p0 q : yp_parser_t) (ty : yp_token_type_t) :
  entered p p0 -> fwd p0 q -> step_post top p ty q.
Proof.
  intros He F. replace q with (set_lineno q (lineno q)).
  - eapply leaf_keep; eassumption.
  - destruct q. reflexivity.
Qed.

Lemma leaf_push (top : yp_lex_mode_t) (p p0 q : yp_parser_t) (ty : yp_token_type_t)
    (m : yp_lex_mode_t) :
  entered p p0 -> fwd p0 q -> step_post top p ty (push_lex_mode q m).
Proof.
  intros He F. open_fwd. open_entered. cbn in *.
  exists (set_end p0 e). cbn.
  split; [repeat split; assumption|].
  unfold parser_end. split; [lia|]. split; [lia|]. split; [lia|].
  eapply effect_push; [reflexivity| |]; unfold parser_end; cbn; lia.
Qed.

Lemma leaf_percent (top : yp_lex_mode_t) (p p0 : yp_parser_t) (ty : yp_token_type_t)
    (m : yp_lex_mode_t) :
  entered p p0 -> peek p0 0 <> 0 ->
  step_post top p ty (push_lex_mode (advance (advance p0 1) 1) m).
Proof.
  intros He Hk. unfold peek in Hk. apply byte_at_nonzero in Hk. open_entered. cbn in *.
  exists (advance (advance p0 1) 1). cbn.
  split; [repeat split; assumption|].
  unfold parser_end. split; [lia|]. split; [lia|]. split; [lia|].
  eapply effect_push; [reflexivity| |]; unfold parser_end; cbn; lia.
Qed.

Lemma leaf_pop (top : yp_lex_mode_t) (p p0 q p' : yp_parser_t) (ty : yp_token_type_t) :
  entered p p0 -> fwd p0 q -> pop_lex_mode q = Some p' -> step_post top p ty p'.
Proof.
  intros He F Hp. open_fwd. open_entered. cbn in *.
  exists (set_end p0 e). cbn.
  split; [repeat split; assumption|].
  unfold parser_end. split; [lia|]. split; [lia|]. split; [lia|].
  apply effect_pop; [assumption| |]; unfold parser_end; cbn; lia.
Qed.

Lemma match_at_after_def_or_dot_fwd (p q : yp_parser_t) (r : bool) :
  match_at_after_def_or_dot p = (r, q) -> fwd p q.
Proof.
  unfold match_at_after_def_or_dot.
  destruct (type (previous p)); try (intros [= <- <-]; apply fwd_refl);
    intros E; apply match_fwd in E as [F _]; [assumption|literal_nonzero| assumption |literal_nonzero].
Qed.

(** When [strncmp] finds [n] bytes of the source equal to [n] bytes of a
    string that are not NUL, those bytes lie inside the buffer. *)
Lemma strncmp_eq_within (src : list Z) (s : list Z) (n : nat) (pos : Z) :
  Forall (fun b => b <> 0) s -> (0 < n <= length s)%nat ->
  strncmp_eq src pos s n = true ->
  pos + Z.of_nat n <= Z.of_nat (length src).
Proof.
  revert s pos. induction n as [|k IH]; intros s pos Hs Hn H; [lia|].
  destruct s as [|b s]; [cbn in Hn; lia|].
  apply Forall_cons in Hs as [Hb Hs]. cbn in Hn.
  cbn [strncmp_eq hd tl] in H.
  destruct (byte_at src pos =? b) eqn:E; [|discriminate].
  apply Z.eqb_eq in E.
  destruct (byte_at src pos =? 0) eqn:E0; [apply Z.eqb_eq in E0; congruence|].
  assert (byte_at src pos <> 0) as Hnz by congruence.
  apply byte_at_nonzero in Hnz.
  destruct k as [|k]; [lia|].
  specialize (IH s (pos + 1) Hs ltac:(lia) H). lia.
Qed.

Ltac next_def_or_dot :=
  match goal with
  | |- context [match_at_after_def_or_dot ?p] =>
      let r := fresh "r" in let q := fresh "q" in let E := fresh "E" in
      destruct (match_at_after_def_or_dot p) as [r q] eqn:E;
      apply match_at_after_def_or_dot_fwd in E
  end.

Ltac next_lexer :=
  match goal with
  | |- context [lex_numeric ?p] =>
      let t := fresh "t" in let q := fresh "q" in let E := fresh "E" in
      destruct (lex_numeric p) as [t q] eqn:E; apply lex_numeric_fwd in E
  | |- context [lex_global_variable ?p] =>
      let t := fresh "t" in let q := fresh "q" in let E := fresh "E" in
      destruct (lex_global_variable p) as [t q] eqn:E; apply lex_global_variable_fwd in E
  | |- context [lex_identifier ?p] =>
      let t := fresh "t" in let q := fresh "q" in let E := fresh "E" in
      destruct (lex_identifier p) as [t q] eqn:E; apply lex_identifier_fwd in E
  end.

(** Split a case of [lex_token_type] along its tests. *)
Ltac split_case :=
  repeat first
    [ match goal with
      | |- (if ?b then _ else _) = _ -> _ => destruct b eqn:?
      | |- (?m ≫= _) = _ -> _ => destruct m eqn:?; cbn [mbind option_bind]
      end
    | next_match
    | next_def_or_dot
    | next_lexer
    | match goal with
      | |- (match ?c with _ => _ end) = _ -> _ => destruct c eqn:?
      end ].

(** What the successful [strncmp] of [=begin] says about the buffer. *)
Ltac strncmp_facts :=
  guard_facts;
  repeat match goal with
  | H : strncmp_eq _ _ _ _ = true |- _ =>
      apply strncmp_eq_within in H;
      [ | vm_compute; repeat (apply List.Forall_cons; [discriminate|]); apply List.Forall_nil
        | vm_compute; lia ]
  end.

(** Close a branch of the default case. *)
Ltac default_leaf :=
  first
    [ discriminate
    | intros [= <- <-];
      first [ match goal with
              | H : pop_lex_mode ?q = Some ?y |- step_post _ _ _ ?y =>
                  eapply (leaf_pop _ _ _ q); [eassumption | fwd_chain | exact H]
              end
            | eapply leaf_percent; [eassumption | tested_nonzero]
            | eapply leaf_push; [eassumption | fwd_chain]
            | eapply leaf_keep; [eassumption | fwd_chain]
            | eapply leaf_keep'; [eassumption | fwd_chain] ] ].

Lemma lex_default_step (top : yp_lex_mode_t) (p p' : yp_parser_t) (ty : yp_token_type_t) :
  lex_default top p = Some (ty, p') -> step_post top p ty p'.
Proof.
  unfold lex_default.
  pose proof (run_scan_fwd is_non_newline_whitespace_char p eq_refl) as F0.
  set (ps := run_scan is_non_newline_whitespace_char p) in *. clearbody ps.
  set (c := peek (set_start ps (cur ps)) 0).
  assert (c = byte_at (source p) (cur ps)) as Hc.
  { destruct F0 as (e & -> & _). unfold c, peek. cbn. f_equal. lia. }
  set (p0 := advance (set_start ps (cur ps)) 1).
  destruct ((c =? 0) || (c =? 4) || (c =? 26)) eqn:Eof.
  - intros [= <- <-]. destruct F0 as (e & -> & ? & ?).
    exists p0. unfold p0, parser_end in *. clear Hc Eof p0 c. cbn in *.
    split; [repeat split|]. split; [lia|]. split; [lia|]. split; [lia|].
    apply effect_keep; [reflexivity|]. left. reflexivity.
  - assert (entered p p0) as He.
    { apply orb_false_iff in Eof as [Eof _]. apply orb_false_iff in Eof as [Eof _].
      apply Z.eqb_neq in Eof. rewrite Hc in Eof. apply byte_at_nonzero in Eof.
      destruct F0 as (e & -> & ? & ?). unfold p0, parser_end in *. clear Hc p0 c.
      unfold entered, parser_end. cbn in *. split; [repeat split|]. lia. }
    clearbody p0. clear Hc Eof. clearbody c.
    unfold ret_match, ret, lex_percent.
    split_case; strncmp_facts; default_leaf.
Qed.

(** ** The loops of the literal modes *)

Lemma embdoc_line_mono (src : list Z) (pend : Z) (fuel : nat) (e : Z) :
  let e' := embdoc_line src pend fuel e in
  e <= e' /\ e' <= Z.max e pend.
Proof.
  revert e. induction fuel as [|k IH]; intros e; cbn.
  - lia.
  - destruct (e <? pend) eqn:E; [|apply Z.ltb_ge in E; lia].
    apply Z.ltb_lt in E.
    destruct (negb (byte_at src e =? ch "010")); [|lia].
    specialize (IH (e + 1)). cbn in IH. lia.
Qed.

Lemma embdoc_line_spec (src : list Z) (pend : Z) (fuel : nat) (e : Z) :
  let e' := embdoc_line src pend (S fuel) e in
  e <= e' /\ e' <= Z.max e pend /\ (e' < pend -> e < e').
Proof.
  cbn. destruct (e <? pend) eqn:E; [|apply Z.ltb_ge in E; lia].
  apply Z.ltb_lt in E.
  destruct (negb (byte_at src e =? ch "010")); [|lia].
  pose proof (embdoc_line_mono src pend fuel (e + 1)) as H. cbn in H. lia.
Qed.

Lemma list_separator_spec (src : list Z) (fuel : nat) (e line : Z) :
  byte_at src e <> 0 ->
  let r := list_separator src (S fuel) e line in
  e < fst r /\ fst r <= Z.of_nat (length src).
Proof.
  revert e line. induction fuel as [|k IH]; intros e line Hb;
    apply byte_at_nonzero in Hb.
  - cbn. destruct (is_whitespace_char (byte_at src (e + 1))); cbn; lia.
  - cbn [list_separator].
    destruct (is_whitespace_char (byte_at src (e + 1))) eqn:W; [|cbn; lia].
    assert (byte_at src (e + 1) <> 0) as Hn
      by (eapply class_nonzero; [|exact W]; reflexivity).
    specialize (IH (e + 1) (if byte_at src e =? ch "010" then line + 1 else line) Hn).
    cbn [list_separator] in IH. lia.
Qed.

Lemma list_word_spec (src : list Z) (pend term_ tstart : Z) (fuel : nat) (e : Z) :
  let r := list_word src pend term_ tstart fuel e in
  e <= snd r /\ snd r <= Z.max e pend
  /\ (fst r = ExitContent -> snd r = e ->
      is_whitespace_char (byte_at src e) = true \/ tstart < e)
  /\ (fst r = ExitTerminator -> snd r < pend)
  /\ fst r <> ExitEmbexpr.
Proof.
  revert e. induction fuel as [|k IH]; intros e; cbn.
  - repeat split; try lia; discriminate.
  - destruct (e <? pend) eqn:E.
    + apply Z.ltb_lt in E.
      destruct (is_whitespace_char (byte_at src e)) eqn:W.
      { cbn. repeat split; try lia; try discriminate; try (intros _ _; left; reflexivity). }
      destruct (byte_at src e =? term_).
      { destruct (tstart <? e) eqn:T; cbn.
        - apply Z.ltb_lt in T. repeat split; try lia; try discriminate.
        - repeat split; try lia; discriminate. }
      specialize (IH (e + 1)). cbn in IH. destruct IH as (A & B & C & D & F).
      repeat split; try lia; try assumption.
    + apply Z.ltb_ge in E. cbn. repeat split; try lia; discriminate.
Qed.

Lemma regexp_content_spec (src : list Z) (pend term_ tstart : Z) (fuel : nat) (e line : Z) :
  let r := regexp_content src pend term_ tstart fuel e line in
  let x := fst (fst r) in
  let e' := snd (fst r) in
  e <= e' /\ e' <= Z.max e pend
  /\ (x = ExitContent -> e' = e -> byte_at src e = term_ \/ tstart < e)
  /\ (x = ExitEmbexpr -> e' + 2 <= Z.of_nat (length src) /\ e' <= tstart
                         /\ byte_at src e' = ch "#" /\ byte_at src (e' + 1) = ch "{")
  /\ x <> ExitTerminator.
Proof.
  revert e line. induction fuel as [|k IH]; intros e line; cbn.
  - repeat split; try lia; discriminate.
  - destruct (e <? pend) eqn:E.
    + apply Z.ltb_lt in E.
      destruct (byte_at src e =? term_) eqn:T.
      { apply Z.eqb_eq in T. cbn.
        repeat split; try lia; try discriminate; try (intros _ _; left; assumption). }
      destruct ((byte_at src e =? ch "#") && (byte_at src (e + 1) =? ch "{")) eqn:H.
      { apply andb_true_iff in H as [H1 H2]. apply Z.eqb_eq in H1, H2.
        assert (byte_at src (e + 1) <> 0) as Hn by (rewrite H2; discriminate).
        apply byte_at_nonzero in Hn.
        destruct (tstart <? e) eqn:S; cbn.
        - apply Z.ltb_lt in S. repeat split; try lia; try discriminate.
        - apply Z.ltb_ge in S. repeat split; try lia; try discriminate; assumption. }
      specialize (IH (e + 1) (if byte_at src e =? ch "010" then line + 1 else line)).
      cbn in IH. destruct IH as (A & B & C & D & F).
      repeat split; try lia; try assumption; apply D; assumption.
    + apply Z.ltb_ge in E. cbn. repeat split; try lia; discriminate.
Qed.

Lemma string_content_spec (src : list Z) (pend term_ : Z) (interp_ : bool) (tstart : Z)
    (fuel : nat) (e line : Z) :
  let r := string_content src pend term_ interp_ tstart fuel e line in
  let x := fst (fst r) in
  let e' := snd (fst r) in
  e <= e' /\ e' <= Z.max e pend
  /\ (x = ExitContent -> e' = e -> byte_at src e = term_ \/ tstart < e)
  /\ (x = ExitEmbexpr -> e' + 2 <= Z.of_nat (length src) /\ e' <= tstart
                         /\ byte_at src e' = ch "#" /\ byte_at src (e' + 1) = ch "{"
                         /\ interp_ = true)
  /\ x <> ExitTerminator.
Proof.
  revert e line. induction fuel as [|k IH]; intros e line; cbn.
  - repeat split; try lia; discriminate.
  - destruct (e <? pend) eqn:E.
    + apply Z.ltb_lt in E.
      destruct (byte_at src e =? term_) eqn:T.
      { apply Z.eqb_eq in T. cbn.
        repeat split; try lia; try discriminate; try (intros _ _; left; assumption). }
      assert (let r := string_content src pend term_ interp_ tstart k (e + 1)
                         (if byte_at src e =? ch "010" then line + 1 else line) in
              e <= snd (fst r) /\ snd (fst r) <= Z.max e pend
              /\ (fst (fst r) = ExitContent -> snd (fst r) = e ->
                  byte_at src e = term_ \/ tstart < e)
              /\ (fst (fst r) = ExitEmbexpr ->
                  snd (fst r) + 2 <= Z.of_nat (length src) /\ snd (fst r) <= tstart
                  /\ byte_at src (snd (fst r)) = ch "#"
                  /\ byte_at src (snd (fst r) + 1) = ch "{" /\ interp_ = true)
              /\ fst (fst r) <> ExitTerminator) as Next.
      { specialize (IH (e + 1) (if byte_at src e =? ch "010" then line + 1 else line)).
        cbn in IH. destruct IH as (A & B & C & D & F).
        cbn. repeat split; try lia; try assumption; apply D; assumption. }
      destruct (interp_ && (byte_at src e =? ch "#")) eqn:H; [|exact Next].
      apply andb_true_iff in H as [H0 H1]. apply Z.eqb_eq in H1.
      destruct (byte_at src (e + 1) =? ch "@"); [exact Next|].
      destruct (byte_at src (e + 1) =? ch "$"); [exact Next|].
      destruct (byte_at src (e + 1) =? ch "{") eqn:H2; [|exact Next].
      apply Z.eqb_eq in H2.
      assert (byte_at src (e + 1) <> 0) as Hn by (rewrite H2; discriminate).
      apply byte_at_nonzero in Hn.
      destruct (tstart <? e) eqn:S; cbn.
      * apply Z.ltb_lt in S. repeat split; try lia; try discriminate.
      * apply Z.ltb_ge in S. repeat split; try lia; try discriminate; assumption.
    + apply Z.ltb_ge in E. cbn. repeat split; try lia; discriminate.
Qed.

(** ** The literal modes *)

Ltac post_bounds := unfold parser_end, cur in *; cbn in *; try lia.

Lemma lex_embdoc_step (top : yp_lex_mode_t) (p p' : yp_parser_t) (ty : yp_token_type_t) :
  lex_embdoc default_error_handler p = Some (ty, p') -> step_post top p ty p'.
Proof.
  unfold lex_embdoc.
  destruct (strncmp_eq _ _ _ _) eqn:E.
  - strncmp_facts.
    destruct (pop_lex_mode _) as [y|] eqn:Hp; [|discriminate].
    cbn. intros [= <- <-].
    eexists. split; [|split; [|split; [|split; [|apply effect_pop; [exact Hp| |]]]]];
      try (repeat split; fail); post_bounds.
  - pose proof (embdoc_line_spec (source p) (parser_end p) (length (source p)) (cur p))
      as (A & B & C).
    change (S (length (source p))) with (fuel_of (source p)) in *.
    cbn [source set_start set_current cur current end_ parser_end] in *.
    set (e := embdoc_line _ _ _ _) in *. clearbody e.
    unfold parser_end, ret, unrecoverable in *. cbn.
    destruct (e <? Z.of_nat (length (source p))) eqn:L.
    + apply Z.ltb_lt in L. intros [= <- <-].
      eexists. split; [|split; [|split; [|split; [|apply effect_keep; [reflexivity|]]]]];
        try (repeat split; fail); post_bounds.
    + apply Z.ltb_ge in L. intros [= <- <-].
      eexists. split; [|split; [|split; [|split; [|apply effect_keep; [reflexivity|]]]]];
        try (repeat split; fail); post_bounds. left. reflexivity.
Qed.

Ltac post_with tac :=
  eexists; split; [|split; [|split; [|split; [|tac]]]];
  try (repeat split; fail); post_bounds.

Lemma lex_list_step (top : yp_lex_mode_t) (p p' : yp_parser_t) (ty : yp_token_type_t) :
  lex_list default_error_handler top p = Some (ty, p') -> step_post top p ty p'.
Proof.
  unfold lex_list.
  destruct (is_whitespace_char (peek p 0)) eqn:W.
  - assert (byte_at (source p) (cur p) <> 0) as Hn.
    { unfold peek in W. rewrite Z.add_0_r in W.
      eapply class_nonzero; [|exact W]. reflexivity. }
    pose proof (list_separator_spec (source p) (length (source p)) (cur p) (lineno p) Hn)
      as (A & B).
    change (S (length (source p))) with (fuel_of (source p)) in *.
    cbn [source set_start set_current cur current end_ lineno] in *.
    destruct (list_separator _ _ _ _) as [e line]. cbn [fst] in *.
    unfold ret. intros [= <- <-].
    post_with ltac:(apply effect_keep; [reflexivity|]).
  - pose proof (list_word_spec (source p) (parser_end p) (term top) (cur p)
                  (fuel_of (source p)) (cur p)) as (A & B & C & D & F).
    cbn [source set_start set_current cur current end_ start parser_end] in *.
    unfold parser_end in *.
    destruct (list_word _ _ _ _ _ _) as [x e]. cbn [fst snd] in *.
    unfold peek in W. rewrite Z.add_0_r in W.
    destruct x; unfold ret, unrecoverable; cbn [unterminated_list default_error_handler].
    + intros [= <- <-].
      assert (e <> end_ (current p)) as Hne.
      { intros ->. destruct (C eq_refl eq_refl) as [W'|]; [|unfold cur in *; lia].
        unfold cur in *. congruence. }
      post_with ltac:(apply effect_keep; [reflexivity|]).
    + specialize (D eq_refl).
      destruct (pop_lex_mode _) as [y|] eqn:Hp; [|discriminate].
      cbn. intros [= <- <-].
      post_with ltac:(apply effect_pop; [exact Hp| |]).
    + congruence.
    + intros [= <- <-].
      post_with ltac:(apply effect_keep; [reflexivity|]). left. reflexivity.
Qed.

Lemma lex_regexp_step (top : yp_lex_mode_t) (p p' : yp_parser_t) (ty : yp_token_type_t) :
  mode top = YP_LEX_REGEXP ->
  lex_regexp default_error_handler top p = Some (ty, p') -> step_post top p ty p'.
Proof.
  intros Hm. unfold lex_regexp, match_.
  destruct (peek (set_start p (cur p)) 0 =? term top) eqn:T.
  - unfold run_scan.
    pose proof (scan_while_spec is_regexp_option (source p) (fuel_of (source p))
                  (cur p + 1) eq_refl) as (A & B).
    cbn [source set_start set_current cur current end_ advance set_end] in *.
    set (e := scan_while _ _ _ _) in *. clearbody e.
    destruct (pop_lex_mode _) as [y|] eqn:Hp; [|discriminate].
    cbn. intros [= <- <-].
    post_with ltac:(apply effect_pop; [exact Hp| |]). tauto.
  - apply Z.eqb_neq in T. unfold peek in T. cbn in T. rewrite Z.add_0_r in T.
    pose proof (regexp_content_spec (source p) (parser_end p) (term top) (cur p)
                  (fuel_of (source p)) (cur p) (lineno p)) as (A & B & C & D & F).
    cbn [source set_start set_current cur current end_ start parser_end lineno] in *.
    unfold parser_end in *.
    destruct (regexp_content _ _ _ _ _ _ _) as [[x e] line]. cbn [fst snd] in *.
    destruct x; unfold ret, unrecoverable; cbn [unterminated_regexp default_error_handler].
    + intros [= <- <-].
      assert (e <> end_ (current p)) as Hne.
      { intros ->. destruct (C eq_refl eq_refl); unfold cur in *; [congruence|lia]. }
      post_with ltac:(apply effect_keep; [reflexivity|]).
    + congruence.
    + destruct (D eq_refl) as (D1 & D2 & _). intros [= <- <-].
      post_with ltac:(eapply effect_push; [reflexivity| |]).
    + intros [= <- <-].
      post_with ltac:(apply effect_keep; [reflexivity|]). left. reflexivity.
Qed.

Lemma lex_string_step (top : yp_lex_mode_t) (p p' : yp_parser_t) (ty : yp_token_type_t) :
  mode top = YP_LEX_STRING ->
  lex_string default_error_handler top p = Some (ty, p') -> step_post top p ty p'.
Proof.
  intros Hm. unfold lex_string, match_.
  destruct (peek (set_start p (cur p)) 0 =? term top) eqn:T.
  - destruct (pop_lex_mode _) as [y|] eqn:Hp; [|discriminate].
    cbn. intros [= <- <-].
    post_with ltac:(apply effect_pop; [exact Hp| |]). tauto.
  - apply Z.eqb_neq in T. unfold peek in T. cbn in T. rewrite Z.add_0_r in T.
    pose proof (string_content_spec (source p) (parser_end p) (term top) (interp top)
                  (cur p) (fuel_of (source p)) (cur p) (lineno p)) as (A & B & C & D & F).
    cbn [source set_start set_current cur current end_ start parser_end lineno] in *.
    unfold parser_end in *.
    destruct (string_content _ _ _ _ _ _ _ _) as [[x e] line]. cbn [fst snd] in *.
    destruct x; unfold ret, unrecoverable; cbn [unterminated_string default_error_handler].
    + intros [= <- <-].
      assert (e <> end_ (current p)) as Hne.
      { intros ->. destruct (C eq_refl eq_refl); unfold cur in *; [congruence|lia]. }
      post_with ltac:(apply effect_keep; [reflexivity|]).
    + congruence.
    + destruct (D eq_refl) as (D1 & D2 & _). intros [= <- <-].
      post_with ltac:(eapply effect_push; [reflexivity| |]).
    + intros [= <- <-].
      post_with ltac:(apply effect_keep; [reflexivity|]). left. reflexivity.
Qed.

Lemma store_mode_set_current (p : yp_parser_t) (t : yp_token_t) (ptr : lex_mode_ptr)
    (m : yp_lex_mode_tag) :
  store_mode (set_current p t) ptr m = (fun q => set_current q t) <$> store_mode p ptr m.
Proof.
  unfold store_mode. destruct ptr as [i|a|]; cbn; [| |reflexivity].
  - destruct (lex_modes_stack p !! i); reflexivity.
  - destruct (heap p !! a); reflexivity.
Qed.

Lemma pop_lex_mode_set_current (p : yp_parser_t) (t : yp_token_t) :
  pop_lex_mode (set_current p t) = (fun q => set_current q t) <$> pop_lex_mode p.
Proof.
  unfold pop_lex_mode. cbn [lex_modes_index set_current lex_modes_current heap].
  destruct (lex_modes_index p =? 0)%nat; [apply store_mode_set_current|].
  destruct (lex_modes_index p <? YP_LEX_STACK_SIZE)%nat; [reflexivity|].
  change (load (set_current p t) (lex_modes_current p)) with (load p (lex_modes_current p)).
  destruct (load p (lex_modes_current p)); [|reflexivity]. cbn.
  destruct (free (heap p) (lex_modes_current p)); reflexivity.
Qed.

Lemma lex_symbol_step (top : yp_lex_mode_t) (p p' : yp_parser_t) (ty : yp_token_type_t) :
  mode top = YP_LEX_SYMBOL ->
  lex_symbol p = Some (ty, p') -> step_post top p ty p'.
Proof.
  intros Hm. unfold lex_symbol.
  set (p1 := set_start p (cur p)).
  destruct (cur p1 <? parser_end p1) eqn:L.
  - apply Z.ltb_lt in L.
    destruct (is_identifier_start_char (peek p1 0)) eqn:I.
    + destruct (pop_lex_mode (advance p1 1)) as [p2|] eqn:Hp; [|discriminate].
      cbn [mbind option_bind].
      destruct (lex_identifier p2) as [t p3] eqn:E. apply lex_identifier_fwd in E.
      next_match. unfold ret. intros [= <- <-].
      pose proof (fwd_trans _ _ _ E F) as (e & -> & G1 & G2).
      apply pop_lex_mode_tokens in Hp as Ht. destruct Ht as (Hc & _ & Hs & _).
      exists (set_end (advance p1 1) e).
      assert (pop_lex_mode (set_end (advance p1 1) e) = Some (set_end p2 e)) as Hq.
      { unfold set_end at 1. rewrite pop_lex_mode_set_current, Hp. cbn.
        unfold set_end. rewrite Hc. reflexivity. }
      unfold parser_end, cur in *. rewrite Hc, Hs in *. subst p1. clear R E F I. cbn in *.
      split; [repeat split|]. split; [lia|]. split; [lia|]. split; [lia|].
      apply effect_pop; [exact Hq| |]; unfold cur, parser_end; cbn; lia.
    + unfold ret. intros [= <- <-]. subst p1.
      post_with ltac:(apply effect_keep; [reflexivity|]);
        try (right; left; split; [assumption|reflexivity]).
  - apply Z.ltb_ge in L. unfold ret. intros [= <- <-]. subst p1.
    post_with ltac:(apply effect_keep; [reflexivity|]);
      try (right; left; split; [assumption|reflexivity]).
Qed.

(** ** One call of [lex_token_type] *)

Lemma lex_token_type_step (p p' : yp_parser_t) (ty : yp_token_type_t) :
  lex_token_type default_error_handler p = Some (ty, p') ->
  exists top, top_mode p = Some top /\ step_post top p ty p'.
Proof.
  unfold lex_token_type, top_mode.
  destruct (load p (lex_modes_current p)) as [top|]; [|discriminate].
  cbn [mbind option_bind]. intros H. exists top. split; [reflexivity|].
  destruct (mode top) eqn:Hm.
  - apply lex_default_step; assumption.
  - apply lex_embdoc_step; assumption.
  - apply lex_default_step; assumption.
  - apply lex_list_step; assumption.
  - apply lex_regexp_step; assumption.
  - apply lex_string_step; assumption.
  - apply lex_symbol_step; assumption.
Qed.

(** ** One call of [yp_lex_token] *)

Lemma stack_effect_tokens (top : yp_lex_mode_t) (ty : yp_token_type_t)
    (p q p' : yp_parser_t) :
  stack_effect top ty p q p' ->
  current p' = current q /\ previous p' = previous q /\ source p' = source q
  /\ lineno p' = lineno q.
Proof.
  intros [-> _ | m -> _ _ | Hp _ _].
  - repeat split.
  - pose proof (push_lex_mode_tokens q m) as (? & ? & ? & ? & _). repeat split; assumption.
  - apply pop_lex_mode_tokens in Hp as (? & ? & ? & ? & _). repeat split; assumption.
Qed.

Lemma yp_lex_token_step (p p' : yp_parser_t) :
  yp_lex_token default_error_handler p = Some p' ->
  exists top q, top_mode p = Some top
    /\ step_post top (set_previous p (current p)) (type (current p')) q
    /\ p' = set_type q (type (current p')).
Proof.
  unfold yp_lex_token.
  destruct (lex_token_type _ _) as [[ty q]|] eqn:E; [|discriminate].
  cbn [mbind option_bind]. intros [= <-].
  apply lex_token_type_step in E as (top & Ht & Hs).
  exists top, q. split; [exact Ht|]. split; [exact Hs|reflexivity].
Qed.

Lemma yp_lex_token_offsets (p p' : yp_parser_t) :
  yp_lex_token default_error_handler p = Some p' ->
  previous p' = current p /\ source p' = source p
  /\ cur p <= start (current p') /\ start (current p') <= end_ (current p')
  /\ end_ (current p') <= Z.max (cur p) (parser_end p) + 1.
Proof.
  intros H. apply yp_lex_token_step in H as (top & q & _ & (q0 & Hf & A & B & C & He) & ->).
  apply stack_effect_tokens in He as (Hc & Hp & Hs & _).
  destruct Hf as (_ & _ & _ & _ & Hs0 & Hp0).
  unfold cur, parser_end in *. cbn in *. rewrite Hc, Hp, Hs, Hs0, Hp0.
  repeat split; assumption.
Qed.

(** ** The shape of the mode stack is kept *)

Lemma stack_inv_frame (p q : yp_parser_t) : same_frame p q -> stack_inv p -> stack_inv q.
Proof.
  intros (H1 & H2 & H3 & H4 & _). unfold stack_inv, top_mode, load.
  rewrite H1, H2, H3, H4. tauto.
Qed.

Lemma stack_inv_index (p : yp_parser_t) (top : yp_lex_mode_t) :
  stack_inv p -> top_mode p = Some top ->
  (lex_modes_index p < YP_LEX_STACK_SIZE)%nat
  /\ lex_modes_current p = StackSlot (lex_modes_index p)
  /\ (lex_modes_index p = 0%nat -> mode top = YP_LEX_DEFAULT).
Proof.
  intros (_ & H0 & H) Ht.
  destruct (lex_modes_index p <? YP_LEX_STACK_SIZE)%nat eqn:E; [|congruence].
  apply Nat.ltb_lt in E. split; [assumption|]. split; [assumption|].
  intros Hz. unfold top_mode, load in Ht. rewrite H, Hz in Ht.
  rewrite Ht in H0. cbn in H0. congruence.
Qed.

Lemma push_lex_mode_inv (p : yp_parser_t) (m top : yp_lex_mode_t) :
  stack_inv p -> top_mode p = Some top -> stack_inv (push_lex_mode p m).
Proof.
  intros Hi Ht. destruct (stack_inv_index p top Hi Ht) as (Hlt & Hc & _).
  destruct Hi as (Hl & H0 & _). unfold stack_inv, push_lex_mode.
  destruct (YP_LEX_STACK_SIZE - 1 <? S (lex_modes_index p))%nat eqn:E.
  - apply Nat.ltb_lt in E. cbn [lex_modes_stack lex_modes_index set_lex_modes].
    split; [assumption|]. split; [assumption|].
    replace (S (lex_modes_index p) <? YP_LEX_STACK_SIZE)%nat with false
      by (symmetry; apply Nat.ltb_ge; unfold YP_LEX_STACK_SIZE in *; lia).
    unfold top_mode, load. cbn.
    rewrite lookup_app_r by lia. rewrite Nat.sub_diag. reflexivity.
  - apply Nat.ltb_ge in E. cbn [lex_modes_stack lex_modes_index set_lex_modes lex_modes_current].
    split; [rewrite length_insert; assumption|]. split.
    + rewrite list_lookup_insert_ne by lia. assumption.
    + replace (S (lex_modes_index p) <? YP_LEX_STACK_SIZE)%nat with true
        by (symmetry; apply Nat.ltb_lt; unfold YP_LEX_STACK_SIZE in *; lia).
      reflexivity.
Qed.

Lemma pop_lex_mode_inv (p p' : yp_parser_t) (top : yp_lex_mode_t) :
  stack_inv p -> top_mode p = Some top -> pop_lex_mode p = Some p' -> stack_inv p'.
Proof.
  intros Hi Ht. destruct (stack_inv_index p top Hi Ht) as (Hlt & Hc & _).
  destruct Hi as (Hl & H0 & _). unfold pop_lex_mode.
  destruct (lex_modes_index p =? 0)%nat eqn:Ez.
  - apply Nat.eqb_eq in Ez. rewrite Hc, Ez. unfold store_mode.
    destruct (lex_modes_stack p !! 0%nat) as [n|] eqn:E0; [|discriminate].
    cbn [mbind option_bind]. intros [= <-]. unfold stack_inv.
    cbn [lex_modes_stack lex_modes_index set_lex_modes lex_modes_current].
    rewrite Ez, Hc, Ez. split; [rewrite length_insert; assumption|].
    split; [|reflexivity].
    rewrite list_lookup_insert_eq by (apply lookup_lt_Some in E0; assumption).
    reflexivity.
  - apply Nat.ltb_lt in Hlt. rewrite Hlt. intros [= <-]. unfold stack_inv.
    cbn [lex_modes_stack lex_modes_index set_lex_modes lex_modes_current].
    split; [assumption|]. split; [assumption|].
    apply Nat.ltb_lt in Hlt.
    replace (lex_modes_index p - 1 <? YP_LEX_STACK_SIZE)%nat with true
      by (symmetry; apply Nat.ltb_lt; lia).
    reflexivity.
Qed.

Lemma stack_inv_set_type (p : yp_parser_t) (ty : yp_token_type_t) :
  stack_inv p -> stack_inv (set_type p ty).
Proof. intros H. exact H. Qed.

Lemma stack_inv_init (src : list Z) : stack_inv (yp_parser_init src).
Proof. repeat split. Qed.

Lemma top_mode_frame (p q : yp_parser_t) : same_frame p q -> top_mode q = top_mode p.
Proof.
  intros (H1 & H2 & H3 & H4 & _). unfold top_mode, load. rewrite H1, H2, H4. reflexivity.
Qed.

(** ** Every call but an EOF and a stuck symbol decreases the measure *)

Lemma yp_lex_token_measure (p p' : yp_parser_t) :
  stack_inv p -> yp_lex_token default_error_handler p = Some p' ->
  stack_inv p'
  /\ exists top, top_mode p = Some top
     /\ (type (current p') = YP_TOKEN_EOF \/ stuck_symbol top (type (current p'))
         \/ (measure p' < measure p)%nat).
Proof.
  intros Hi H.
  apply yp_lex_token_step in H as (top & q & Ht & (q0 & Hf & A & B & C & He) & ->).
  cbn [type current set_type set_current].
  set (ty := type (current q)) in *. clearbody ty.
  set (p0 := set_previous p (current p)) in *.
  assert (stack_inv q0) as Hi0 by (eapply stack_inv_frame; [exact Hf|exact Hi]).
  assert (top_mode q0 = Some top) as Ht0.
  { rewrite (top_mode_frame _ _ Hf). exact Ht. }
  destruct (stack_inv_index p top Hi Ht) as (_ & _ & Hbase).
  assert (source q0 = source p /\ lex_modes_index q0 = lex_modes_index p) as (Hs & Hx).
  { destruct Hf as (_ & _ & ? & _ & ? & _). split; assumption. }
  destruct He as [-> Hk | m -> Hlt Hin | Hp Hlt Hin].
  - split; [apply stack_inv_set_type; exact Hi0|].
    exists top. split; [exact Ht|].
    destruct Hk as [Hk|[Hk|[Hk1 Hk2]]]; [left; exact Hk|right; left; exact Hk|].
    right. right. unfold measure, parser_end, cur, p0 in *. cbn in *.
    rewrite Hs, Hx. lia.
  - split; [apply stack_inv_set_type; eapply push_lex_mode_inv; eassumption|].
    exists top. split; [exact Ht|]. right. right.
    pose proof (push_lex_mode_tokens q0 m) as (Hc & _ & Hs' & _ & Hx').
    unfold measure, parser_end, cur, p0 in *. cbn in *.
    rewrite Hc, Hs', Hx', Hs, Hx. lia.
  - split; [apply stack_inv_set_type; eapply pop_lex_mode_inv; eassumption|].
    exists top. split; [exact Ht|]. right. right.
    apply pop_lex_mode_tokens in Hp as (Hc & _ & Hs' & _ & Hle & Hdec).
    unfold measure, parser_end, cur, p0 in *. cbn in *.
    rewrite Hc, Hs', Hs. rewrite Hx in *.
    destruct Hin as [Hin|Hin]; [lia|].
    assert (lex_modes_index p <> 0%nat) as Hnz.
    { intros Hz. specialize (Hbase Hz). destruct Hin; congruence. }
    specialize (Hdec Hnz). lia.
Qed.

(** ** Which calls are undefined *)

(** A call is undefined only when the top of the stack cannot be read,
    when a pop fails, or in the [=] case at the start of the buffer. *)











(** ** Runs of calls *)

Lemma lex_n_front (h : yp_error_handler_t) (n : nat) (p : yp_parser_t) :
  lex_n h (S n) p = yp_lex_token h p ≫= lex_n h n.
Proof.
  induction n as [|k IH].
  - cbn. destruct (yp_lex_token h p); reflexivity.
  - change (lex_n h (S (S k)) p) with (lex_n h (S k) p ≫= yp_lex_token h).
    rewrite IH. destruct (yp_lex_token h p); reflexivity.
Qed.

Lemma yp_token_type_t_is_eof (ty : yp_token_type_t) :
  ty = YP_TOKEN_EOF \/ ty <> YP_TOKEN_EOF.
Proof. destruct ty; (left; reflexivity) || (right; discriminate). Qed.


(** ** On the sentinel the default case returns EOF *)

Lemma scan_while_stop (f : Z -> bool) (src : list Z) (fuel : nat) (e : Z) :
  f (byte_at src e) = false -> scan_while f src fuel e = e.
Proof. intros H. destruct fuel; cbn; [reflexivity|]. rewrite H. reflexivity. Qed.

Lemma run_scan_stop (f : Z -> bool) (p : yp_parser_t) :
  f (peek p 0) = false -> run_scan f p = p.
Proof.
  unfold peek, run_scan. rewrite Z.add_0_r. intros H.
  rewrite scan_while_stop by exact H. apply set_end_cur.
Qed.

(** The byte at [parser->end], the sentinel. *)
Lemma byte_at_sentinel (src : list Z) : byte_at src (Z.of_nat (length src)) = 0.
Proof. apply byte_at_past_end. apply Z.le_refl. Qed.

Lemma peek_sentinel (p : yp_parser_t) : cur p = parser_end p -> peek p 0 = 0.
Proof. intros H. unfold peek. rewrite Z.add_0_r, H. apply byte_at_sentinel. Qed.




(** ** Offsets along a run *)

Lemma run_offsets (src : list Z) (n : nat) (p : yp_parser_t) :
  run n src = Some p ->
  source p = src /\ 0 <= start (current p) /\ start (current p) <= end_ (current p)
  /\ stack_inv p.
Proof.
  revert p. induction n as [|k IH]; intros p.
  - intros [= <-]. cbn. split; [reflexivity|]. split; [lia|]. split; [lia|].
    apply stack_inv_init.
  - unfold run in *. cbn [lex_n].
    destruct (lex_n default_error_handler k (yp_parser_init src)) as [q|]; [|discriminate].
    cbn [mbind option_bind]. intros H.
    destruct (IH q eq_refl) as (Hs & H0 & H1 & Hi).
    pose proof (yp_lex_token_measure q p Hi H) as (Hi' & _).
    apply yp_lex_token_offsets in H as (_ & Hs' & A & B & _).
    unfold cur in *. split; [congruence|]. split; [lia|]. split; [lia|]. exact Hi'.
Qed.

(** ** The fuel of the loops is enough *)

(** With [fuel_of] and a cursor that is not negative, no loop stops
    because its fuel is used up: each one ends where the condition of the
    C loop fails, or at a [return] inside it. *)

Lemma fuel_of_enough (src : list Z) (e : Z) :
  0 <= e -> (Z.to_nat (Z.of_nat (length src) - e) < fuel_of src)%nat.
Proof. unfold fuel_of. lia. Qed.

Lemma scan_while_exit (f : Z -> bool) (src : list Z) (fuel : nat) (e : Z) :
  f 0 = false -> (Z.to_nat (Z.of_nat (length src) - e) < fuel)%nat ->
  f (byte_at src (scan_while f src fuel e)) = false.
Proof.
  intros Hf. revert e. induction fuel as [|k IH]; intros e Hk; [lia|].
  cbn. destruct (f (byte_at src e)) eqn:E; [|exact E].
  apply IH.
  assert (byte_at src e <> 0) as Hn by (eapply class_nonzero; eassumption).
  apply byte_at_nonzero in Hn. lia.
Qed.

Lemma lex_digits_exit (f : Z -> bool) (src : list Z) (fuel : nat) (e : Z) :
  f 0 = false -> (Z.to_nat (Z.of_nat (length src) - e) < fuel)%nat ->
  f (byte_at src (lex_digits f src fuel e)) = false.
Proof.
  intros Hf. revert e. induction fuel as [|k IH]; intros e Hk; [lia|].
  cbn. destruct (f (byte_at src e)) eqn:E; [|exact E].
  assert (byte_at src e <> 0) as Hn by (eapply class_nonzero; eassumption).
  apply byte_at_nonzero in Hn.
  apply IH. destruct (byte_at src (e + 1) =? ch "_"); lia.
Qed.

Lemma embdoc_line_exit (src : list Z) (pend : Z) (fuel : nat) (e : Z) :
  (Z.to_nat (pend - e) < fuel)%nat ->
  let e' := embdoc_line src pend fuel e in
  pend <= e' \/ (e < e' /\ byte_at src (e' - 1) = ch "010").
Proof.
  revert e. induction fuel as [|k IH]; intros e Hk; [lia|].
  cbn. destruct (e <? pend) eqn:L; [|apply Z.ltb_ge in L; left; exact L].
  apply Z.ltb_lt in L.
  destruct (byte_at src e =? ch "010") eqn:N; cbn.
  - apply Z.eqb_eq in N. right. split; [lia|]. replace (e + 1 - 1) with e by lia. exact N.
  - destruct (IH (e + 1) ltac:(lia)) as [H|[H1 H2]]; [left; exact H|].
    right. split; [lia|exact H2].
Qed.

Lemma list_separator_exit (src : list Z) (fuel : nat) (e line : Z) :
  byte_at src e <> 0 -> (Z.to_nat (Z.of_nat (length src) - e) <= fuel)%nat ->
  is_whitespace_char (byte_at src (fst (list_separator src (S fuel) e line))) = false.
Proof.
  revert e line. induction fuel as [|k IH]; intros e line Hb Hk;
    pose proof (byte_at_nonzero _ _ Hb) as Hin.
  - lia.
  - cbn [list_separator].
    destruct (is_whitespace_char (byte_at src (e + 1))) eqn:W; [|exact W].
    apply IH; [|lia]. eapply class_nonzero; [|exact W]. reflexivity.
Qed.

Lemma list_word_exit (src : list Z) (pend term_ tstart : Z) (fuel : nat) (e : Z) :
  (Z.to_nat (pend - e) < fuel)%nat ->
  fst (list_word src pend term_ tstart fuel e) = ExitEnd ->
  pend <= snd (list_word src pend term_ tstart fuel e).
Proof.
  revert e. induction fuel as [|k IH]; intros e Hk; [lia|].
  cbn. destruct (e <? pend) eqn:L; [|apply Z.ltb_ge in L; intros _; exact L].
  apply Z.ltb_lt in L.
  destruct (is_whitespace_char (byte_at src e)); [discriminate|].
  destruct (byte_at src e =? term_); [destruct (tstart <? e); discriminate|].
  apply IH. lia.
Qed.

Lemma regexp_content_exit (src : list Z) (pend term_ tstart : Z) (fuel : nat) (e line : Z) :
  (Z.to_nat (pend - e) < fuel)%nat ->
  fst (fst (regexp_content src pend term_ tstart fuel e line)) = ExitEnd ->
  pend <= snd (fst (regexp_content src pend term_ tstart fuel e line)).
Proof.
  revert e line. induction fuel as [|k IH]; intros e line Hk; [lia|].
  cbn. destruct (e <? pend) eqn:L; [|apply Z.ltb_ge in L; intros _; exact L].
  apply Z.ltb_lt in L.
  destruct (byte_at src e =? term_); [discriminate|].
  destruct ((byte_at src e =? ch "#") && (byte_at src (e + 1) =? ch "{"));
    [destruct (tstart <? e); discriminate|].
  apply IH. lia.
Qed.

Lemma string_content_exit (src : list Z) (pend term_ : Z) (interp_ : bool) (tstart : Z)
    (fuel : nat) (e line : Z) :
  (Z.to_nat (pend - e) < fuel)%nat ->
  fst (fst (string_content src pend term_ interp_ tstart fuel e line)) = ExitEnd ->
  pend <= snd (fst (string_content src pend term_ interp_ tstart fuel e line)).
Proof.
  revert e line. induction fuel as [|k IH]; intros e line Hk; [lia|].
  cbn. destruct (e <? pend) eqn:L; [|apply Z.ltb_ge in L; intros _; exact L].
  apply Z.ltb_lt in L.
  destruct (byte_at src e =? term_); [discriminate|].
  destruct (interp_ && (byte_at src e =? ch "#")); [|apply IH; lia].
  destruct (byte_at src (e + 1) =? ch "@"); [apply IH; lia|].
  destruct (byte_at src (e + 1) =? ch "$"); [apply IH; lia|].
  destruct (byte_at src (e + 1) =? ch "{"); [destruct (tstart <? e); discriminate|].
  apply IH. lia.
Qed.

(** ** Pushing inside and past the inline array *)

Lemma push_lex_mode_inline (p : yp_parser_t) (m : yp_lex_mode_t) :
  (S (lex_modes_index p) < YP_LEX_STACK_SIZE)%nat ->
  length (lex_modes_stack p) = YP_LEX_STACK_SIZE ->
  top_mode (push_lex_mode p m)
  = Some {| mode := mode m; term := term m; interp := interp m;
            prev := lex_modes_current p |}.
Proof.
  intros Hi Hl. unfold push_lex_mode.
  replace (YP_LEX_STACK_SIZE - 1 <? S (lex_modes_index p))%nat with false
    by (symmetry; apply Nat.ltb_ge; lia).
  unfold top_mode, load. cbn.
  apply list_lookup_insert_eq. lia.
Qed.

Lemma push_lex_mode_overflow (p : yp_parser_t) (m : yp_lex_mode_t) :
  (YP_LEX_STACK_SIZE - 1 <= lex_modes_index p)%nat ->
  top_mode (push_lex_mode p m) = None.
Proof.
  intros Hi. unfold push_lex_mode.
  replace (YP_LEX_STACK_SIZE - 1 <? S (lex_modes_index p))%nat with true
    by (symmetry; apply Nat.ltb_lt; lia).
  unfold top_mode, load. cbn.
  rewrite lookup_app_r by lia. rewrite Nat.sub_diag. reflexivity.
Qed.

(** * Properties *)

(** ** Concrete token streams *)

(** C2: the double-quoted string with one interpolated identifier,
    ["a#{b}c"] with its quotes (8 bytes, or 9 with the NUL that ends it),
    lexes to STRING_BEGIN, STRING_CONTENT "a", EMBEXPR_BEGIN,
    IDENTIFIER "b", EMBEXPR_END, STRING_CONTENT "c", STRING_END and then
    EOF.  The content before [#{] is emitted first, with the cursor left on
    [#{] and the string mode still on top; the next call consumes the two
    bytes and pushes the embedded-expression mode. *)
Theorem C2_interpolated_string :
  let s := DQ ++ bytes_of_string "a#{b}c" ++ DQ in
  length s = 8%nat
  /\ lex_tokens 8 s =
       [ Some (YP_TOKEN_STRING_BEGIN, 0, 1); Some (YP_TOKEN_STRING_CONTENT, 1, 2);
         Some (YP_TOKEN_EMBEXPR_BEGIN, 2, 4); Some (YP_TOKEN_IDENTIFIER, 4, 5);
         Some (YP_TOKEN_EMBEXPR_END, 5, 6); Some (YP_TOKEN_STRING_CONTENT, 6, 7);
         Some (YP_TOKEN_STRING_END, 7, 8); Some (YP_TOKEN_EOF, 8, 9) ]
  /\ lex_tokens 8 (s ++ [0]) = lex_tokens 8 s
  /\ (cur <$> run 2 s) = Some 2
  /\ (run 2 s ≫= top_tag) = Some YP_LEX_STRING
  /\ (cur <$> run 3 s) = Some 4
  /\ (run 3 s ≫= top_tag) = Some YP_LEX_EMBEXPR
  /\ (run 5 s ≫= top_tag) = Some YP_LEX_STRING
  /\ (run 7 s ≫= top_tag) = Some YP_LEX_DEFAULT.
Proof. vm_compute. repeat split; reflexivity. Qed.

(** C3 (the code departs from it): on the deeply nested interpolation the
    fourth push finds the inline array full.  [push_lex_mode] then points
    [current] at a fresh node and stores nothing in it: the top of the
    stack is not the pushed embedded-expression mode but an unwritten
    node, and the next call of the lexer has no mode to read. *)
Theorem C3_push_past_inline_capacity :
  (lex_modes_index <$> run 5 deep_interpolation) = Some 3%nat
  /\ (run 5 deep_interpolation ≫= top_tag) = Some YP_LEX_STRING
  /\ (type ∘ current <$> run 6 deep_interpolation) = Some YP_TOKEN_EMBEXPR_BEGIN
  /\ (lex_modes_index <$> run 6 deep_interpolation) = Some 4%nat
  /\ (lex_modes_current <$> run 6 deep_interpolation) = Some (HeapNode 0)
  /\ (heap <$> run 6 deep_interpolation) = Some [None]
  /\ (run 6 deep_interpolation ≫= top_mode) = None
  /\ run 7 deep_interpolation = None.
Proof. vm_compute. repeat split; reflexivity. Qed.

(** C5 (the code departs from it): on [:1] the colon pushes the symbol
    mode because a digit is an identifier character; the symbol case then
    rejects the digit, returns INVALID and leaves the symbol mode on top.
    At the end of the buffer every further call returns INVALID without
    consuming anything. *)
Theorem C5_symbol_mode_not_popped_on_invalid :
  let s := bytes_of_string ":1" in
  lex_tokens 4 s =
    [ Some (YP_TOKEN_SYMBOL_BEGIN, 0, 1); Some (YP_TOKEN_INVALID, 1, 2);
      Some (YP_TOKEN_INVALID, 2, 2); Some (YP_TOKEN_INVALID, 2, 2) ]
  /\ (run 1 s ≫= top_tag) = Some YP_LEX_SYMBOL
  /\ (run 2 s ≫= top_tag) = Some YP_LEX_SYMBOL
  /\ (run 3 s ≫= top_tag) = Some YP_LEX_SYMBOL
  /\ (run 4 s ≫= yp_lex_token default_error_handler) = run 4 s.
Proof. vm_compute. repeat split; reflexivity. Qed.

(** C9 (the code departs from it): the newline that ends a comment, the
    newline of the [=begin] opener and the newline of the [=end] closer
    are consumed without a change of [lineno].  After [#a] and a newline
    the line number is still 1; after a newline, [=begin], [=end] (three
    newlines consumed) it is 2. *)
Theorem C9_newlines_not_counted :
  let comment := bytes_of_string "#a" ++ NL in
  let embdoc := NL ++ bytes_of_string "=begin" ++ NL ++ bytes_of_string "=end" ++ NL in
  lex_tokens 2 comment = [ Some (YP_TOKEN_COMMENT, 0, 3); Some (YP_TOKEN_EOF, 3, 4) ]
  /\ (lineno <$> run 0 comment) = Some 1
  /\ (lineno <$> run 1 comment) = Some 1
  /\ lex_tokens 4 embdoc =
       [ Some (YP_TOKEN_NEWLINE, 0, 1); Some (YP_TOKEN_EMBDOC_BEGIN, 1, 8);
         Some (YP_TOKEN_EMBDOC_END, 8, 13); Some (YP_TOKEN_EOF, 13, 14) ]
  /\ (lineno <$> run 1 embdoc) = Some 2
  /\ (lineno <$> run 2 embdoc) = Some 2
  /\ (lineno <$> run 3 embdoc) = Some 2.
Proof. vm_compute. repeat split; reflexivity. Qed.

(** ** Keywords after a dot *)

(** C6, as stated, fails: after [foo.] the keyword [BEGIN] is lexed as a
    CONSTANT (its first byte is an uppercase letter), not as an
    IDENTIFIER, and [defined?] at the end of a buffer is not a keyword. *)
Lemma C6_counterexample :
  lex_tokens 3 (bytes_of_string "foo.BEGIN") =
    [ Some (YP_TOKEN_IDENTIFIER, 0, 3); Some (YP_TOKEN_DOT, 3, 4);
      Some (YP_TOKEN_CONSTANT, 4, 9) ]
  /\ lex_tokens 2 (bytes_of_string "defined?") =
    [ Some (YP_TOKEN_IDENTIFIER, 0, 7); Some (YP_TOKEN_QUESTION_MARK, 7, 8) ].
Proof. vm_compute. split; reflexivity. Qed.

(** [lex_identifier] on the bytes [defined?]. *)

Lemma match_either_test (p : yp_parser_t) (a b : Z) :
  match_either p a b
  = ((peek p 0 =? a) || (peek p 0 =? b),
     if (peek p 0 =? a) || (peek p 0 =? b) then advance p 1 else p).
Proof.
  unfold match_either, match_. destruct (peek p 0 =? a); [reflexivity|].
  destruct (peek p 0 =? b); reflexivity.
Qed.

Lemma scan_while_segment (f : Z -> bool) (src : list Z) (k fuel : nat) (e : Z) :
  (forall i, e <= i < e + Z.of_nat k -> f (byte_at src i) = true) ->
  f (byte_at src (e + Z.of_nat k)) = false -> (k < fuel)%nat ->
  scan_while f src fuel e = e + Z.of_nat k.
Proof.
  revert fuel e. induction k as [|k IH]; intros fuel e Hall Hstop Hk.
  - destruct fuel; [lia|]. cbn [scan_while]. rewrite Z.add_0_r in Hstop.
    rewrite Hstop. lia.
  - destruct fuel; [lia|]. cbn [scan_while]. rewrite (Hall e) by lia.
    rewrite (IH fuel (e + 1)); [lia| |replace (e + 1 + Z.of_nat k) with (e + Z.of_nat (S k)) by lia; exact Hstop|lia].
    intros i Hi. apply Hall. lia.
Qed.

(** The bytes [defined?] from the offset [s] on. *)
Lemma defined_bytes (src : list Z) (s : Z) :
  lexeme_from src 8 s = bytes_of_string "defined?" ->
  byte_at src s = 100 /\ byte_at src (s + 1) = 101 /\ byte_at src (s + 2) = 102
  /\ byte_at src (s + 3) = 105 /\ byte_at src (s + 4) = 110 /\ byte_at src (s + 5) = 101
  /\ byte_at src (s + 6) = 100 /\ byte_at src (s + 7) = 63.
Proof.
  cbn [lexeme_from].
  replace (s + 1 + 1) with (s + 2) by lia. replace (s + 2 + 1) with (s + 3) by lia.
  replace (s + 3 + 1) with (s + 4) by lia. replace (s + 4 + 1) with (s + 5) by lia.
  replace (s + 5 + 1) with (s + 6) by lia. replace (s + 6 + 1) with (s + 7) by lia.
  intros H. vm_compute (bytes_of_string _) in H.
  injection H as H0 H1 H2 H3 H4 H5 H6 H7. repeat split; assumption.
Qed.

Lemma lex_identifier_defined (p : yp_parser_t) :
  let s := start (current p) in
  cur p = s + 1 ->
  lexeme_from (source p) 8 s = bytes_of_string "defined?" ->
  lex_identifier p
  = if (s + 8 <? parser_end p) && negb (byte_at (source p) (s + 8) =? ch "=")
    then (if previous_is_dot p then YP_TOKEN_IDENTIFIER else YP_TOKEN_KEYWORD_DEFINED,
          set_end p (s + 8))
    else (YP_TOKEN_IDENTIFIER, set_end p (s + 7)).
Proof.
  intros s Hc Hb. pose proof Hb as Hlex.
  apply defined_bytes in Hb as (B0 & B1 & B2 & B3 & B4 & B5 & B6 & B7).
  assert (Z.of_nat (length (source p)) > s + 7) as Hlen.
  { assert (byte_at (source p) (s + 7) <> 0) as H by (rewrite B7; discriminate).
    apply byte_at_nonzero in H. lia. }
  assert (0 <= s) as Hs.
  { assert (byte_at (source p) s <> 0) as H by (rewrite B0; discriminate).
    apply byte_at_nonzero in H. lia. }
  assert (run_scan is_identifier_char p = set_end p (s + 7)) as Hscan.
  { unfold run_scan. f_equal. rewrite Hc.
    rewrite (scan_while_segment is_identifier_char (source p) 6 (fuel_of (source p)) (s + 1)).
    - lia.
    - intros i Hi.
      assert (i = s + 1 \/ i = s + 2 \/ i = s + 3 \/ i = s + 4 \/ i = s + 5 \/ i = s + 6)
        as [->|[->|[->|[->|[->| ->]]]]] by lia;
        rewrite ?B1, ?B2, ?B3, ?B4, ?B5, ?B6; reflexivity.
    - replace (s + 1 + Z.of_nat 6) with (s + 7) by lia. rewrite B7. reflexivity.
    - unfold fuel_of. lia. }
  unfold lex_identifier. rewrite Hscan.
  change (cur (set_end p (s + 7))) with (s + 7).
  change (parser_end (set_end p (s + 7))) with (parser_end p).
  change (peek (set_end p (s + 7)) 1) with (byte_at (source p) (s + 7 + 1)).
  change (start (current (set_end p (s + 7)))) with s.
  replace (s + 7 + 1) with (s + 8) by lia.
  replace (s + 7 - s) with 7 by lia.
  destruct ((s + 8 <? parser_end p) && negb (byte_at (source p) (s + 8) =? ch "=")).
  - rewrite match_either_test.
    change (peek (set_end p (s + 7)) 0) with (byte_at (source p) (s + 7 + 0)).
    rewrite Z.add_0_r, B7.
    change ((63 =? ch "!") || (63 =? ch "?")) with true. cbv iota.
    change (previous_is_dot (advance (set_end p (s + 7)) 1)) with (previous_is_dot p).
    assert (advance (set_end p (s + 7)) 1 = set_end p (s + 8)) as ->.
    { unfold advance. change (cur (set_end p (s + 7))) with (s + 7).
      replace (s + 7 + 1) with (s + 8) by lia. reflexivity. }
    assert (KEYWORD (set_end p (s + 8)) (7 + 1) "defined?" 8 = true) as ->.
    { unfold KEYWORD. change (start (current (set_end p (s + 8)))) with s.
      change (source (set_end p (s + 8))) with (source p).
      change (7 + 1 =? 8) with true. cbn [andb].
      vm_compute (bytes_of_string _). vm_compute (Z.to_nat 8).
      cbn [strncmp_eq hd tl].
      replace (s + 1 + 1) with (s + 2) by lia. replace (s + 2 + 1) with (s + 3) by lia.
      replace (s + 3 + 1) with (s + 4) by lia. replace (s + 4 + 1) with (s + 5) by lia.
      replace (s + 5 + 1) with (s + 6) by lia. replace (s + 6 + 1) with (s + 7) by lia.
      rewrite B0, B1, B2, B3, B4, B5, B6, B7. reflexivity. }
    destruct (previous_is_dot p); reflexivity.
  - change (previous_is_dot (set_end p (s + 7))) with (previous_is_dot p).
    assert (first_keyword (set_end p (s + 7)) 7 keywords = None) as -> by reflexivity.
    assert ((if negb (previous_is_dot p) then @None yp_token_type_t else None) = None) as ->
      by (destruct (previous_is_dot p); reflexivity).
    change (source (set_end p (s + 7))) with (source p).
    change (start (current (set_end p (s + 7)))) with s. rewrite B0. reflexivity.
Qed.

Lemma lex_default_defined (top : yp_lex_mode_t) (p : yp_parser_t) :
  let s := cur p in
  lexeme_from (source p) 8 s = bytes_of_string "defined?" ->
  lex_default top p
  = Some (if (s + 8 <? parser_end p) && negb (byte_at (source p) (s + 8) =? ch "=")
          then if (byte_at (source p) (s + 8) =? ch ":")
                  && negb (byte_at (source p) (s + 9) =? ch ":")
               then (YP_TOKEN_LABEL, set_end (set_start p s) (s + 9))
               else (if previous_is_dot p then YP_TOKEN_IDENTIFIER
                     else YP_TOKEN_KEYWORD_DEFINED, set_end (set_start p s) (s + 8))
          else (YP_TOKEN_IDENTIFIER, set_end (set_start p s) (s + 7))).
Proof.
  intros s Hb. pose proof (defined_bytes _ _ Hb) as (B0 & _ & _ & _ & _ & _ & _ & B7).
  assert (peek p 0 = 100) as Hc by (unfold peek; rewrite Z.add_0_r; exact B0).
  unfold lex_default.
  rewrite run_scan_stop by (rewrite Hc; reflexivity).
  change (peek (set_start p (cur p)) 0) with (peek p 0). rewrite Hc.
  fold s. set (p1 := advance (set_start p s) 1).
  repeat match goal with
  | |- context [100 =? ?b] =>
      let v := eval vm_compute in (100 =? b) in change (100 =? b) with v
  end.
  change (is_decimal_number_char 100) with false.
  change (is_identifier_start_char 100) with true.
  cbn [orb negb]. cbv iota.
  rewrite (lex_identifier_defined p1); [|reflexivity|exact Hb].
  change (start (current p1)) with s. change (parser_end p1) with (parser_end p).
  change (source p1) with (source p). change (previous_is_dot p1) with (previous_is_dot p).
  assert (forall e, set_end p1 e = set_end (set_start p s) e) as He by reflexivity.
  rewrite !He.
  destruct ((s + 8 <? parser_end p) && negb (byte_at (source p) (s + 8) =? ch "=")).
  - set (q := set_end (set_start p s) (s + 8)).
    change (peek q 0) with (byte_at (source p) (s + 8 + 0)).
    change (peek q 1) with (byte_at (source p) (s + 8 + 1)).
    rewrite Z.add_0_r. replace (s + 8 + 1) with (s + 9) by lia.
    destruct ((byte_at (source p) (s + 8) =? ch ":")
              && negb (byte_at (source p) (s + 9) =? ch ":")).
    + unfold ret, advance. change (cur q) with (s + 8).
      replace (s + 8 + 1) with (s + 9) by lia. reflexivity.
    + reflexivity.
  - set (q := set_end (set_start p s) (s + 7)).
    change (peek q 0) with (byte_at (source p) (s + 7 + 0)).
    rewrite Z.add_0_r, B7. reflexivity.
Qed.

Lemma yp_lex_token_on_defined (p : yp_parser_t) (top : yp_lex_mode_t) :
  top_mode p = Some top -> code_mode top ->
  lexeme_from (source p) 8 (cur p) = bytes_of_string "defined?" ->
  exists p', yp_lex_token default_error_handler p = Some p'
    /\ previous p' = current p
    /\ start (current p') = cur p
    /\ (type (current p'), end_ (current p'))
       = if (cur p + 8 <? parser_end p) && negb (byte_at (source p) (cur p + 8) =? ch "=")
         then if (byte_at (source p) (cur p + 8) =? ch ":")
                 && negb (byte_at (source p) (cur p + 9) =? ch ":")
              then (YP_TOKEN_LABEL, cur p + 9)
              else (match type (current p) with
                    | YP_TOKEN_DOT => YP_TOKEN_IDENTIFIER
                    | _ => YP_TOKEN_KEYWORD_DEFINED
                    end, cur p + 8)
         else (YP_TOKEN_IDENTIFIER, cur p + 7).
Proof.
  intros Ht Hm Hb.
  pose proof (lex_default_defined top (set_previous p (current p)) Hb) as Hd.
  change (cur (set_previous p (current p))) with (cur p) in Hd.
  change (parser_end (set_previous p (current p))) with (parser_end p) in Hd.
  change (source (set_previous p (current p))) with (source p) in Hd.
  change (previous_is_dot (set_previous p (current p)))
    with (match type (current p) with YP_TOKEN_DOT => true | _ => false end) in Hd.
  assert (yp_lex_token default_error_handler p
          = '(ty, q) ← lex_default top (set_previous p (current p)); Some (set_type q ty)) as Hy.
  { unfold yp_lex_token, lex_token_type.
    change (load (set_previous p (current p)) (lex_modes_current (set_previous p (current p))))
      with (top_mode p).
    rewrite Ht. cbn [mbind option_bind].
    destruct Hm as [-> | ->]; destruct (lex_default _ _) as [[ty q]|]; reflexivity. }
  rewrite Hy, Hd. clear Hy Hd.
  destruct ((cur p + 8 <? parser_end p)
            && negb (byte_at (source p) (cur p + 8) =? ch "="));
    [destruct ((byte_at (source p) (cur p + 8) =? ch ":")
               && negb (byte_at (source p) (cur p + 9) =? ch ":"))|];
    (eexists; split; [reflexivity|]; split; [reflexivity|]; split; [reflexivity|]).
  - reflexivity.
  - cbn. destruct (type (current p)); reflexivity.
  - reflexivity.
Qed.

(** C6, amended: every keyword [K] of the [KEYWORD] table lexes alone to
    its keyword token, and after [foo.] to a token with the lexeme [K]
    that is an IDENTIFIER, or a CONSTANT when [K] begins with an uppercase
    letter, which is the case of [BEGIN] and [END] only.  For the bytes
    [defined?] at the cursor, in the default or the embedded-expression
    mode: when a byte other than [=] follows the [?] inside the buffer,
    the token is KEYWORD_DEFINED, or IDENTIFIER after a DOT, with the
    lexeme [defined?], unless that byte is a [:] that no second [:]
    follows, which makes the token a LABEL of nine bytes; when the [?] is
    the last byte of the buffer or [=] follows it, the token is the
    IDENTIFIER [defined], which ends before the [?]. *)
Theorem C6_keywords_after_dot :
  Forall (fun '(K, size, token) =>
      lex_tokens 2 (bytes_of_string K) =
        [ Some (token, 0, size); Some (YP_TOKEN_EOF, size, size + 1) ]
      /\ lex_tokens 4 (bytes_of_string "foo." ++ bytes_of_string K) =
        [ Some (YP_TOKEN_IDENTIFIER, 0, 3); Some (YP_TOKEN_DOT, 3, 4);
          Some (if starts_upcase K then YP_TOKEN_CONSTANT else YP_TOKEN_IDENTIFIER,
                4, 4 + size);
          Some (YP_TOKEN_EOF, 4 + size, 5 + size) ])
    keywords
  /\ filter (fun K => starts_upcase K = true) (map (fun k => fst (fst k)) keywords)
     = ["BEGIN"%string; "END"%string]
  /\ lex_tokens 2 (bytes_of_string "defined?" ++ NL) =
       [ Some (YP_TOKEN_KEYWORD_DEFINED, 0, 8); Some (YP_TOKEN_NEWLINE, 8, 9) ]
  /\ lex_tokens 2 (bytes_of_string "defined?(x)") =
       [ Some (YP_TOKEN_KEYWORD_DEFINED, 0, 8); Some (YP_TOKEN_PARENTHESIS_LEFT, 8, 9) ]
  /\ lex_tokens 4 (bytes_of_string "foo.defined?" ++ NL) =
       [ Some (YP_TOKEN_IDENTIFIER, 0, 3); Some (YP_TOKEN_DOT, 3, 4);
         Some (YP_TOKEN_IDENTIFIER, 4, 12); Some (YP_TOKEN_NEWLINE, 12, 13) ]
  /\ (forall (p : yp_parser_t) (top : yp_lex_mode_t),
        top_mode p = Some top -> code_mode top ->
        lexeme_from (source p) 8 (cur p) = bytes_of_string "defined?" ->
        exists p', yp_lex_token default_error_handler p = Some p'
          /\ previous p' = current p
          /\ start (current p') = cur p
          /\ (type (current p'), end_ (current p'))
             = if (cur p + 8 <? parser_end p)
                  && negb (byte_at (source p) (cur p + 8) =? ch "=")
               then if (byte_at (source p) (cur p + 8) =? ch ":")
                       && negb (byte_at (source p) (cur p + 9) =? ch ":")
                    then (YP_TOKEN_LABEL, cur p + 9)
                    else (match type (current p) with
                          | YP_TOKEN_DOT => YP_TOKEN_IDENTIFIER
                          | _ => YP_TOKEN_KEYWORD_DEFINED
                          end, cur p + 8)
               else (YP_TOKEN_IDENTIFIER, cur p + 7)).
Proof.
  split; [|split; [|split; [|split; [|split]]]].
  - unfold keywords. repeat (apply List.Forall_cons; [vm_compute; split; reflexivity|]).
    apply List.Forall_nil.
  - vm_compute. reflexivity.
  - vm_compute. reflexivity.
  - vm_compute. reflexivity.
  - vm_compute. reflexivity.
  - apply yp_lex_token_on_defined.
Qed.

(** [defined?] after a dot and before a parenthesis, and before [=]. *)
Lemma C6_keywords_after_dot_witness :
  let p := state_after 2 (bytes_of_string "x.defined?(") in
  let q := yp_parser_init (bytes_of_string "defined?=") in
  let top := lex_mode_lit YP_LEX_DEFAULT 0 false in
  (top_mode p = Some top /\ code_mode top
   /\ lexeme_from (source p) 8 (cur p) = bytes_of_string "defined?"
   /\ type (current p) = YP_TOKEN_DOT
   /\ exists p', yp_lex_token default_error_handler p = Some p'
        /\ (type (current p'), start (current p'), end_ (current p'))
           = (YP_TOKEN_IDENTIFIER, 2, 10))
  /\ (top_mode q = Some top
      /\ lexeme_from (source q) 8 (cur q) = bytes_of_string "defined?"
      /\ exists q', yp_lex_token default_error_handler q = Some q'
           /\ (type (current q'), start (current q'), end_ (current q'))
              = (YP_TOKEN_IDENTIFIER, 0, 7)).
Proof.
  intros p q top.
  destruct C6_keywords_after_dot as (_ & _ & _ & _ & _ & Defined).
  assert (top_mode p = Some top) as T1 by (vm_compute; reflexivity).
  assert (top_mode q = Some top) as T2 by (vm_compute; reflexivity).
  assert (code_mode top) as M by (left; reflexivity).
  assert (lexeme_from (source p) 8 (cur p) = bytes_of_string "defined?") as L1
    by (vm_compute; reflexivity).
  assert (lexeme_from (source q) 8 (cur q) = bytes_of_string "defined?") as L2
    by (vm_compute; reflexivity).
  split.
  - split; [exact T1|]. split; [exact M|]. split; [exact L1|].
    split; [vm_compute; reflexivity|].
    destruct (Defined p top T1 M L1) as (p' & H & _ & Hs & He).
    exists p'. split; [exact H|].
    match type of He with
    | _ = ?r =>
        assert (r = (YP_TOKEN_IDENTIFIER, 10)) as Hr by (vm_compute; reflexivity);
        rewrite Hr in He
    end.
    apply pair_equal_spec in He as [Hty Hend]. rewrite Hty, Hs, Hend.
    vm_compute. reflexivity.
  - split; [exact T2|]. split; [exact L2|].
    destruct (Defined q top T2 M L2) as (q' & H & _ & Hs & He).
    exists q'. split; [exact H|].
    match type of He with
    | _ = ?r =>
        assert (r = (YP_TOKEN_IDENTIFIER, 7)) as Hr by (vm_compute; reflexivity);
        rewrite Hr in He
    end.
    apply pair_equal_spec in He as [Hty Hend]. rewrite Hty, Hs, Hend.
    vm_compute. reflexivity.
Defined.

(** ** Termination of the token stream (C1) *)



(** ** Token offsets (C8) *)



(** ** Numeric suffixes (C7) *)

Lemma peek_advance (p : yp_parser_t) (k j : Z) : peek (advance p k) j = peek p (k + j).
Proof. unfold peek, advance. cbn. f_equal. lia. Qed.

Lemma advance_advance (p : yp_parser_t) (j k : Z) :
  advance (advance p j) k = advance p (j + k).
Proof. unfold advance, set_end. cbn. do 2 f_equal. unfold cur. lia. Qed.

(** C7, as stated, fails: in [2ir] the [r] is not part of the numeric
    token; it is lexed on its own, as an identifier. *)
Lemma C7_counterexample :
  lex_tokens 3 (bytes_of_string "2ir") =
    [ Some (YP_TOKEN_IMAGINARY_NUMBER, 0, 2); Some (YP_TOKEN_IDENTIFIER, 2, 3);
      Some (YP_TOKEN_EOF, 3, 4) ].
Proof. vm_compute. reflexivity. Qed.

(** C7, amended: after a valid numeric prefix an [r] makes the token a
    RATIONAL_NUMBER and an [i] makes it an IMAGINARY_NUMBER; the two
    compose in the order [r] then [i] only, and at most one of each is
    consumed.  [2ri] is one token; in [2ir], [2rr] and [2ii] the second
    letter is left for the next token. *)
Theorem C7_numeric_suffixes :
  (forall (p p1 : yp_parser_t) (ty : yp_token_type_t),
     lex_numeric_prefix p = (ty, p1) -> ty <> YP_TOKEN_INVALID ->
     lex_numeric p =
       if peek p1 0 =? ch "r" then
         if peek p1 1 =? ch "i" then (YP_TOKEN_IMAGINARY_NUMBER, advance p1 2)
         else (YP_TOKEN_RATIONAL_NUMBER, advance p1 1)
       else if peek p1 0 =? ch "i" then (YP_TOKEN_IMAGINARY_NUMBER, advance p1 1)
       else (ty, p1))
  /\ lex_tokens 2 (bytes_of_string "2r") =
       [ Some (YP_TOKEN_RATIONAL_NUMBER, 0, 2); Some (YP_TOKEN_EOF, 2, 3) ]
  /\ lex_tokens 2 (bytes_of_string "3i") =
       [ Some (YP_TOKEN_IMAGINARY_NUMBER, 0, 2); Some (YP_TOKEN_EOF, 2, 3) ]
  /\ lex_tokens 2 (bytes_of_string "2ri") =
       [ Some (YP_TOKEN_IMAGINARY_NUMBER, 0, 3); Some (YP_TOKEN_EOF, 3, 4) ]
  /\ lex_tokens 2 (bytes_of_string "2ir") =
       [ Some (YP_TOKEN_IMAGINARY_NUMBER, 0, 2); Some (YP_TOKEN_IDENTIFIER, 2, 3) ]
  /\ lex_tokens 2 (bytes_of_string "2rr") =
       [ Some (YP_TOKEN_RATIONAL_NUMBER, 0, 2); Some (YP_TOKEN_IDENTIFIER, 2, 3) ]
  /\ lex_tokens 2 (bytes_of_string "2ii") =
       [ Some (YP_TOKEN_IMAGINARY_NUMBER, 0, 2); Some (YP_TOKEN_IDENTIFIER, 2, 3) ].
Proof.
  split; [|vm_compute; repeat split; reflexivity].
  intros p p1 ty Hp Hv. unfold lex_numeric. rewrite Hp.
  set (suffixes :=
         let '(r, q) := match_ p1 (ch "r") in
         let ty0 := if r then YP_TOKEN_RATIONAL_NUMBER else ty in
         let '(i, q0) := match_ q (ch "i") in
         let ty1 := if i then YP_TOKEN_IMAGINARY_NUMBER else ty0 in (ty1, q0)).
  transitivity suffixes; [destruct ty; try reflexivity; congruence|].
  unfold suffixes, match_.
  destruct (peek p1 0 =? ch "r") eqn:R.
  - rewrite peek_advance. change (1 + 0) with 1.
    destruct (peek p1 1 =? ch "i"); [|reflexivity].
    rewrite advance_advance. reflexivity.
  - destruct (peek p1 0 =? ch "i"); reflexivity.
Qed.

(** The parser in the middle of [2ri], after its first digit. *)
Lemma C7_numeric_suffixes_witness :
  let p := advance (yp_parser_init (bytes_of_string "2ri")) 1 in
  lex_numeric_prefix p = (YP_TOKEN_INTEGER, p)
  /\ YP_TOKEN_INTEGER <> YP_TOKEN_INVALID
  /\ lex_numeric p = (YP_TOKEN_IMAGINARY_NUMBER, advance p 2).
Proof.
  intro p.
  assert (lex_numeric_prefix p = (YP_TOKEN_INTEGER, p)) as H by (vm_compute; reflexivity).
  split; [exact H|]. split; [discriminate|].
  rewrite (proj1 C7_numeric_suffixes p p YP_TOKEN_INTEGER H ltac:(discriminate)).
  vm_compute. reflexivity.
Defined.

(** ** The last line of an embedded document (C10) *)

Lemma embdoc_line_to_newline (src : list Z) (pend : Z) (fuel : nat) (e k : Z) :
  (forall i, e <= i < k -> byte_at src i <> ch "010") ->
  byte_at src k = ch "010" -> e <= k < pend -> (Z.to_nat (k - e) < fuel)%nat ->
  embdoc_line src pend fuel e = k + 1.
Proof.
  revert e. induction fuel as [|f IH]; intros e Hb Hk He Hf; [lia|].
  cbn. replace (e <? pend) with true by (symmetry; apply Z.ltb_lt; lia).
  destruct (Z.eq_dec e k) as [->|Hne].
  - rewrite Hk. rewrite Z.eqb_refl. reflexivity.
  - assert (byte_at src e <> ch "010") as Hn by (apply Hb; lia).
    apply Z.eqb_neq in Hn. rewrite Hn. cbn.
    apply IH; [intros i Hi; apply Hb; lia|assumption|lia|lia].
Qed.

(** C10: in the embdoc mode, when the line under the cursor is not the
    [=end] line and its newline is the last byte of the buffer, the call
    consumes the line up to the end of the buffer, hands the parser to the
    [unterminated_embdoc] handler instead of returning EMBDOC_LINE, and
    leaves [lineno] as it was; with the default handler the call returns
    EOF. *)
Theorem C10_embdoc_last_line (h : yp_error_handler_t) (p : yp_parser_t)
    (top : yp_lex_mode_t) :
  top_mode p = Some top -> mode top = YP_LEX_EMBDOC ->
  strncmp_eq (source p) (cur p) (bytes_of_string "=end" ++ NL) 5 = false ->
  0 <= cur p < parser_end p ->
  byte_at (source p) (parser_end p - 1) = ch "010" ->
  (forall i, cur p <= i < parser_end p - 1 -> byte_at (source p) i <> ch "010") ->
  let q := set_end (set_start p (cur p)) (parser_end p) in
  lex_token_type h p = Some (unterminated_embdoc h q)
  /\ lineno q = lineno p
  /\ lex_token_type default_error_handler p = Some (YP_TOKEN_EOF, q).
Proof.
  intros Ht Hm Hs Hc Hnl Hline q.
  assert (forall h', lex_token_type h' p = Some (unterminated_embdoc h' q)) as H.
  { intros h'. unfold lex_token_type. unfold top_mode in Ht. rewrite Ht.
    cbn [mbind option_bind]. rewrite Hm. unfold lex_embdoc.
    cbn [source set_start set_current cur current end_].
    fold (cur p). change NL with [ch "010"] in Hs. rewrite Hs.
    change (parser_end (set_start p (cur p))) with (parser_end p).
    rewrite (embdoc_line_to_newline (source p) (parser_end p) (fuel_of (source p))
               (cur p) (parser_end p - 1) Hline Hnl ltac:(lia)
               ltac:(unfold fuel_of, parser_end in *; lia)).
    replace (parser_end p - 1 + 1) with (parser_end p) by lia.
    change (cur (set_end (set_start p (cur p)) (parser_end p))) with (parser_end p).
    change (parser_end (set_end (set_start p (cur p)) (parser_end p))) with (parser_end p).
    rewrite Z.ltb_irrefl. reflexivity. }
  split; [apply H|]. split; [reflexivity|]. apply (H default_error_handler).
Qed.

(** The embedded document whose body [doc] ends the buffer: the third
    call returns EOF over the line, and the line is lost. *)
Lemma C10_embdoc_last_line_witness :
  let s := NL ++ bytes_of_string "=begin" ++ NL ++ bytes_of_string "doc" ++ NL in
  let p := state_after 2 s in
  let top := {| mode := YP_LEX_EMBDOC; term := 0; interp := false; prev := StackSlot 0 |} in
  let q := set_end (set_start p (cur p)) (parser_end p) in
  (top_mode p = Some top /\ cur p = 8 /\ parser_end p = 12
   /\ strncmp_eq (source p) (cur p) (bytes_of_string "=end" ++ NL) 5 = false
   /\ byte_at (source p) (parser_end p - 1) = ch "010")
  /\ lex_token_type default_error_handler p = Some (unterminated_embdoc default_error_handler q)
  /\ lineno q = lineno p
  /\ lex_token_type default_error_handler p = Some (YP_TOKEN_EOF, q).
Proof.
  intros s p top q.
  assert (top_mode p = Some top) as Ht by (vm_compute; reflexivity).
  assert (cur p = 8) as Hc by (vm_compute; reflexivity).
  assert (parser_end p = 12) as He by (vm_compute; reflexivity).
  assert (strncmp_eq (source p) (cur p) (bytes_of_string "=end" ++ NL) 5 = false) as Hs
    by (vm_compute; reflexivity).
  assert (byte_at (source p) (parser_end p - 1) = ch "010") as Hn
    by (vm_compute; reflexivity).
  assert (0 <= cur p < parser_end p) as Hin by (rewrite Hc, He; lia).
  assert (forall i, cur p <= i < parser_end p - 1 -> byte_at (source p) i <> ch "010")
    as Hline.
  { rewrite Hc, He. intros i Hi.
    assert (i = 8 \/ i = 9 \/ i = 10) as [-> | [-> | ->]] by lia;
      vm_compute; discriminate. }
  split; [repeat split; assumption|].
  exact (C10_embdoc_last_line default_error_handler p top Ht eq_refl Hs Hin Hn Hline).
Defined.

(** ** The interpolation flag (C4) *)

Lemma set_lineno_same (p : yp_parser_t) : set_lineno p (lineno p) = p.
Proof. destruct p. reflexivity. Qed.





(** What opens an embedded expression, and [#] before another byte. *)







(** ** The theorems at concrete inputs *)




(** * Further properties of the lexer *)

(** ** Character classes *)

(** Replace the character literals of the goal and the context by their
    codes. *)
Ltac char_codes :=
  repeat match goal with
  | |- context [ch ?a] => let v := eval vm_compute in (ch a) in change (ch a) with v
  | H : context [ch ?a] |- _ => let v := eval vm_compute in (ch a) in change (ch a) with v in H
  end.

Ltac bool_facts :=
  repeat match goal with
  | H : (_ && _) = true |- _ => apply andb_true_iff in H as [? ?]
  | H : (_ || _) = true |- _ => apply orb_true_iff in H as [?|?]
  | H : (_ <=? _) = true |- _ => apply Z.leb_le in H
  | H : (_ =? _) = true |- _ => apply Z.eqb_eq in H
  | H : (_ && _) = false |- _ => apply andb_false_iff in H as [?|?]
  | H : (_ || _) = false |- _ => apply orb_false_iff in H as [? ?]
  | H : (_ <=? _) = false |- _ => apply Z.leb_gt in H
  | H : (_ =? _) = false |- _ => apply Z.eqb_neq in H
  end.

(** Decide a character class on a byte known by bounds. *)
Ltac class_by_bounds :=
  unfold is_whitespace_char, is_non_newline_whitespace_char, is_identifier_char,
    is_identifier_start_char, is_hexadecimal_number_char, is_decimal_number_char,
    is_octal_number_char, is_binary_number_char in *;
  char_codes; bool_facts;
  repeat match goal with
  | |- (_ || _) = true => apply orb_true_iff
  | |- (_ && _) = true => apply andb_true_iff; split
  | |- (_ || _) = false => apply orb_false_iff; split
  | |- (_ <=? _) = true => apply Z.leb_le
  | |- (_ =? _) = true => apply Z.eqb_eq
  | |- (_ =? _) = false => apply Z.eqb_neq
  | |- (_ && _) = false =>
      apply andb_false_iff; rewrite !Z.leb_gt
  end;
  try lia.

(** X1: the digit classes are nested (binary, octal, decimal,
    hexadecimal); a digit and an identifier start are identifier
    characters; no whitespace byte is an identifier character; and every
    class rejects NUL and every byte outside ASCII. *)
Theorem character_classes (c : Z) :
  (is_binary_number_char c = true -> is_octal_number_char c = true)
  /\ (is_octal_number_char c = true -> is_decimal_number_char c = true)
  /\ (is_decimal_number_char c = true -> is_hexadecimal_number_char c = true)
  /\ (is_decimal_number_char c = true -> is_identifier_char c = true)
  /\ (is_identifier_start_char c = true -> is_identifier_char c = true)
  /\ (is_identifier_start_char c = true -> is_decimal_number_char c = false)
  /\ (is_whitespace_char c = true -> is_identifier_char c = false)
  /\ (c <= 0 \/ 127 < c ->
      is_hexadecimal_number_char c = false /\ is_identifier_char c = false
      /\ is_whitespace_char c = false).
Proof.
  split; [intros H; class_by_bounds|].
  split; [intros H; class_by_bounds|].
  split; [intros H; class_by_bounds; left; left; split; apply Z.leb_le; lia|].
  split; [intros H; class_by_bounds; right; split; apply Z.leb_le; lia|].
  split; [intros H; unfold is_identifier_char; rewrite H; reflexivity|].
  split; [intros H; class_by_bounds|].
  split; [intros H; class_by_bounds|].
  intros H. split; [|split]; class_by_bounds.
Qed.

Lemma character_classes_witness :
  is_binary_number_char (ch "1") = true /\ is_identifier_char (ch "1") = true.
Proof.
  split; [reflexivity|].
  destruct (character_classes (ch "1")) as (_ & _ & _ & H & _).
  apply H. reflexivity.
Defined.

(** ** The mode stack *)

Lemma set_lex_modes_same (p : yp_parser_t) :
  set_lex_modes p (lex_modes_current p) (lex_modes_stack p) (lex_modes_index p) (heap p) = p.
Proof. destruct p. reflexivity. Qed.

(** X2: inside the inline array a pop undoes a push: the pointer, the
    index, the mode on top, the modes below and the heap are those from
    before, and neither token is touched.  The push that leaves the inline
    array cannot be popped: the link to the mode below was never stored. *)
Theorem pop_after_push (p : yp_parser_t) (m : yp_lex_mode_t) :
  stack_inv p -> (lex_modes_index p < YP_LEX_STACK_SIZE)%nat ->
  if (S (lex_modes_index p) <? YP_LEX_STACK_SIZE)%nat then
    exists p', pop_lex_mode (push_lex_mode p m) = Some p'
      /\ lex_modes_current p' = lex_modes_current p
      /\ lex_modes_index p' = lex_modes_index p
      /\ top_mode p' = top_mode p
      /\ (forall i, (i <= lex_modes_index p)%nat ->
            lex_modes_stack p' !! i = lex_modes_stack p !! i)
      /\ heap p' = heap p /\ current p' = current p /\ previous p' = previous p
      /\ lineno p' = lineno p
  else pop_lex_mode (push_lex_mode p m) = None.
Proof.
  intros (Hl & H0 & Hc) Hx.
  pose proof Hx as Hx'. apply Nat.ltb_lt in Hx'. rewrite Hx' in Hc.
  unfold push_lex_mode, pop_lex_mode.
  destruct (S (lex_modes_index p) <? YP_LEX_STACK_SIZE)%nat eqn:E.
  - apply Nat.ltb_lt in E.
    replace (YP_LEX_STACK_SIZE - 1 <? S (lex_modes_index p))%nat with false
      by (symmetry; apply Nat.ltb_ge; lia).
    cbn [lex_modes_index set_lex_modes Nat.eqb].
    apply Nat.ltb_lt in E. rewrite E. eexists. split; [reflexivity|].
    cbn [lex_modes_index lex_modes_current lex_modes_stack heap current previous lineno
         set_lex_modes].
    rewrite ?Nat.sub_succ, ?Nat.sub_0_r.
    split; [symmetry; exact Hc|]. split; [reflexivity|].
    split; [|split; [|repeat split]].
    + unfold top_mode, load.
      cbn [lex_modes_index lex_modes_current lex_modes_stack heap set_lex_modes].
      rewrite Hc. apply list_lookup_insert_ne. lia.
    + intros i Hi. apply list_lookup_insert_ne. lia.
  - apply Nat.ltb_ge in E.
    replace (YP_LEX_STACK_SIZE - 1 <? S (lex_modes_index p))%nat with true
      by (symmetry; apply Nat.ltb_lt; unfold YP_LEX_STACK_SIZE in *; lia).
    cbn [lex_modes_index set_lex_modes Nat.eqb lex_modes_current].
    replace (S (lex_modes_index p) <? YP_LEX_STACK_SIZE)%nat with false
      by (symmetry; apply Nat.ltb_ge; lia).
    unfold load. cbn [heap set_lex_modes].
    rewrite lookup_app_r by lia. rewrite Nat.sub_diag. reflexivity.
Qed.

Lemma pop_after_push_witness :
  exists p', pop_lex_mode (push_lex_mode (yp_parser_init [])
                             (lex_mode_lit YP_LEX_STRING (ch "034") true)) = Some p'
    /\ top_mode p' = top_mode (yp_parser_init []).
Proof.
  pose proof (pop_after_push (yp_parser_init [])
                (lex_mode_lit YP_LEX_STRING (ch "034") true)) as H.
  destruct H as (p' & H1 & _ & _ & H2 & _).
  - repeat split.
  - unfold YP_LEX_STACK_SIZE. cbn. lia.
  - exists p'. split; assumption.
Defined.

(** X3: a pop at the bottom of the stack changes nothing: the base mode
    is rewritten with the default mode it already has, and the index stays
    at zero. *)
Theorem pop_at_base (p : yp_parser_t) :
  stack_inv p -> lex_modes_index p = 0%nat -> pop_lex_mode p = Some p.
Proof.
  intros (Hl & H0 & Hc) Hz. rewrite Hz in Hc. cbn in Hc.
  unfold pop_lex_mode. rewrite Hz. cbn [Nat.eqb]. rewrite Hc. unfold store_mode.
  destruct (lex_modes_stack p !! 0%nat) as [n|] eqn:E; [|discriminate].
  cbn [mbind option_bind]. cbn in H0. injection H0 as H0.
  replace {| mode := YP_LEX_DEFAULT; term := term n; interp := interp n; prev := prev n |}
    with n by (destruct n; cbn in *; congruence).
  rewrite list_insert_id by exact E.
  rewrite set_lex_modes_same. reflexivity.
Qed.

Lemma pop_at_base_witness :
  pop_lex_mode (yp_parser_init (bytes_of_string "a")) = Some (yp_parser_init (bytes_of_string "a")).
Proof.
  apply (pop_at_base (yp_parser_init (bytes_of_string "a"))).
  - repeat split.
  - reflexivity.
Defined.

(** *** The heap along a run *)

Lemma push_lex_mode_heap (p : yp_parser_t) (m : yp_lex_mode_t) :
  heap_inv p -> (lex_modes_index p < YP_LEX_STACK_SIZE)%nat -> heap_inv (push_lex_mode p m).
Proof.
  intros [(_ & Hh)|(Hx & _)] Hlt; [|lia].
  unfold heap_inv, push_lex_mode.
  destruct (YP_LEX_STACK_SIZE - 1 <? S (lex_modes_index p))%nat eqn:E.
  - apply Nat.ltb_lt in E. right. cbn. rewrite Hh. cbn.
    repeat split. unfold YP_LEX_STACK_SIZE in *. lia.
  - apply Nat.ltb_ge in E. left. cbn. split; [unfold YP_LEX_STACK_SIZE in *; lia|exact Hh].
Qed.

Lemma pop_lex_mode_heap (p p' : yp_parser_t) :
  stack_inv p -> heap_inv p -> (lex_modes_index p < YP_LEX_STACK_SIZE)%nat ->
  pop_lex_mode p = Some p' -> heap_inv p'.
Proof.
  intros (_ & _ & Hc) [(_ & Hh)|(Hx & _)] Hlt; [|lia].
  pose proof Hlt as Hb. apply Nat.ltb_lt in Hb. rewrite Hb in Hc.
  unfold pop_lex_mode. rewrite Hb, Hc.
  destruct (lex_modes_index p =? 0)%nat.
  - unfold store_mode. destruct (lex_modes_stack p !! lex_modes_index p); [|discriminate].
    cbn [mbind option_bind]. intros [= <-]. left. cbn. split; assumption.
  - intros [= <-]. left. cbn. split; [lia|assumption].
Qed.

Lemma heap_inv_frame (p q : yp_parser_t) : same_frame p q -> heap_inv p -> heap_inv q.
Proof.
  intros (H1 & H2 & H3 & H4 & _). unfold heap_inv. rewrite H1, H3, H4. tauto.
Qed.

Lemma yp_lex_token_heap (p p' : yp_parser_t) :
  stack_inv p -> heap_inv p -> yp_lex_token default_error_handler p = Some p' ->
  heap_inv p'.
Proof.
  intros Hi Hh H.
  apply yp_lex_token_step in H as (top & q & Ht & (q0 & Hf & _ & _ & _ & He) & ->).
  destruct (stack_inv_index p top Hi Ht) as (Hlt & _).
  assert (stack_inv q0) as Hi0 by (eapply stack_inv_frame; [exact Hf|exact Hi]).
  assert (heap_inv q0) as Hh0 by (eapply heap_inv_frame; [exact Hf|exact Hh]).
  assert (lex_modes_index q0 < YP_LEX_STACK_SIZE)%nat as Hlt0.
  { destruct Hf as (_ & _ & -> & _). exact Hlt. }
  change (heap_inv q).
  destruct He as [-> _ | m -> _ _ | Hp _ _].
  - exact Hh0.
  - apply push_lex_mode_heap; assumption.
  - eapply pop_lex_mode_heap; eassumption.
Qed.

Lemma yp_lex_token_top (h : yp_error_handler_t) (p : yp_parser_t) :
  top_mode p = None -> yp_lex_token h p = None.
Proof.
  intros H. unfold yp_lex_token, lex_token_type.
  change (load (set_previous p (current p))
            (lex_modes_current (set_previous p (current p)))) with (top_mode p).
  rewrite H. reflexivity.
Qed.

Lemma run_invariants (n : nat) (src : list Z) (p : yp_parser_t) :
  run n src = Some p -> stack_inv p /\ heap_inv p.
Proof.
  unfold run. revert p. induction n as [|n IH]; intros p.
  - intros [= <-]. split; [apply stack_inv_init|]. left.
    split; [unfold YP_LEX_STACK_SIZE; cbn; lia|reflexivity].
  - cbn [lex_n]. destruct (lex_n _ n _) as [q|]; [|discriminate].
    cbn [mbind option_bind]. intros H. destruct (IH q eq_refl) as (Hi & Hh). split.
    + apply (yp_lex_token_measure q p Hi H).
    + apply (yp_lex_token_heap q p Hi Hh H).
Qed.

(** X4: along every run from [yp_parser_init] the mode stack holds at
    most the four inline modes and one more; while it is inside the inline
    array, [current] points at the slot [index], the base slot is a
    default mode, the top can be read and nothing was allocated; once the
    fifth mode is pushed the heap holds the one unwritten node, [current]
    points at it, and the next call is undefined whatever the handlers. *)
Theorem mode_stack_along_runs (n : nat) (src : list Z) (p : yp_parser_t)
    (h : yp_error_handler_t) :
  run n src = Some p ->
  (lex_modes_index p <= YP_LEX_STACK_SIZE)%nat
  /\ length (lex_modes_stack p) = YP_LEX_STACK_SIZE
  /\ mode <$> lex_modes_stack p !! 0%nat = Some YP_LEX_DEFAULT
  /\ ((lex_modes_index p < YP_LEX_STACK_SIZE)%nat ->
      lex_modes_current p = StackSlot (lex_modes_index p)
      /\ is_Some (top_mode p) /\ heap p = [])
  /\ (lex_modes_index p = YP_LEX_STACK_SIZE ->
      lex_modes_current p = HeapNode 0 /\ heap p = [None]
      /\ yp_lex_token h p = None).
Proof.
  intros H. apply run_invariants in H as ((Hl & H0 & Hc) & Hh).
  split; [destruct Hh as [(? & _)|(? & _)]; lia|].
  split; [exact Hl|]. split; [exact H0|]. split.
  - intros Hlt. destruct Hh as [(_ & Hh)|(? & _)]; [|lia].
    pose proof Hlt as Hb. apply Nat.ltb_lt in Hb. rewrite Hb in Hc.
    split; [exact Hc|]. split; [|exact Hh].
    unfold top_mode, load. rewrite Hc. apply lookup_lt_is_Some_2. lia.
  - intros Hx. destruct Hh as [(? & _)|(_ & Hh & Hp)]; [lia|].
    split; [exact Hp|]. split; [exact Hh|].
    apply yp_lex_token_top. rewrite Hx in Hc.
    replace (YP_LEX_STACK_SIZE <? YP_LEX_STACK_SIZE)%nat with false in Hc by reflexivity.
    exact Hc.
Qed.

Lemma mode_stack_along_runs_witness :
  lex_modes_index (state_after 6 deep_interpolation) = YP_LEX_STACK_SIZE
  /\ heap (state_after 6 deep_interpolation) = [None]
  /\ yp_lex_token default_error_handler (state_after 6 deep_interpolation) = None.
Proof.
  assert (run 6 deep_interpolation = Some (state_after 6 deep_interpolation)) as H
    by (vm_compute; reflexivity).
  destruct (mode_stack_along_runs 6 deep_interpolation _ default_error_handler H)
    as (_ & _ & _ & _ & H4).
  assert (lex_modes_index (state_after 6 deep_interpolation) = YP_LEX_STACK_SIZE) as Hx
    by (vm_compute; reflexivity).
  destruct (H4 Hx) as (_ & Hh & Hu).
  split; [exact Hx|]. split; [exact Hh|exact Hu].
Defined.

(** ** The end of the buffer, mode by mode *)

Lemma top_mode_set_type (p : yp_parser_t) (ty : yp_token_type_t) :
  top_mode (set_type p ty) = top_mode p.
Proof. reflexivity. Qed.

Lemma yp_lex_token_unfold (h : yp_error_handler_t) (p : yp_parser_t) (top : yp_lex_mode_t) :
  top_mode p = Some top ->
  yp_lex_token h p =
    '(ty, q) ← match mode top with
               | YP_LEX_DEFAULT | YP_LEX_EMBEXPR => lex_default top (set_previous p (current p))
               | YP_LEX_EMBDOC => lex_embdoc h (set_previous p (current p))
               | YP_LEX_LIST => lex_list h top (set_previous p (current p))
               | YP_LEX_REGEXP => lex_regexp h top (set_previous p (current p))
               | YP_LEX_STRING => lex_string h top (set_previous p (current p))
               | YP_LEX_SYMBOL => lex_symbol (set_previous p (current p))
               end;
    Some (set_type q ty).
Proof.
  intros Ht. unfold yp_lex_token, lex_token_type.
  change (load (set_previous p (current p))
            (lex_modes_current (set_previous p (current p)))) with (top_mode p).
  rewrite Ht. reflexivity.
Qed.

Lemma symbol_at_end_once (h : yp_error_handler_t) (p : yp_parser_t) (top : yp_lex_mode_t) :
  top_mode p = Some top -> mode top = YP_LEX_SYMBOL -> parser_end p <= cur p ->
  yp_lex_token h p
  = Some (set_type (set_start (set_previous p (current p)) (cur p)) YP_TOKEN_INVALID).
Proof.
  intros Ht Hm He. rewrite (yp_lex_token_unfold h p top Ht), Hm.
  unfold lex_symbol.
  replace (cur (set_start (set_previous p (current p)) (cur (set_previous p (current p))))
           <? parser_end (set_start (set_previous p (current p))
                            (cur (set_previous p (current p))))) with false
    by (symmetry; apply Z.ltb_ge; exact He).
  reflexivity.
Qed.

(** X5: with the symbol mode on top and the cursor at the end of the
    buffer, every further call, whatever the handlers, returns an empty
    INVALID token at the cursor and leaves the cursor and the mode stack as
    they are: no call returns EOF any more, so a loop that drains the
    tokens until EOF does not end. *)
Theorem symbol_mode_at_end (h : yp_error_handler_t) (p : yp_parser_t)
    (top : yp_lex_mode_t) (n : nat) :
  top_mode p = Some top -> mode top = YP_LEX_SYMBOL -> parser_end p <= cur p ->
  exists p', lex_n h (S n) p = Some p'
    /\ type (current p') = YP_TOKEN_INVALID
    /\ start (current p') = cur p /\ cur p' = cur p
    /\ top_mode p' = Some top /\ lex_modes_index p' = lex_modes_index p
    /\ source p' = source p /\ lineno p' = lineno p.
Proof.
  intros Ht Hm He. induction n as [|k IH].
  - eexists. split.
    + cbn [lex_n mbind option_bind]. apply (symbol_at_end_once h p top Ht Hm He).
    + repeat split. exact Ht.
  - destruct IH as (q & Hq & _ & _ & Hc & Ht' & Hx & Hs & Hl).
    eexists. split.
    + change (lex_n h (S (S k)) p) with (lex_n h (S k) p ≫= yp_lex_token h).
      rewrite Hq. cbn [mbind option_bind].
      apply (symbol_at_end_once h q top Ht' Hm).
      unfold parser_end. rewrite Hs, Hc. exact He.
    + cbn. repeat split; assumption.
Qed.

Lemma symbol_mode_at_end_witness :
  exists p', lex_n default_error_handler 5 (state_after 2 (bytes_of_string ":1")) = Some p'
    /\ type (current p') = YP_TOKEN_INVALID.
Proof.
  destruct (symbol_mode_at_end default_error_handler
              (state_after 2 (bytes_of_string ":1"))
              {| mode := YP_LEX_SYMBOL; term := 0; interp := false; prev := StackSlot 0 |}
              4) as (p' & H & Hty & _).
  - vm_compute. reflexivity.
  - reflexivity.
  - vm_compute. discriminate.
  - exists p'. split; assumption.
Defined.

Lemma strncmp_eq_at_nul (src : list Z) (e : Z) (s : list Z) (k : nat) :
  byte_at src e = 0 -> hd 0 s <> 0 -> strncmp_eq src e s (S k) = false.
Proof.
  intros Hb Hs. cbn [strncmp_eq]. rewrite Hb.
  destruct (0 =? hd 0 s) eqn:E; [|reflexivity].
  apply Z.eqb_eq in E. congruence.
Qed.

Lemma embdoc_line_at_end (src : list Z) (pend : Z) (fuel : nat) (e : Z) :
  pend <= e -> embdoc_line src pend fuel e = e.
Proof.
  intros H. destruct fuel; [reflexivity|]. cbn [embdoc_line].
  replace (e <? pend) with false by (symmetry; apply Z.ltb_ge; exact H). reflexivity.
Qed.

Lemma list_word_at_end (src : list Z) (pend term_ tstart : Z) (fuel : nat) (e : Z) :
  pend <= e -> list_word src pend term_ tstart fuel e = (ExitEnd, e).
Proof.
  intros H. destruct fuel; [reflexivity|]. cbn [list_word].
  replace (e <? pend) with false by (symmetry; apply Z.ltb_ge; exact H). reflexivity.
Qed.

Lemma regexp_content_at_end (src : list Z) (pend term_ tstart : Z) (fuel : nat) (e line : Z) :
  pend <= e -> regexp_content src pend term_ tstart fuel e line = (ExitEnd, e, line).
Proof.
  intros H. destruct fuel; [reflexivity|]. cbn [regexp_content].
  replace (e <? pend) with false by (symmetry; apply Z.ltb_ge; exact H). reflexivity.
Qed.

Lemma string_content_at_end (src : list Z) (pend term_ : Z) (i : bool) (tstart : Z)
    (fuel : nat) (e line : Z) :
  pend <= e -> string_content src pend term_ i tstart fuel e line = (ExitEnd, e, line).
Proof.
  intros H. destruct fuel; [reflexivity|]. cbn [string_content].
  replace (e <? pend) with false by (symmetry; apply Z.ltb_ge; exact H). reflexivity.
Qed.

Lemma match_at_sentinel (p : yp_parser_t) (v : Z) :
  cur p = parser_end p -> v <> 0 -> match_ p v = (false, p).
Proof.
  intros He Hv. unfold match_. rewrite (peek_sentinel p He).
  destruct (0 =? v) eqn:E; [|reflexivity]. apply Z.eqb_eq in E. congruence.
Qed.

Lemma literal_at_sentinel_once (h : yp_error_handler_t) (p : yp_parser_t)
    (top : yp_lex_mode_t) :
  top_mode p = Some top -> cur p = parser_end p ->
  match mode top with
  | YP_LEX_EMBDOC =>
      lex_token_type h p = Some (unterminated_embdoc h (set_start p (cur p)))
  | YP_LEX_LIST =>
      lex_token_type h p = Some (unterminated_list h (set_start p (cur p)))
  | YP_LEX_REGEXP =>
      term top <> 0 ->
      lex_token_type h p = Some (unterminated_regexp h (set_start p (cur p)))
  | YP_LEX_STRING =>
      term top <> 0 ->
      lex_token_type h p = Some (unterminated_string h (set_start p (cur p)))
  | _ => True
  end.
Proof.
  intros Ht He. unfold lex_token_type.
  change (load p (lex_modes_current p)) with (top_mode p). rewrite Ht.
  cbn [mbind option_bind].
  set (p1 := set_start p (cur p)).
  assert (cur p1 = parser_end p1) as Hs1 by exact He.
  assert (parser_end p1 <= cur p1) as He1 by (rewrite Hs1; apply Z.le_refl).
  destruct (mode top); try exact I.
  - unfold lex_embdoc. fold p1.
    rewrite strncmp_eq_at_nul
      by (try (rewrite Hs1; apply byte_at_sentinel); vm_compute; discriminate).
    rewrite embdoc_line_at_end by exact He1. rewrite set_end_cur.
    replace (cur p1 <? parser_end p1) with false by (symmetry; apply Z.ltb_ge; exact He1).
    reflexivity.
  - unfold lex_list. rewrite (peek_sentinel p He).
    change (is_whitespace_char 0) with false. cbn iota. fold p1.
    rewrite list_word_at_end by exact He1. rewrite set_end_cur. reflexivity.
  - intros Hterm. unfold lex_regexp. fold p1.
    rewrite (match_at_sentinel p1 (term top) Hs1 Hterm).
    rewrite regexp_content_at_end by exact He1.
    rewrite set_end_cur, set_lineno_same. reflexivity.
  - intros Hterm. unfold lex_string. fold p1.
    rewrite (match_at_sentinel p1 (term top) Hs1 Hterm).
    rewrite string_content_at_end by exact He1.
    rewrite set_end_cur, set_lineno_same. reflexivity.
Qed.

Lemma literal_at_sentinel_handler (h : yp_error_handler_t) (p : yp_parser_t)
    (top : yp_lex_mode_t) :
  top_mode p = Some top -> cur p = parser_end p ->
  mode top = YP_LEX_EMBDOC \/ mode top = YP_LEX_LIST
  \/ ((mode top = YP_LEX_REGEXP \/ mode top = YP_LEX_STRING) /\ term top <> 0) ->
  lex_token_type h p
  = Some (match mode top with
          | YP_LEX_EMBDOC => unterminated_embdoc h
          | YP_LEX_LIST => unterminated_list h
          | YP_LEX_REGEXP => unterminated_regexp h
          | _ => unterminated_string h
          end (set_start p (cur p))).
Proof.
  intros Ht He Hm. pose proof (literal_at_sentinel_once h p top Ht He) as H.
  destruct (mode top); destruct Hm as [Hm|[Hm|[[Hm|Hm] Hterm]]];
    try discriminate; try exact H; exact (H Hterm).
Qed.

Lemma literal_at_sentinel_default (p : yp_parser_t) (top : yp_lex_mode_t) :
  top_mode p = Some top -> cur p = parser_end p ->
  mode top = YP_LEX_EMBDOC \/ mode top = YP_LEX_LIST
  \/ ((mode top = YP_LEX_REGEXP \/ mode top = YP_LEX_STRING) /\ term top <> 0) ->
  yp_lex_token default_error_handler p
  = Some (set_type (set_start (set_previous p (current p)) (cur p)) YP_TOKEN_EOF).
Proof.
  intros Ht He Hm. unfold yp_lex_token.
  rewrite (literal_at_sentinel_handler default_error_handler (set_previous p (current p)) top
             Ht He Hm).
  destruct (mode top); reflexivity.
Qed.

(** X6: with a literal mode on top (embedded documentation, list, or a
    string or regular expression whose terminator is not NUL) and the
    cursor on the NUL sentinel, that is exactly at the end of the buffer,
    a call reads the sentinel only and hands an empty token at the cursor
    to the mode's unterminated handler; with the handlers of the extension
    every further call returns an empty EOF there, and the cursor, the mode
    stack and the line number stay as they are, so that no call ever reads
    a byte after the sentinel. *)
Theorem literal_mode_at_end (p : yp_parser_t) (top : yp_lex_mode_t) :
  top_mode p = Some top -> cur p = parser_end p ->
  mode top = YP_LEX_EMBDOC \/ mode top = YP_LEX_LIST
  \/ ((mode top = YP_LEX_REGEXP \/ mode top = YP_LEX_STRING) /\ term top <> 0) ->
  (forall h, lex_token_type h p
     = Some (match mode top with
             | YP_LEX_EMBDOC => unterminated_embdoc h
             | YP_LEX_LIST => unterminated_list h
             | YP_LEX_REGEXP => unterminated_regexp h
             | _ => unterminated_string h
             end (set_start p (cur p))))
  /\ forall n, exists p', lex_n default_error_handler (S n) p = Some p'
       /\ type (current p') = YP_TOKEN_EOF
       /\ start (current p') = cur p /\ cur p' = cur p
       /\ top_mode p' = Some top /\ lex_modes_index p' = lex_modes_index p
       /\ lineno p' = lineno p.
Proof.
  intros Ht He Hm. split.
  - intros h. apply literal_at_sentinel_handler; assumption.
  - intros n. induction n as [|k IH].
    + eexists. split.
      * cbn [lex_n mbind option_bind]. apply (literal_at_sentinel_default p top Ht He Hm).
      * repeat split. exact Ht.
    + destruct IH as (q & Hq & _ & _ & Hc & Ht' & Hx & Hl).
      assert (source q = source p) as Hs.
      { clear - Hq. revert q Hq. induction (S k) as [|j IHj]; intros q.
        - intros [= <-]. reflexivity.
        - cbn [lex_n]. destruct (lex_n _ j p) as [r|]; [|discriminate].
          cbn [mbind option_bind]. unfold yp_lex_token.
          destruct (lex_token_type _ _) as [[ty r']|] eqn:E; [|discriminate].
          cbn [mbind option_bind]. intros [= <-].
          apply lex_token_type_step in E as (t & _ & (q0 & Hf & _ & _ & _ & He)).
          apply stack_effect_tokens in He as (_ & _ & Hs & _).
          destruct Hf as (_ & _ & _ & _ & Hs0 & _).
          cbn. rewrite Hs, Hs0. exact (IHj r eq_refl). }
      eexists. split.
      * change (lex_n default_error_handler (S (S k)) p)
          with (lex_n default_error_handler (S k) p ≫= yp_lex_token default_error_handler).
        rewrite Hq. cbn [mbind option_bind].
        apply (literal_at_sentinel_default q top Ht'); [|exact Hm].
        unfold parser_end. rewrite Hs, Hc. exact He.
      * cbn. repeat split; assumption.
Qed.

Lemma literal_mode_at_end_witness :
  exists p', lex_n default_error_handler 3 (state_after 2 (DQ ++ bytes_of_string "a")) = Some p'
    /\ type (current p') = YP_TOKEN_EOF /\ cur p' = 2.
Proof.
  destruct (literal_mode_at_end (state_after 2 (DQ ++ bytes_of_string "a"))
              {| mode := YP_LEX_STRING; term := ch "034"; interp := true;
                 prev := StackSlot 0 |}) as (_ & H).
  - vm_compute. reflexivity.
  - vm_compute. reflexivity.
  - right. right. split; [right; reflexivity|vm_compute; discriminate].
  - destruct (H 2%nat) as (p' & H1 & H2 & _ & H3 & _).
    exists p'. split; [exact H1|]. split; [exact H2|exact H3].
Defined.

(** ** Identifiers and keywords *)

Lemma strncmp_eq_lexeme (s : list Z) (src : list Z) (pos : Z) :
  forallb (fun b => negb (b =? 0)) s = true ->
  strncmp_eq src pos s (length s) = true -> lexeme_from src (length s) pos = s.
Proof.
  revert pos. induction s as [|b s IH]; intros pos Hs H; [reflexivity|].
  cbn [forallb] in Hs. apply andb_true_iff in Hs as (Hb & Hs).
  cbn [length strncmp_eq hd tl] in H. cbn [length lexeme_from].
  destruct (byte_at src pos =? b) eqn:E; [|discriminate].
  apply Z.eqb_eq in E. rewrite E in *.
  destruct (b =? 0); [discriminate|].
  f_equal. apply IH; assumption.
Qed.

Lemma keyword_sizes :
  Forall (fun '(K, size, _) =>
            Z.to_nat size = length (bytes_of_string K)
            /\ forallb (fun b => negb (b =? 0)) (bytes_of_string K) = true)
         all_keywords.
Proof.
  unfold all_keywords, keywords.
  repeat (apply List.Forall_cons; [split; vm_compute; reflexivity|]).
  apply List.Forall_nil.
Qed.

Lemma KEYWORD_lexeme (p : yp_parser_t) (K : string) (size : Z) (tok : yp_token_type_t) :
  In (K, size, tok) all_keywords ->
  KEYWORD p (cur p - start (current p)) K size = true ->
  lexeme p = bytes_of_string K.
Proof.
  intros Hin H. pose proof keyword_sizes as Hk.
  rewrite List.Forall_forall in Hk. specialize (Hk _ Hin). cbn in Hk.
  destruct Hk as (Hsz & Hnz).
  unfold KEYWORD in H. apply andb_true_iff in H as (Hw & Hc).
  apply Z.eqb_eq in Hw. unfold lexeme. rewrite Hw, Hsz.
  apply strncmp_eq_lexeme; [exact Hnz|]. rewrite <- Hsz. exact Hc.
Qed.

Lemma first_keyword_found (p : yp_parser_t) (width : Z)
    (kws : list (string * Z * yp_token_type_t)) (tok : yp_token_type_t) :
  first_keyword p width kws = Some tok ->
  exists K size, In (K, size, tok) kws /\ KEYWORD p width K size = true.
Proof.
  induction kws as [|[[K size] t] rest IH]; [discriminate|].
  cbn [first_keyword]. destruct (KEYWORD p width K size) eqn:E.
  - intros [= <-]. exists K, size. split; [left; reflexivity|exact E].
  - intros H. destruct (IH H) as (K' & size' & Hin & Hk).
    exists K', size'. split; [right; exact Hin|exact Hk].
Qed.

(** X7: [lex_identifier] returns a keyword token only when the previous
    token is not a DOT and the bytes of the token are exactly that
    keyword; every other result is an IDENTIFIER, or a CONSTANT whose
    first byte is an ASCII uppercase letter.  So after a DOT it never
    returns a keyword. *)
Theorem lex_identifier_kinds (p q : yp_parser_t) (ty : yp_token_type_t) :
  lex_identifier p = (ty, q) ->
  (exists K size, In (K, size, ty) all_keywords
     /\ lexeme q = bytes_of_string K /\ previous_is_dot p = false)
  \/ ty = YP_TOKEN_IDENTIFIER
  \/ (ty = YP_TOKEN_CONSTANT
      /\ ch "A" <= byte_at (source p) (start (current p)) <= ch "Z").
Proof.
  unfold lex_identifier.
  set (p1 := run_scan is_identifier_char p).
  assert (previous p1 = previous p /\ source p1 = source p
          /\ start (current p1) = start (current p)) as (Hp1 & Hs1 & Ht1)
    by (repeat split).
  set (r := if (cur p1 + 1 <? parser_end p1) && negb (peek p1 1 =? ch "=")
            then match_either p1 (ch "!") (ch "?") else (false, p1)).
  assert (snd r = (if fst r then advance p1 1 else p1)) as Hr.
  { unfold r. destruct (_ && _); [|reflexivity].
    destruct (match_either p1 (ch "!") (ch "?")) as [b x] eqn:E.
    apply match_either_fwd in E as (_ & E); [|discriminate|discriminate].
    cbn [fst snd]. destruct b; exact E. }
  destruct r as [suffix p2]. cbn [fst snd] in Hr.
  assert (previous_is_dot p2 = previous_is_dot p /\ source p2 = source p
          /\ start (current p2) = start (current p)
          /\ cur p2 = (if suffix then cur p1 + 1 else cur p1)) as (Hd & Hs2 & Ht2 & Hc2).
  { rewrite Hr. destruct suffix; repeat split. }
  clear Hr. destruct suffix.
  - destruct (negb (previous_is_dot p2)) eqn:Hn; cbn [andb].
    + destruct (KEYWORD p2 _ "defined?" 8) eqn:Hk; intros [= <- <-];
        [|right; left; reflexivity].
      left. exists "defined?"%string, 8. split; [left; reflexivity|]. split.
      * apply (KEYWORD_lexeme p2 "defined?" 8 YP_TOKEN_KEYWORD_DEFINED); [left; reflexivity|].
        replace (cur p2 - start (current p2)) with (cur p1 - start (current p1) + 1)
          by (rewrite Hc2, Ht2, Ht1; lia).
        exact Hk.
      * rewrite <- Hd. apply negb_true_iff. exact Hn.
    + intros [= <- <-]. right. left. reflexivity.
  - destruct (negb (previous_is_dot p2)) eqn:Hn.
    + destruct (first_keyword p2 _ keywords) as [tok|] eqn:Hk.
      * intros [= <- <-]. left.
        apply first_keyword_found in Hk as (K & size & Hin & Hk).
        exists K, size. split; [right; exact Hin|]. split.
        -- apply (KEYWORD_lexeme p2 K size tok); [right; exact Hin|].
           replace (cur p2 - start (current p2)) with (cur p1 - start (current p1))
             by (rewrite Hc2, Ht2, Ht1; lia).
           exact Hk.
        -- rewrite <- Hd. apply negb_true_iff. exact Hn.
      * rewrite Hs2, Ht2.
        destruct (_ && _) eqn:Hu; intros [= <- <-]; [|right; left; reflexivity].
        right. right. split; [reflexivity|].
        apply andb_true_iff in Hu as (Ha & Hz).
        apply Z.leb_le in Ha, Hz. split; assumption.
    + rewrite Hs2, Ht2.
      destruct (_ && _) eqn:Hu; intros [= <- <-]; [|right; left; reflexivity].
      right. right. split; [reflexivity|].
      apply andb_true_iff in Hu as (Ha & Hz).
      apply Z.leb_le in Ha, Hz. split; assumption.
Qed.

Lemma lex_identifier_kinds_witness :
  let s := state_after 2 (bytes_of_string "a.end") in
  let p := advance (set_start (set_previous s (current s)) (cur s)) 1 in
  fst (lex_identifier p) = YP_TOKEN_IDENTIFIER
  \/ fst (lex_identifier p) = YP_TOKEN_CONSTANT.
Proof.
  intros s p.
  destruct (lex_identifier_kinds p (snd (lex_identifier p)) (fst (lex_identifier p)))
    as [(K & size & _ & _ & Hd)|[H|[H _]]].
  - vm_compute. reflexivity.
  - vm_compute in Hd. discriminate.
  - left. exact H.
  - right. exact H.
Defined.

Lemma scan_while_all (f : Z -> bool) (src : list Z) (fuel : nat) (e i : Z) :
  e <= i < scan_while f src fuel e -> f (byte_at src i) = true.
Proof.
  revert e. induction fuel as [|k IH]; intros e; cbn [scan_while]; [lia|].
  destruct (f (byte_at src e)) eqn:E; [|lia].
  intros H. destruct (Z.eq_dec i e) as [->|Hne]; [exact E|].
  apply (IH (e + 1)). lia.
Qed.

(** X8: [lex_identifier] takes the longest run of identifier characters
    from the cursor, and one more byte exactly when that byte is [!] or
    [?], the byte after it is not [=], and that byte after is still inside
    the buffer; the start of the token is left alone. *)
Theorem lex_identifier_extent (p q : yp_parser_t) (ty : yp_token_type_t) :
  0 <= cur p -> lex_identifier p = (ty, q) ->
  exists e, cur p <= e
    /\ (forall i, cur p <= i < e -> is_identifier_char (byte_at (source p) i) = true)
    /\ is_identifier_char (byte_at (source p) e) = false
    /\ q = set_end p
             (if (e + 1 <? parser_end p) && negb (byte_at (source p) (e + 1) =? ch "=")
                 && ((byte_at (source p) e =? ch "!") || (byte_at (source p) e =? ch "?"))
              then e + 1 else e).
Proof.
  intros Hpos. unfold lex_identifier.
  set (p1 := run_scan is_identifier_char p).
  set (e := scan_while is_identifier_char (source p) (fuel_of (source p)) (cur p)).
  assert (p1 = set_end p e) as Hp1 by reflexivity.
  assert (cur p <= e) as Hle.
  { apply (scan_while_spec is_identifier_char (source p) (fuel_of (source p)) (cur p)).
    reflexivity. }
  assert (is_identifier_char (byte_at (source p) e) = false) as Hstop.
  { apply scan_while_exit; [reflexivity|]. apply fuel_of_enough. exact Hpos. }
  assert (forall i, cur p <= i < e -> is_identifier_char (byte_at (source p) i) = true) as Hall.
  { intros i Hi. eapply scan_while_all. exact Hi. }
  change (parser_end p1) with (parser_end p). change (cur p1) with e.
  change (peek p1 1) with (byte_at (source p) (e + 1)).
  rewrite match_either_test.
  change (peek p1 0) with (byte_at (source p) (e + 0)). rewrite Z.add_0_r.
  clearbody e p1. subst p1.
  intros H. exists e. split; [exact Hle|]. split; [exact Hall|]. split; [exact Hstop|].
  destruct ((e + 1 <? parser_end p) && negb (byte_at (source p) (e + 1) =? ch "=")).
  - cbn [andb].
    destruct ((byte_at (source p) e =? ch "!") || (byte_at (source p) e =? ch "?")).
    + destruct (negb _ && _); injection H as _ <-; reflexivity.
    + destruct (if negb _ then _ else _); [|destruct (_ && _)];
        injection H as _ <-; reflexivity.
  - cbn [andb].
    destruct (if negb _ then _ else _); [|destruct (_ && _)];
      injection H as _ <-; reflexivity.
Qed.

Lemma lex_identifier_extent_witness :
  let p := advance (yp_parser_init (bytes_of_string "ab?c")) 1 in
  exists e, snd (lex_identifier p) = set_end p e.
Proof.
  intros p.
  destruct (lex_identifier_extent p (snd (lex_identifier p)) (fst (lex_identifier p)))
    as (e & _ & _ & _ & H).
  - vm_compute. discriminate.
  - vm_compute. reflexivity.
  - eexists. exact H.
Defined.

(** ** Numbers *)

Lemma lex_optional_float_suffix_kind (p q : yp_parser_t) (ty : yp_token_type_t) :
  lex_optional_float_suffix p = (ty, q) ->
  ty = YP_TOKEN_INTEGER \/ ty = YP_TOKEN_FLOAT \/ ty = YP_TOKEN_INVALID.
Proof.
  unfold lex_optional_float_suffix.
  split_lexer; intros [= <- <-]; auto.
Qed.

Lemma reject_trailing_underscore_kind (t ty : yp_token_type_t) (x q : yp_parser_t) :
  t = YP_TOKEN_INTEGER \/ t = YP_TOKEN_FLOAT \/ t = YP_TOKEN_INVALID ->
  reject_trailing_underscore (t, x) = (ty, q) ->
  (ty = YP_TOKEN_INTEGER \/ ty = YP_TOKEN_FLOAT \/ ty = YP_TOKEN_INVALID)
  /\ (ty <> YP_TOKEN_INVALID -> peek q (-1) <> ch "_").
Proof.
  intros Hk. cbn. destruct (peek x (-1) =? ch "_") eqn:E; intros [= <- <-].
  - split; [auto|congruence].
  - split; [exact Hk|]. intros _. apply Z.eqb_neq. exact E.
Qed.

Lemma lex_based_digits_kind (f : Z -> bool) (p q : yp_parser_t) (ty : yp_token_type_t) :
  lex_based_digits f p = (ty, q) ->
  (ty = YP_TOKEN_INTEGER \/ ty = YP_TOKEN_FLOAT \/ ty = YP_TOKEN_INVALID)
  /\ (ty <> YP_TOKEN_INVALID -> peek q (-1) <> ch "_").
Proof.
  unfold lex_based_digits. destruct (negb _).
  - intros [= <- <-]. split; [auto|congruence].
  - apply reject_trailing_underscore_kind. auto.
Qed.

Lemma lex_numeric_prefix_kind (p q : yp_parser_t) (ty : yp_token_type_t) :
  lex_numeric_prefix p = (ty, q) ->
  (ty = YP_TOKEN_INTEGER \/ ty = YP_TOKEN_FLOAT \/ ty = YP_TOKEN_INVALID)
  /\ (ty <> YP_TOKEN_INVALID -> peek q (-1) <> ch "_").
Proof.
  assert (forall x, reject_trailing_underscore (lex_optional_float_suffix x) = (ty, q) ->
            (ty = YP_TOKEN_INTEGER \/ ty = YP_TOKEN_FLOAT \/ ty = YP_TOKEN_INVALID)
            /\ (ty <> YP_TOKEN_INVALID -> peek q (-1) <> ch "_")) as K.
  { intros x. destruct (lex_optional_float_suffix x) as [t y] eqn:E.
    apply reject_trailing_underscore_kind.
    apply lex_optional_float_suffix_kind in E. exact E. }
  unfold lex_numeric_prefix.
  destruct (peek p (-1) =? ch "0"); [|apply K].
  repeat match goal with
  | |- (if ?c then _ else _) = _ -> _ => destruct c eqn:?
  end;
  try apply lex_based_digits_kind; try apply K;
  apply reject_trailing_underscore_kind; auto.
Qed.

(** X9: [lex_numeric] returns INTEGER, FLOAT, RATIONAL_NUMBER,
    IMAGINARY_NUMBER or INVALID and nothing else, and a numeric token that
    is not INVALID never ends in an underscore. *)
Theorem lex_numeric_kinds (p q : yp_parser_t) (ty : yp_token_type_t) :
  lex_numeric p = (ty, q) ->
  (ty = YP_TOKEN_INTEGER \/ ty = YP_TOKEN_FLOAT \/ ty = YP_TOKEN_RATIONAL_NUMBER
   \/ ty = YP_TOKEN_IMAGINARY_NUMBER \/ ty = YP_TOKEN_INVALID)
  /\ (ty <> YP_TOKEN_INVALID -> peek q (-1) <> ch "_").
Proof.
  unfold lex_numeric.
  destruct (lex_numeric_prefix p) as [t x] eqn:E.
  apply lex_numeric_prefix_kind in E as (Hk & Hu).
  assert ((let '(r, p0) := match_ x (ch "r") in
           let ty0 := if r then YP_TOKEN_RATIONAL_NUMBER else t in
           let '(i, p1) := match_ p0 (ch "i") in
           let ty1 := if i then YP_TOKEN_IMAGINARY_NUMBER else ty0 in (ty1, p1)) = (ty, q) ->
          t <> YP_TOKEN_INVALID ->
          (ty = YP_TOKEN_INTEGER \/ ty = YP_TOKEN_FLOAT \/ ty = YP_TOKEN_RATIONAL_NUMBER
           \/ ty = YP_TOKEN_IMAGINARY_NUMBER \/ ty = YP_TOKEN_INVALID)
          /\ (ty <> YP_TOKEN_INVALID -> peek q (-1) <> ch "_")) as K.
  { intros H Ht. specialize (Hu Ht). revert H. unfold match_.
    destruct (peek x 0 =? ch "r") eqn:R.
    - destruct (peek (advance x 1) 0 =? ch "i") eqn:I; intros [= <- <-].
      + split; [auto|]. intros _. rewrite peek_advance. apply Z.eqb_eq in I.
        change (1 + -1) with 0. rewrite I. discriminate.
      + split; [auto|]. intros _. rewrite peek_advance. apply Z.eqb_eq in R.
        change (1 + -1) with 0. rewrite R. discriminate.
    - destruct (peek x 0 =? ch "i") eqn:I; intros [= <- <-].
      + split; [auto|]. intros _. rewrite peek_advance. apply Z.eqb_eq in I.
        change (1 + -1) with 0. rewrite I. discriminate.
      + split; [|intros _; exact Hu].
        destruct Hk as [-> | [-> | ->]]; auto. }
  destruct Hk as [-> | [-> | ->]].
  - intros H. apply K; [exact H|discriminate].
  - intros H. apply K; [exact H|discriminate].
  - intros [= <- <-]. split; [auto 6|congruence].
Qed.

Lemma lex_numeric_kinds_witness :
  let p := advance (yp_parser_init (bytes_of_string "1_000r")) 1 in
  peek (snd (lex_numeric p)) (-1) <> ch "_".
Proof.
  intros p.
  destruct (lex_numeric_kinds p (snd (lex_numeric p)) (fst (lex_numeric p))) as (_ & H).
  - vm_compute. reflexivity.
  - apply H. vm_compute. discriminate.
Defined.

(** ** Where a token starts, and the line number *)

Lemma token_kept_refl (p : yp_parser_t) : token_kept p p.
Proof. repeat split. lia. Qed.

Lemma token_kept_fwd (p0 y q : yp_parser_t) : token_kept p0 y -> fwd y q -> token_kept p0 q.
Proof.
  intros (H1 & H2 & H3 & H4) (e & -> & He & _). unfold token_kept, cur in *. cbn.
  repeat split; try assumption. lia.
Qed.

Lemma token_kept_advance (p0 y : yp_parser_t) (k : Z) :
  token_kept p0 y -> 0 <= k -> token_kept p0 (advance y k).
Proof.
  intros (H1 & H2 & H3 & H4) Hk. unfold token_kept, advance, cur in *. cbn.
  repeat split; try assumption. lia.
Qed.

Lemma scan_while_le (f : Z -> bool) (src : list Z) (fuel : nat) (e : Z) :
  e <= scan_while f src fuel e.
Proof.
  revert e. induction fuel as [|k IH]; intros e; cbn; [lia|].
  destruct (f (byte_at src e)); [|lia]. specialize (IH (e + 1)). lia.
Qed.

Lemma token_kept_scan (f : Z -> bool) (p0 y : yp_parser_t) :
  token_kept p0 y -> token_kept p0 (run_scan f y).
Proof.
  intros (H1 & H2 & H3 & H4). unfold token_kept, run_scan, cur in *.
  cbn [current set_end set_current end_ start lineno source].
  repeat split; try assumption.
  pose proof (scan_while_le f (source y) (fuel_of (source y)) (end_ (current y))). lia.
Qed.

Lemma token_kept_push (p0 y : yp_parser_t) (m : yp_lex_mode_t) :
  token_kept p0 y -> token_kept p0 (push_lex_mode y m).
Proof.
  intros (H1 & H2 & H3 & H4).
  pose proof (push_lex_mode_tokens y m) as (Hc & _ & Hs & Hl & _).
  unfold token_kept, cur in *. rewrite Hc, Hs, Hl. repeat split; assumption.
Qed.

Lemma token_kept_pop (p0 y q : yp_parser_t) :
  token_kept p0 y -> pop_lex_mode y = Some q -> token_kept p0 q.
Proof.
  intros (H1 & H2 & H3 & H4) Hp.
  apply pop_lex_mode_tokens in Hp as (Hc & _ & Hs & Hl & _).
  unfold token_kept, cur in *. rewrite Hc, Hs, Hl. repeat split; assumption.
Qed.

(** Prove [token_kept p0 x] by walking back from [x] to [p0]. *)
Ltac kept_chain :=
  lazymatch goal with
  | |- token_kept ?p ?p => apply token_kept_refl
  | |- token_kept _ (push_lex_mode _ _) => apply token_kept_push; kept_chain
  | |- token_kept _ (advance _ _) => apply token_kept_advance; [kept_chain|lia]
  | |- token_kept _ (run_scan _ _) => apply token_kept_scan; kept_chain
  | |- token_kept ?p ?x =>
      match goal with
      | H : pop_lex_mode ?y = Some x |- _ =>
          apply (token_kept_pop p y x); [kept_chain|exact H]
      | H : fwd ?y x |- _ => apply (token_kept_fwd p y x); [kept_chain|exact H]
      end
  end.

(** Close a branch of the default case that cannot be entered with a
    newline as the dispatched byte. *)
Ltac not_newline c :=
  let Hn := fresh "Hn" in
  intros Hn; exfalso; rewrite Hn in *;
  match goal with
  | H : context [Z.eqb (ch "010") _] |- _ => vm_compute in H; discriminate H
  end.

Ltac shape_leaf c :=
  first
    [ discriminate
    | intros [= <- <-];
      lazymatch goal with
      | |- default_shape _ ?p0 _ (set_lineno ?p0 _) =>
          split; [reflexivity|]; split; [unfold cur; cbn; lia|]; split; [reflexivity|];
          split; [intros _; repeat split|];
          let Hn := fresh "Hn" in
          intros Hn; exfalso;
          match goal with
          | H : (c =? ch "010") = true |- _ => apply Z.eqb_eq in H; exact (Hn H)
          end
      | |- default_shape _ ?p0 _ ?x =>
          let K := fresh "K" in
          assert (token_kept p0 x) as K by kept_chain;
          destruct K as (? & ? & ? & ?);
          split; [assumption|]; split; [assumption|]; split; [assumption|];
          split; [not_newline c|intros _; assumption]
      end ].

Lemma lex_default_shape (top : yp_lex_mode_t) (p p' : yp_parser_t) (ty : yp_token_type_t) :
  lex_default top p = Some (ty, p') ->
  let ps := run_scan is_non_newline_whitespace_char p in
  default_shape (byte_at (source p) (cur ps)) (advance (set_start ps (cur ps)) 1) ty p'.
Proof.
  unfold lex_default.
  set (ps := run_scan is_non_newline_whitespace_char p).
  set (c := peek (set_start ps (cur ps)) 0).
  assert (byte_at (source p) (cur ps) = c) as Hc.
  { unfold c, peek. cbn. f_equal. unfold cur. cbn. lia. }
  cbn zeta. rewrite Hc. clear Hc.
  set (p0 := advance (set_start ps (cur ps)) 1).
  clearbody p0. clearbody c. clear ps.
  unfold ret_match, ret, lex_percent.
  split_case; shape_leaf c.
Qed.

(** *** Counting newlines *)

Lemma count_newlines_from_nonneg (src : list Z) (n : nat) (a : Z) :
  0 <= count_newlines_from src n a.
Proof.
  revert a. induction n as [|k IH]; intros a; cbn [count_newlines_from]; [lia|].
  specialize (IH (a + 1)). destruct (byte_at src a =? ch "010"); lia.
Qed.

Lemma count_newlines_from_app (src : list Z) (n m : nat) (a : Z) :
  count_newlines_from src (n + m) a
  = count_newlines_from src n a + count_newlines_from src m (a + Z.of_nat n).
Proof.
  revert a. induction n as [|k IH]; intros a.
  - cbn [Nat.add count_newlines_from]. replace (a + Z.of_nat 0) with a by lia. lia.
  - cbn [Nat.add count_newlines_from]. rewrite IH.
    replace (a + 1 + Z.of_nat k) with (a + Z.of_nat (S k)) by lia. lia.
Qed.

Lemma count_newlines_nonneg (src : list Z) (a b : Z) : 0 <= count_newlines src a b.
Proof. apply count_newlines_from_nonneg. Qed.

Lemma count_newlines_empty (src : list Z) (a b : Z) : b <= a -> count_newlines src a b = 0.
Proof.
  intros H. unfold count_newlines. replace (Z.to_nat (b - a)) with 0%nat by lia. reflexivity.
Qed.

Lemma count_newlines_split (src : list Z) (a b c : Z) :
  a <= b <= c ->
  count_newlines src a c = count_newlines src a b + count_newlines src b c.
Proof.
  intros H. unfold count_newlines.
  replace (Z.to_nat (c - a)) with (Z.to_nat (b - a) + Z.to_nat (c - b))%nat by lia.
  rewrite count_newlines_from_app. do 2 f_equal. lia.
Qed.

Lemma count_newlines_step (src : list Z) (a b : Z) :
  a < b ->
  count_newlines src a b
  = (if byte_at src a =? ch "010" then 1 else 0) + count_newlines src (a + 1) b.
Proof.
  intros H. unfold count_newlines.
  replace (Z.to_nat (b - a)) with (S (Z.to_nat (b - (a + 1)))) by lia. reflexivity.
Qed.

Lemma count_newlines_mono (src : list Z) (a a' b b' : Z) :
  a' <= a -> a <= b -> b <= b' ->
  count_newlines src a b <= count_newlines src a' b'.
Proof.
  intros H1 H2 H3.
  rewrite (count_newlines_split src a' a b') by lia.
  rewrite (count_newlines_split src a b b') by lia.
  pose proof (count_newlines_nonneg src a' a).
  pose proof (count_newlines_nonneg src b b'). lia.
Qed.

Lemma count_newlines_one (src : list Z) (a b i : Z) :
  a <= i < b -> byte_at src i = ch "010" -> 1 <= count_newlines src a b.
Proof.
  intros H Hb.
  rewrite (count_newlines_split src a i b) by lia.
  rewrite (count_newlines_step src i b) by lia.
  rewrite Hb. change (ch "010" =? ch "010") with true.
  pose proof (count_newlines_nonneg src a i).
  pose proof (count_newlines_nonneg src (i + 1) b). lia.
Qed.

(** *** The line counts of the loops *)

Lemma list_separator_lines (src : list Z) (fuel : nat) (e line : Z) :
  let r := list_separator src fuel e line in
  e <= fst r /\ snd r = line + count_newlines src e (fst r).
Proof.
  revert e line. induction fuel as [|k IH]; intros e line; cbn [list_separator].
  - cbn. rewrite count_newlines_empty by lia. lia.
  - destruct (is_whitespace_char (byte_at src (e + 1))).
    + specialize (IH (e + 1) (if byte_at src e =? ch "010" then line + 1 else line)).
      cbn zeta in IH. destruct IH as (H1 & H2). split; [lia|].
      rewrite H2. rewrite (count_newlines_step src e) by lia.
      destruct (byte_at src e =? ch "010"); lia.
    + cbn [fst snd]. split; [lia|].
      rewrite (count_newlines_step src e) by lia.
      rewrite count_newlines_empty by lia.
      destruct (byte_at src e =? ch "010"); lia.
Qed.

Lemma regexp_content_lines (src : list Z) (pend term_ tstart : Z) (fuel : nat) (e line : Z) :
  let r := regexp_content src pend term_ tstart fuel e line in
  e <= snd (fst r) /\ snd r = line + count_newlines src e (snd (fst r)).
Proof.
  revert e line. induction fuel as [|k IH]; intros e line; cbn [regexp_content].
  - cbn. rewrite count_newlines_empty by lia. lia.
  - destruct (e <? pend); [|cbn; rewrite count_newlines_empty by lia; lia].
    destruct (byte_at src e =? term_); [cbn; rewrite count_newlines_empty by lia; lia|].
    destruct (byte_at src e =? ch "#") eqn:Eh.
    + apply Z.eqb_eq in Eh. rewrite Eh. change (ch "#" =? ch "010") with false.
      cbn [andb].
      destruct (byte_at src (e + 1) =? ch "{").
      * destruct (tstart <? e); cbn; rewrite count_newlines_empty by lia; lia.
      * specialize (IH (e + 1) line). cbn zeta in IH. destruct IH as (H1 & H2).
        split; [lia|]. rewrite H2. rewrite (count_newlines_step src e) by lia.
        rewrite Eh. change (ch "#" =? ch "010") with false. cbv iota. lia.
    + cbn [andb].
      specialize (IH (e + 1) (if byte_at src e =? ch "010" then line + 1 else line)).
      cbn zeta in IH. destruct IH as (H1 & H2). split; [lia|].
      rewrite H2. rewrite (count_newlines_step src e) by lia.
      destruct (byte_at src e =? ch "010"); lia.
Qed.

Lemma string_content_lines (src : list Z) (pend term_ : Z) (i : bool) (tstart : Z)
    (fuel : nat) (e line : Z) :
  let r := string_content src pend term_ i tstart fuel e line in
  e <= snd (fst r) /\ snd r = line + count_newlines src e (snd (fst r)).
Proof.
  revert e line. induction fuel as [|k IH]; intros e line; cbn [string_content].
  - cbn. rewrite count_newlines_empty by lia. lia.
  - destruct (e <? pend); [|cbn; rewrite count_newlines_empty by lia; lia].
    destruct (byte_at src e =? term_); [cbn; rewrite count_newlines_empty by lia; lia|].
    assert (let r := string_content src pend term_ i tstart k (e + 1)
                       (if byte_at src e =? ch "010" then line + 1 else line) in
            e <= snd (fst r) /\ snd r = line + count_newlines src e (snd (fst r))) as Hgo.
    { specialize (IH (e + 1) (if byte_at src e =? ch "010" then line + 1 else line)).
      cbn zeta in *. destruct IH as (H1 & H2). split; [lia|].
      rewrite H2. rewrite (count_newlines_step src e) by lia.
      destruct (byte_at src e =? ch "010"); lia. }
    cbn zeta in Hgo.
    destruct (i && (byte_at src e =? ch "#")) eqn:Eh; [|exact Hgo].
    destruct (byte_at src (e + 1) =? ch "@"); [exact Hgo|].
    destruct (byte_at src (e + 1) =? ch "$"); [exact Hgo|].
    destruct (byte_at src (e + 1) =? ch "{"); [|exact Hgo].
    apply andb_true_iff in Eh as (_ & Eh). apply Z.eqb_eq in Eh. rewrite Eh.
    change (ch "#" =? ch "010") with false.
    destruct (tstart <? e); cbn; rewrite count_newlines_empty by lia; lia.
Qed.

(** *** The line number, mode by mode *)

Lemma lines_post_kept (p p' : yp_parser_t) : token_kept p p' -> lines_post p p'.
Proof.
  intros (_ & H2 & H3 & H4). unfold lines_post.
  pose proof (count_newlines_nonneg (source p) (cur p) (cur p')).
  repeat split; try assumption; lia.
Qed.

Lemma lines_post_then_kept (p x y : yp_parser_t) :
  lines_post p x -> token_kept x y -> lines_post p y.
Proof.
  intros (H1 & H2 & H3 & H4) (_ & K2 & K3 & K4). unfold lines_post.
  pose proof (count_newlines_mono (source p) (cur p) (cur p) (cur x) (cur y)).
  rewrite K3, K4. repeat split; try assumption; lia.
Qed.

Lemma token_kept_start (p p' : yp_parser_t) :
  token_kept (set_start p (cur p)) p' -> start (current p') = cur p /\ lines_post p p'.
Proof.
  intros (K1 & K2 & K3 & K4). split; [exact K1|].
  change (cur (set_start p (cur p))) with (cur p) in K2.
  change (lineno (set_start p (cur p))) with (lineno p) in K3.
  change (source (set_start p (cur p))) with (source p) in K4.
  pose proof (count_newlines_nonneg (source p) (cur p) (cur p')).
  repeat split; try assumption; lia.
Qed.

Lemma lines_post_loop (p : yp_parser_t) (e' line' : Z) :
  cur p <= e' -> lineno p <= line' ->
  line' <= lineno p + count_newlines (source p) (cur p) e' ->
  let x := set_lineno (set_end (set_start p (cur p)) e') line' in
  start (current x) = cur p /\ lines_post p x.
Proof.
  intros H1 H2 H3. split; [reflexivity|]. repeat split; assumption.
Qed.

Lemma lex_embdoc_lines (p p' : yp_parser_t) (ty : yp_token_type_t) :
  0 <= cur p -> lex_embdoc default_error_handler p = Some (ty, p') ->
  start (current p') = cur p /\ lines_post p p'.
Proof.
  intros Hpos. unfold lex_embdoc.
  set (p1 := set_start p (cur p)).
  destruct (strncmp_eq _ _ _ _).
  - destruct (pop_lex_mode (advance p1 5)) as [y|] eqn:Hp; [|discriminate].
    cbn [mbind option_bind]. intros [= <- <-].
    apply token_kept_start. fold p1. kept_chain.
  - change (source p1) with (source p). change (cur p1) with (cur p).
    change (parser_end p1) with (parser_end p).
    set (e' := embdoc_line (source p) (parser_end p) (fuel_of (source p)) (cur p)).
    pose proof (embdoc_line_mono (source p) (parser_end p) (fuel_of (source p)) (cur p))
      as (Hle & _). fold e' in Hle.
    change (cur (set_end p1 e')) with e'.
    change (parser_end (set_end p1 e')) with (parser_end p).
    destruct (e' <? parser_end p) eqn:L.
    + intros [= <- <-]. apply Z.ltb_lt in L.
      assert (cur p < e' /\ byte_at (source p) (e' - 1) = ch "010") as (Hlt & Hnl).
      { destruct (embdoc_line_exit (source p) (parser_end p) (fuel_of (source p)) (cur p))
          as [H|H]; [unfold parser_end; apply fuel_of_enough; exact Hpos| |exact H].
        fold e' in H. lia. }
      apply lines_post_loop; [lia|change (lineno (set_end p1 e')) with (lineno p); lia|].
      change (lineno (set_end p1 e')) with (lineno p).
      pose proof (count_newlines_one (source p) (cur p) e' (e' - 1) ltac:(lia) Hnl). lia.
    + intros [= <- <-]. apply token_kept_start. fold p1.
      repeat split. exact Hle.
Qed.

Lemma lex_list_lines (top : yp_lex_mode_t) (p p' : yp_parser_t) (ty : yp_token_type_t) :
  lex_list default_error_handler top p = Some (ty, p') ->
  start (current p') = cur p /\ lines_post p p'.
Proof.
  unfold lex_list. set (p1 := set_start p (cur p)).
  change (source p1) with (source p). change (cur p1) with (cur p).
  change (parser_end p1) with (parser_end p). change (lineno p1) with (lineno p).
  destruct (is_whitespace_char (peek p 0)).
  - pose proof (list_separator_lines (source p) (fuel_of (source p)) (cur p) (lineno p))
      as (H1 & H2). cbn zeta in H1, H2.
    destruct (list_separator _ _ _ _) as [e' line']. cbn [fst snd] in H1, H2.
    intros [= <- <-]. pose proof (count_newlines_nonneg (source p) (cur p) e').
    apply lines_post_loop; lia.
  - pose proof (list_word_spec (source p) (parser_end p) (term top) (start (current p1))
                  (fuel_of (source p)) (cur p)) as (H1 & _). cbn zeta in H1.
    destruct (list_word _ _ _ _ _ _) as [x e']. cbn [fst snd] in H1.
    assert (token_kept p1 (set_end p1 e')) as K by (repeat split; exact H1).
    destruct x.
    + intros [= <- <-]. apply token_kept_start. exact K.
    + destruct (pop_lex_mode _) as [y|] eqn:Hp; [|discriminate].
      cbn [mbind option_bind]. intros [= <- <-]. apply token_kept_start. fold p1.
      apply (token_kept_pop p1 (advance (set_end p1 e') 1) y); [|exact Hp].
      apply token_kept_advance; [exact K|lia].
    + intros [= <- <-]. apply token_kept_start. exact K.
    + intros [= <- <-]. apply token_kept_start. exact K.
Qed.

Lemma literal_post_then_kept (p x y : yp_parser_t) :
  start (current x) = cur p /\ lines_post p x -> token_kept x y ->
  start (current y) = cur p /\ lines_post p y.
Proof.
  intros (H1 & H2) K. split.
  - destruct K as (K & _). congruence.
  - eapply lines_post_then_kept; eassumption.
Qed.

Lemma lex_regexp_lines (top : yp_lex_mode_t) (p p' : yp_parser_t) (ty : yp_token_type_t) :
  lex_regexp default_error_handler top p = Some (ty, p') ->
  start (current p') = cur p /\ lines_post p p'.
Proof.
  unfold lex_regexp, match_. set (p1 := set_start p (cur p)).
  destruct (peek p1 0 =? term top).
  - destruct (pop_lex_mode _) as [y|] eqn:Hp; [|discriminate].
    cbn [mbind option_bind]. intros [= <- <-].
    apply token_kept_start. fold p1. kept_chain.
  - change (source p1) with (source p). change (cur p1) with (cur p).
    change (parser_end p1) with (parser_end p). change (lineno p1) with (lineno p).
    pose proof (regexp_content_lines (source p) (parser_end p) (term top)
                  (start (current p1)) (fuel_of (source p)) (cur p) (lineno p)) as (H1 & H2).
    cbn zeta in H1, H2.
    destruct (regexp_content _ _ _ _ _ _ _) as [[x e'] line']. cbn [fst snd] in H1, H2.
    pose proof (count_newlines_nonneg (source p) (cur p) e') as Hc.
    pose proof (lines_post_loop p e' line' H1 ltac:(lia) ltac:(lia)) as L. cbn zeta in L.
    fold p1 in L.
    destruct x; intros [= <- <-]; try exact L;
      apply (literal_post_then_kept p _ _ L); kept_chain.
Qed.

Lemma lex_string_lines (top : yp_lex_mode_t) (p p' : yp_parser_t) (ty : yp_token_type_t) :
  lex_string default_error_handler top p = Some (ty, p') ->
  start (current p') = cur p /\ lines_post p p'.
Proof.
  unfold lex_string, match_. set (p1 := set_start p (cur p)).
  destruct (peek p1 0 =? term top).
  - destruct (pop_lex_mode _) as [y|] eqn:Hp; [|discriminate].
    cbn [mbind option_bind]. intros [= <- <-].
    apply token_kept_start. fold p1. kept_chain.
  - change (source p1) with (source p). change (cur p1) with (cur p).
    change (parser_end p1) with (parser_end p). change (lineno p1) with (lineno p).
    pose proof (string_content_lines (source p) (parser_end p) (term top) (interp top)
                  (start (current p1)) (fuel_of (source p)) (cur p) (lineno p)) as (H1 & H2).
    cbn zeta in H1, H2.
    destruct (string_content _ _ _ _ _ _ _ _) as [[x e'] line']. cbn [fst snd] in H1, H2.
    pose proof (count_newlines_nonneg (source p) (cur p) e') as Hc.
    pose proof (lines_post_loop p e' line' H1 ltac:(lia) ltac:(lia)) as L. cbn zeta in L.
    fold p1 in L.
    destruct x; intros [= <- <-]; try exact L;
      apply (literal_post_then_kept p _ _ L); kept_chain.
Qed.

Lemma lex_symbol_lines (p p' : yp_parser_t) (ty : yp_token_type_t) :
  lex_symbol p = Some (ty, p') ->
  start (current p') = cur p /\ lines_post p p'.
Proof.
  unfold lex_symbol, ret. set (p1 := set_start p (cur p)).
  split_case; intros [= <- <-]; apply token_kept_start; fold p1; kept_chain.
Qed.

Lemma lex_default_lines (top : yp_lex_mode_t) (p p' : yp_parser_t) (ty : yp_token_type_t) :
  lex_default top p = Some (ty, p') -> lines_post p p'.
Proof.
  intros H. apply lex_default_shape in H. cbn zeta in H.
  pose proof (scan_while_le is_non_newline_whitespace_char (source p) (fuel_of (source p))
                (cur p)) as Hle.
  set (ps := run_scan is_non_newline_whitespace_char p) in *.
  change (scan_while _ _ _ _) with (cur ps) in Hle.
  destruct H as (H1 & H2 & H3 & H4 & H5).
  change (cur (advance (set_start ps (cur ps)) 1)) with (cur ps + 1) in *.
  change (lineno (advance (set_start ps (cur ps)) 1)) with (lineno p) in *.
  change (source (advance (set_start ps (cur ps)) 1)) with (source p) in *.
  pose proof (count_newlines_nonneg (source p) (cur p) (cur p')) as Hc.
  split; [exact H3|]. split; [lia|].
  destruct (Z.eq_dec (byte_at (source p) (cur ps)) (ch "010")) as [E|E].
  - destruct (H4 E) as (_ & Hcur & Hl).
    pose proof (count_newlines_one (source p) (cur p) (cur p') (cur ps) ltac:(lia) E). lia.
  - specialize (H5 E). lia.
Qed.

Lemma lex_token_type_lines (p p' : yp_parser_t) (ty : yp_token_type_t) :
  0 <= cur p -> lex_token_type default_error_handler p = Some (ty, p') -> lines_post p p'.
Proof.
  intros Hpos. unfold lex_token_type.
  destruct (load p (lex_modes_current p)) as [top|]; [|discriminate].
  cbn [mbind option_bind]. destruct (mode top).
  - apply lex_default_lines.
  - intros H. apply lex_embdoc_lines in H; [apply H|exact Hpos].
  - apply lex_default_lines.
  - intros H. apply lex_list_lines in H. apply H.
  - intros H. apply lex_regexp_lines in H. apply H.
  - intros H. apply lex_string_lines in H. apply H.
  - intros H. apply lex_symbol_lines in H. apply H.
Qed.

Lemma yp_lex_token_lines (p p' : yp_parser_t) :
  0 <= cur p -> yp_lex_token default_error_handler p = Some p' -> lines_post p p'.
Proof.
  intros Hpos. unfold yp_lex_token.
  destruct (lex_token_type _ _) as [[ty q]|] eqn:E; [|discriminate].
  cbn [mbind option_bind]. intros [= <-].
  apply lex_token_type_lines in E; [|exact Hpos]. exact E.
Qed.

(** X10: where the token of a call starts.  In the two code modes the
    lexer skips the longest run of blanks (every whitespace byte but the
    newline) from the old cursor and starts the token at the first byte
    after it, which it always consumes, so the token is not empty and only
    blanks lie between two tokens.  In the literal modes and the symbol
    mode the token starts exactly at the old cursor. *)
Theorem token_start (p p' : yp_parser_t) (top : yp_lex_mode_t) :
  0 <= cur p -> top_mode p = Some top ->
  yp_lex_token default_error_handler p = Some p' ->
  match mode top with
  | YP_LEX_DEFAULT | YP_LEX_EMBEXPR =>
      cur p <= start (current p') /\ start (current p') < cur p'
      /\ (forall i, cur p <= i < start (current p') ->
            is_non_newline_whitespace_char (byte_at (source p) i) = true)
      /\ is_non_newline_whitespace_char (byte_at (source p) (start (current p'))) = false
  | _ => start (current p') = cur p
  end.
Proof.
  intros Hpos Ht. rewrite (yp_lex_token_unfold _ p top Ht).
  set (p0 := set_previous p (current p)).
  assert (forall q ty, lex_default top p0 = Some (ty, q) ->
            cur p <= start (current q) /\ start (current q) < cur q
            /\ (forall i, cur p <= i < start (current q) ->
                  is_non_newline_whitespace_char (byte_at (source p) i) = true)
            /\ is_non_newline_whitespace_char (byte_at (source p) (start (current q))) = false)
    as Hcode.
  { intros q ty H. apply lex_default_shape in H. cbn zeta in H.
    destruct H as (H1 & H2 & _).
    set (e := scan_while is_non_newline_whitespace_char (source p) (fuel_of (source p)) (cur p)).
    change (start (current (advance (set_start
              (run_scan is_non_newline_whitespace_char p0)
              (cur (run_scan is_non_newline_whitespace_char p0))) 1))) with e in H1.
    change (cur (advance (set_start
              (run_scan is_non_newline_whitespace_char p0)
              (cur (run_scan is_non_newline_whitespace_char p0))) 1)) with (e + 1) in H2.
    rewrite H1. split; [apply scan_while_le|]. split; [lia|]. split.
    - intros i Hi. eapply scan_while_all. exact Hi.
    - apply scan_while_exit; [reflexivity|]. apply fuel_of_enough. exact Hpos. }
  destruct (mode top).
  - destruct (lex_default top p0) as [[ty q]|] eqn:E; [|discriminate].
    cbn [mbind option_bind]. intros [= <-]. exact (Hcode q ty eq_refl).
  - destruct (lex_embdoc _ p0) as [[ty q]|] eqn:E; [|discriminate].
    cbn [mbind option_bind]. intros [= <-].
    apply lex_embdoc_lines in E; [exact (proj1 E)|exact Hpos].
  - destruct (lex_default top p0) as [[ty q]|] eqn:E; [|discriminate].
    cbn [mbind option_bind]. intros [= <-]. exact (Hcode q ty eq_refl).
  - destruct (lex_list _ top p0) as [[ty q]|] eqn:E; [|discriminate].
    cbn [mbind option_bind]. intros [= <-]. apply lex_list_lines in E. exact (proj1 E).
  - destruct (lex_regexp _ top p0) as [[ty q]|] eqn:E; [|discriminate].
    cbn [mbind option_bind]. intros [= <-]. apply lex_regexp_lines in E. exact (proj1 E).
  - destruct (lex_string _ top p0) as [[ty q]|] eqn:E; [|discriminate].
    cbn [mbind option_bind]. intros [= <-]. apply lex_string_lines in E. exact (proj1 E).
  - destruct (lex_symbol p0) as [[ty q]|] eqn:E; [|discriminate].
    cbn [mbind option_bind]. intros [= <-]. apply lex_symbol_lines in E. exact (proj1 E).
Qed.

Lemma token_start_witness :
  let p := state_after 1 (bytes_of_string "a  b") in
  start (current (state_after 2 (bytes_of_string "a  b"))) = 3
  /\ is_non_newline_whitespace_char (byte_at (source p) 2) = true.
Proof.
  intros p.
  assert (0 <= cur p) as H0 by (vm_compute; discriminate).
  assert (top_mode p = Some (lex_mode_lit YP_LEX_DEFAULT 0 false)) as Ht
    by (vm_compute; reflexivity).
  assert (yp_lex_token default_error_handler p
          = Some (state_after 2 (bytes_of_string "a  b"))) as H
    by (vm_compute; reflexivity).
  pose proof (token_start p _ _ H0 Ht H) as (_ & _ & Hall & _).
  split; [vm_compute; reflexivity|].
  apply Hall. vm_compute. split; [discriminate|reflexivity].
Defined.

(** X11: along every run the line number starts at 1, never decreases,
    and is at most 1 plus the number of newline bytes the cursor has moved
    over; each call adds at most the number of newlines among the bytes it
    moves the cursor over. *)
Theorem lineno_bound (n : nat) (src : list Z) (p : yp_parser_t) :
  run n src = Some p ->
  0 <= cur p
  /\ 1 <= lineno p <= 1 + count_newlines src 0 (cur p)
  /\ forall p', yp_lex_token default_error_handler p = Some p' ->
       cur p <= cur p'
       /\ lineno p <= lineno p' <= lineno p + count_newlines src (cur p) (cur p').
Proof.
  intros H.
  assert (0 <= cur p /\ 1 <= lineno p <= 1 + count_newlines src 0 (cur p)) as (Hpos & Hl).
  { revert p H. unfold run. induction n as [|k IH]; intros p.
    - intros [= <-]. split; [unfold cur; cbn; lia|].
      rewrite count_newlines_empty by (unfold cur; cbn; lia). cbn. lia.
    - cbn [lex_n]. destruct (lex_n _ k _) as [q|] eqn:Hq; [|discriminate].
      cbn [mbind option_bind]. intros H.
      destruct (IH q eq_refl) as (Hpos & Hl).
      pose proof (run_offsets src k q Hq) as (Hs & _).
      apply yp_lex_token_lines in H as (_ & H2 & H3 & H4); [|exact Hpos].
      rewrite Hs in H4.
      rewrite (count_newlines_split src 0 (cur q) (cur p)) by lia. lia. }
  split; [exact Hpos|]. split; [exact Hl|].
  intros p' H'. pose proof (run_offsets src n p H) as (Hs & _).
  apply yp_lex_token_lines in H' as (_ & H2 & H3 & H4); [|exact Hpos].
  rewrite Hs in H4. lia.
Qed.

Lemma lineno_bound_witness :
  let src := bytes_of_string "#a" ++ NL ++ bytes_of_string "b" ++ NL in
  lineno (state_after 3 src) <= 1 + count_newlines src 0 (cur (state_after 3 src))
  /\ lineno (state_after 3 src) = 2 /\ count_newlines src 0 (cur (state_after 3 src)) = 2.
Proof.
  intros src.
  assert (run 3 src = Some (state_after 3 src)) as H by (vm_compute; reflexivity).
  destruct (lineno_bound 3 src _ H) as (_ & (_ & Hb) & _).
  split; [exact Hb|]. split; vm_compute; reflexivity.
Defined.

(** ** Where EOF comes from *)

Lemma keywords_not_eof :
  Forall (fun '(_, _, tok) => tok <> YP_TOKEN_EOF) all_keywords.
Proof.
  unfold all_keywords, keywords.
  repeat (apply List.Forall_cons; [discriminate|]). apply List.Forall_nil.
Qed.

Lemma lex_identifier_not_eof (p q : yp_parser_t) (ty : yp_token_type_t) :
  lex_identifier p = (ty, q) -> ty <> YP_TOKEN_EOF.
Proof.
  unfold lex_identifier.
  set (p1 := run_scan is_identifier_char p).
  destruct (if (cur p1 + 1 <? parser_end p1) && negb (peek p1 1 =? ch "=")
            then match_either p1 (ch "!") (ch "?") else (false, p1)) as [suffix p2].
  destruct suffix.
  - destruct (negb (previous_is_dot p2) && KEYWORD p2 _ "defined?" 8);
      intros [= <- _]; discriminate.
  - destruct (if negb (previous_is_dot p2) then first_keyword p2 _ keywords else None)
      as [tok|] eqn:Hk.
    + intros [= <- _]. destruct (negb (previous_is_dot p2)); [|discriminate].
      apply first_keyword_found in Hk as (K & size & Hin & _).
      pose proof keywords_not_eof as Hn. rewrite List.Forall_forall in Hn.
      exact (Hn _ (or_intror Hin)).
    + destruct (_ && _); intros [= <- _]; discriminate.
Qed.

Lemma lex_numeric_not_eof (p q : yp_parser_t) (ty : yp_token_type_t) :
  lex_numeric p = (ty, q) -> ty <> YP_TOKEN_EOF.
Proof.
  unfold lex_numeric, match_.
  destruct (lex_numeric_prefix p) as [t x] eqn:E.
  apply lex_numeric_prefix_kind in E as ([-> | [-> | ->]] & _);
    repeat match goal with
    | |- context [if ?c then (_, _) else (_, _)] => destruct c
    end; intros [= <- _]; discriminate.
Qed.

Lemma lex_global_variable_not_eof (p q : yp_parser_t) (ty : yp_token_type_t) :
  lex_global_variable p = (ty, q) -> ty <> YP_TOKEN_EOF.
Proof.
  unfold lex_global_variable.
  repeat match goal with
  | |- (if ?c then _ else _) = _ -> _ => destruct c
  end; intros [= <- _]; discriminate.
Qed.

Ltac next_lexer_eof :=
  match goal with
  | |- context [lex_numeric ?p] =>
      let t := fresh "t" in let q := fresh "q" in let E := fresh "E" in
      destruct (lex_numeric p) as [t q] eqn:E; apply lex_numeric_not_eof in E
  | |- context [lex_global_variable ?p] =>
      let t := fresh "t" in let q := fresh "q" in let E := fresh "E" in
      destruct (lex_global_variable p) as [t q] eqn:E; apply lex_global_variable_not_eof in E
  | |- context [lex_identifier ?p] =>
      let t := fresh "t" in let q := fresh "q" in let E := fresh "E" in
      destruct (lex_identifier p) as [t q] eqn:E; apply lex_identifier_not_eof in E
  end.

(** Split a case of [lex_token_type] along its tests, keeping of each
    specific lexer that its token is not EOF. *)
Ltac split_case_eof :=
  repeat first
    [ match goal with
      | |- (if ?b then _ else _) = _ -> _ => destruct b eqn:?
      | |- (?m ≫= _) = _ -> _ => destruct m eqn:?; cbn [mbind option_bind]
      end
    | match goal with
      | |- context [match_either ?p ?a ?b] =>
          rewrite (match_either_test p a b); cbv beta iota
      end
    | next_match
    | next_def_or_dot
    | next_lexer_eof
    | match goal with
      | |- (match ?c with _ => _ end) = _ -> _ => destruct c eqn:?
      end ].

(** Close a branch that does not return EOF. *)
Ltac not_eof_leaf :=
  first
    [ discriminate
    | let H := fresh "H" in let Ety := fresh "Ety" in
      intros H; injection H as Ety _;
      first [ discriminate Ety
            | match type of Ety with
              | (if ?r then _ else _) = _ =>
                  destruct r;
                  first [ discriminate Ety
                        | exfalso;
                          match goal with
                          | N : ?t <> YP_TOKEN_EOF |- _ => exact (N Ety)
                          end ]
              end
            | exfalso;
              match goal with
              | N : ?t <> YP_TOKEN_EOF |- _ => exact (N Ety)
              end ] ].

Lemma lex_default_eof (top : yp_lex_mode_t) (p p' : yp_parser_t) :
  lex_default top p = Some (YP_TOKEN_EOF, p') ->
  let s := cur (run_scan is_non_newline_whitespace_char p) in
  let c := byte_at (source p) s in
  ((c = 0 \/ c = 4 \/ c = 26) /\ cur p' = s + 1)
  \/ (c = ch "<" /\ byte_at (source p) (s + 1) = ch "<"
      /\ (byte_at (source p) (s + 2) = ch "-" \/ byte_at (source p) (s + 2) = ch "~")
      /\ cur p' = s + 3).
Proof.
  unfold lex_default.
  set (ps := run_scan is_non_newline_whitespace_char p).
  set (c := peek (set_start ps (cur ps)) 0).
  assert (byte_at (source p) (cur ps) = c) as Hc.
  { unfold c, peek. cbn. f_equal. unfold cur. cbn. lia. }
  cbn zeta. rewrite Hc. clear Hc.
  set (p0 := advance (set_start ps (cur ps)) 1).
  assert (forall k, peek p0 k = byte_at (source p) (cur ps + 1 + k)) as Hpeek
    by (intros k; reflexivity).
  assert (cur p0 = cur ps + 1) as Hcur by reflexivity.
  clearbody p0. clearbody c. clearbody ps.
  destruct ((c =? 0) || (c =? 4) || (c =? 26)) eqn:Eof.
  - intros [= <-]. left. split; [|exact Hcur].
    apply orb_true_iff in Eof as [Eof|Eof]; [apply orb_true_iff in Eof as [Eof|Eof]|];
      apply Z.eqb_eq in Eof; auto.
  - unfold ret_match, ret, lex_percent.
    split_case_eof; try not_eof_leaf.
    intros [= <-]. cbv iota. right.
    repeat match goal with
    | H : (_ =? _) = true |- _ => apply Z.eqb_eq in H
    | H : (_ || _) = true |- _ => apply orb_true_iff in H
    | H : _ /\ _ |- _ => destruct H
    end.
    subst.
    split; [reflexivity|]. split.
    { match goal with
      | H : peek p0 0 = ch "<" |- _ => rewrite Hpeek, Z.add_0_r in H; exact H
      end. }
    split.
    { match goal with
      | H : _ \/ _ |- _ =>
          destruct H as [H|H]; apply Z.eqb_eq in H; rewrite peek_advance, Hpeek in H;
          replace (cur ps + 1 + (1 + 0)) with (cur ps + 2) in H by lia;
          [left|right]; exact H
      end. }
    change (cur (advance (advance p0 1) 1)) with (cur p0 + 1 + 1).
    clear - Hcur. lia.
Qed.

Lemma lex_embdoc_eof (p p' : yp_parser_t) :
  lex_embdoc default_error_handler p = Some (YP_TOKEN_EOF, p') -> parser_end p <= cur p'.
Proof.
  unfold lex_embdoc. set (p1 := set_start p (cur p)).
  destruct (strncmp_eq _ _ _ _).
  - destruct (pop_lex_mode _); discriminate.
  - destruct (_ <? _) eqn:L; [discriminate|].
    intros [= <-]. apply Z.ltb_ge in L. exact L.
Qed.

Lemma lex_list_eof (top : yp_lex_mode_t) (p p' : yp_parser_t) :
  0 <= cur p -> lex_list default_error_handler top p = Some (YP_TOKEN_EOF, p') ->
  parser_end p <= cur p'.
Proof.
  intros Hpos. unfold lex_list. set (p1 := set_start p (cur p)).
  destruct (is_whitespace_char (peek p 0)).
  - destruct (list_separator _ _ _ _). discriminate.
  - pose proof (list_word_spec (source p1) (parser_end p1) (term top) (start (current p1))
                  (fuel_of (source p1)) (cur p1)) as (_ & _ & _ & _ & Hx).
    pose proof (list_word_exit (source p1) (parser_end p1) (term top) (start (current p1))
                  (fuel_of (source p1)) (cur p1)) as He.
    cbn zeta in Hx.
    destruct (list_word _ _ _ _ _ _) as [x e']. cbn [fst snd] in Hx, He.
    unfold ret.
    destruct x; [discriminate|destruct (pop_lex_mode _); discriminate|congruence|].
    intros [= <-]. apply He; [|reflexivity].
    unfold parser_end. apply fuel_of_enough. exact Hpos.
Qed.

Lemma lex_regexp_eof (top : yp_lex_mode_t) (p p' : yp_parser_t) :
  0 <= cur p -> lex_regexp default_error_handler top p = Some (YP_TOKEN_EOF, p') ->
  parser_end p <= cur p'.
Proof.
  intros Hpos. unfold lex_regexp, match_. set (p1 := set_start p (cur p)).
  destruct (peek p1 0 =? term top).
  - destruct (pop_lex_mode _); discriminate.
  - pose proof (regexp_content_spec (source p1) (parser_end p1) (term top)
                  (start (current p1)) (fuel_of (source p1)) (cur p1) (lineno p1))
      as (_ & _ & _ & _ & Hx).
    pose proof (regexp_content_exit (source p1) (parser_end p1) (term top)
                  (start (current p1)) (fuel_of (source p1)) (cur p1) (lineno p1)) as He.
    cbn zeta in Hx.
    destruct (regexp_content _ _ _ _ _ _ _) as [[x e'] line']. cbn [fst snd] in Hx, He.
    unfold ret. destruct x; [discriminate|congruence|discriminate|].
    intros [= <-]. apply He; [|reflexivity].
    unfold parser_end. apply fuel_of_enough. exact Hpos.
Qed.

Lemma lex_string_eof (top : yp_lex_mode_t) (p p' : yp_parser_t) :
  0 <= cur p -> lex_string default_error_handler top p = Some (YP_TOKEN_EOF, p') ->
  parser_end p <= cur p'.
Proof.
  intros Hpos. unfold lex_string, match_. set (p1 := set_start p (cur p)).
  destruct (peek p1 0 =? term top).
  - destruct (pop_lex_mode _); discriminate.
  - pose proof (string_content_spec (source p1) (parser_end p1) (term top) (interp top)
                  (start (current p1)) (fuel_of (source p1)) (cur p1) (lineno p1))
      as (_ & _ & _ & _ & Hx).
    pose proof (string_content_exit (source p1) (parser_end p1) (term top) (interp top)
                  (start (current p1)) (fuel_of (source p1)) (cur p1) (lineno p1)) as He.
    cbn zeta in Hx.
    destruct (string_content _ _ _ _ _ _ _ _) as [[x e'] line']. cbn [fst snd] in Hx, He.
    unfold ret. destruct x; [discriminate|congruence|discriminate|].
    intros [= <-]. apply He; [|reflexivity].
    unfold parser_end. apply fuel_of_enough. exact Hpos.
Qed.

Lemma lex_symbol_not_eof (p p' : yp_parser_t) :
  lex_symbol p = Some (YP_TOKEN_EOF, p') -> False.
Proof.
  unfold lex_symbol, ret. split_case_eof; not_eof_leaf.
Qed.

Lemma lex_symbol_advances (p p' : yp_parser_t) (ty : yp_token_type_t) :
  cur p < parser_end p -> lex_symbol p = Some (ty, p') -> cur p < cur p'.
Proof.
  intros Hin. unfold lex_symbol, ret. set (p1 := set_start p (cur p)).
  replace (cur p1 <? parser_end p1) with true by (symmetry; apply Z.ltb_lt; exact Hin).
  assert (forall x, token_kept (advance p1 1) x -> cur p < cur x) as K.
  { intros x (_ & K & _). change (cur (advance p1 1)) with (cur p + 1) in K. lia. }
  split_case; intros [= <- <-]; apply K; kept_chain.
Qed.

(** X12: where an EOF token comes from, with the handlers of the
    extension.  In the two code modes it is returned only on a NUL, ^D or
    ^Z byte (one byte long, inside the buffer or at its end) or on a
    heredoc opener, the two [<] and the [-] or [~] after them (three bytes
    long).  In a literal mode it is returned only by the unterminated
    handler, with the cursor at or past the end of the buffer.  The symbol
    mode never returns it. *)
Theorem eof_origin (p p' : yp_parser_t) (top : yp_lex_mode_t) :
  0 <= cur p -> top_mode p = Some top ->
  yp_lex_token default_error_handler p = Some p' ->
  type (current p') = YP_TOKEN_EOF ->
  match mode top with
  | YP_LEX_DEFAULT | YP_LEX_EMBEXPR =>
      let s := start (current p') in
      let c := byte_at (source p) s in
      ((c = 0 \/ c = 4 \/ c = 26) /\ cur p' = s + 1)
      \/ (c = ch "<" /\ byte_at (source p) (s + 1) = ch "<"
          /\ (byte_at (source p) (s + 2) = ch "-" \/ byte_at (source p) (s + 2) = ch "~")
          /\ cur p' = s + 3)
  | YP_LEX_SYMBOL => False
  | _ => parser_end p <= cur p'
  end.
Proof.
  intros Hpos Ht. rewrite (yp_lex_token_unfold _ p top Ht).
  set (p0 := set_previous p (current p)).
  assert (forall q, lex_default top p0 = Some (YP_TOKEN_EOF, q) ->
            let s := start (current q) in
            let c := byte_at (source p) s in
            ((c = 0 \/ c = 4 \/ c = 26) /\ cur q = s + 1)
            \/ (c = ch "<" /\ byte_at (source p) (s + 1) = ch "<"
                /\ (byte_at (source p) (s + 2) = ch "-"
                    \/ byte_at (source p) (s + 2) = ch "~")
                /\ cur q = s + 3)) as Hcode.
  { intros q H. pose proof (lex_default_shape _ _ _ _ H) as (H1 & _).
    apply lex_default_eof in H. cbn zeta in *.
    change (start (current (advance (set_start
              (run_scan is_non_newline_whitespace_char p0)
              (cur (run_scan is_non_newline_whitespace_char p0))) 1)))
      with (cur (run_scan is_non_newline_whitespace_char p0)) in H1.
    rewrite H1. exact H. }
  destruct (mode top).
  - destruct (lex_default top p0) as [[ty q]|] eqn:E; [|discriminate].
    cbn [mbind option_bind]. intros [= <-]. cbn. intros ->. exact (Hcode q eq_refl).
  - destruct (lex_embdoc _ p0) as [[ty q]|] eqn:E; [|discriminate].
    cbn [mbind option_bind]. intros [= <-]. cbn. intros ->.
    apply lex_embdoc_eof in E. exact E.
  - destruct (lex_default top p0) as [[ty q]|] eqn:E; [|discriminate].
    cbn [mbind option_bind]. intros [= <-]. cbn. intros ->. exact (Hcode q eq_refl).
  - destruct (lex_list _ top p0) as [[ty q]|] eqn:E; [|discriminate].
    cbn [mbind option_bind]. intros [= <-]. cbn. intros ->.
    apply lex_list_eof in E; [exact E|exact Hpos].
  - destruct (lex_regexp _ top p0) as [[ty q]|] eqn:E; [|discriminate].
    cbn [mbind option_bind]. intros [= <-]. cbn. intros ->.
    apply lex_regexp_eof in E; [exact E|exact Hpos].
  - destruct (lex_string _ top p0) as [[ty q]|] eqn:E; [|discriminate].
    cbn [mbind option_bind]. intros [= <-]. cbn. intros ->.
    apply lex_string_eof in E; [exact E|exact Hpos].
  - destruct (lex_symbol p0) as [[ty q]|] eqn:E; [|discriminate].
    cbn [mbind option_bind]. intros [= <-]. cbn. intros ->.
    apply lex_symbol_not_eof in E. exact E.
Qed.

Lemma eof_origin_witness :
  let src := bytes_of_string "a <<-b" in
  byte_at src (start (current (state_after 2 src))) = ch "<"
  /\ cur (state_after 2 src) = 5.
Proof.
  intros src.
  assert (0 <= cur (state_after 1 src)) as H0 by (vm_compute; discriminate).
  assert (top_mode (state_after 1 src) = Some (lex_mode_lit YP_LEX_DEFAULT 0 false)) as Ht
    by (vm_compute; reflexivity).
  assert (yp_lex_token default_error_handler (state_after 1 src)
          = Some (state_after 2 src)) as H by (vm_compute; reflexivity).
  assert (type (current (state_after 2 src)) = YP_TOKEN_EOF) as He
    by (vm_compute; reflexivity).
  destruct (eof_origin _ _ _ H0 Ht H He) as [([Hc|[Hc|Hc]] & _)|(Hc & _ & _ & Hl)].
  - vm_compute in Hc. discriminate.
  - vm_compute in Hc. discriminate.
  - vm_compute in Hc. discriminate.
  - split; [exact Hc|]. rewrite Hl. vm_compute. reflexivity.
Defined.

(** In a case of the call that returned EOF: name the token type. *)
Ltac eof_case :=
  match goal with
  | H : (Some (?ty, ?x) ≫= _) = Some ?p', Hk : type (current ?p') = YP_TOKEN_EOF,
    E : _ = Some (?ty, ?x) |- _ =>
      cbn [mbind option_bind] in H; injection H as H; rewrite <- H in Hk |- *;
      change (type (current (set_type x ty))) with ty in Hk;
      change (cur (set_type x ty)) with (cur x);
      rewrite Hk in E
  end.

(** X13: with the handlers of the extension, every call made while the
    cursor is inside the buffer consumes at least one byte; the calls that
    leave the cursor where it is are made at the end of the buffer. *)
Theorem progress_inside_buffer (p p' : yp_parser_t) :
  0 <= cur p < parser_end p ->
  yp_lex_token default_error_handler p = Some p' -> cur p < cur p'.
Proof.
  intros Hin H.
  pose proof (yp_lex_token_step p p' H) as (top & q & Ht & (q0 & Hf & A & B & C & He) & Hp').
  assert (cur p' = cur q) as Hc by (rewrite Hp'; reflexivity).
  set (p0 := set_previous p (current p)) in *.
  change (cur p0) with (cur p) in *. change (parser_end p0) with (parser_end p) in *.
  destruct He as [-> Hk | m -> Hlt _ | Hp Hlt _];
    change (cur p0) with (cur p) in *; change (parser_end p0) with (parser_end p) in *.
  - destruct Hk as [Hk|[(Hm & Hk)|Hk]]; [| |clearbody p0; lia].
    + rewrite (yp_lex_token_unfold _ p top Ht) in H. fold p0 in H.
      assert (forall x, lex_default top p0 = Some (YP_TOKEN_EOF, x) -> cur p < cur x) as Hcode.
      { intros x Hx. apply lex_default_shape in Hx as (_ & Hx & _).
        pose proof (scan_while_le is_non_newline_whitespace_char (source p)
                      (fuel_of (source p)) (cur p)) as Hle.
        change (cur (advance (set_start
                  (run_scan is_non_newline_whitespace_char p0)
                  (cur (run_scan is_non_newline_whitespace_char p0))) 1))
          with (scan_while is_non_newline_whitespace_char (source p)
                  (fuel_of (source p)) (cur p) + 1) in Hx.
        clearbody p0. lia. }
      destruct (mode top).
      * destruct (lex_default top p0) as [[ty x]|] eqn:E; [|discriminate]. eof_case.
        apply (Hcode x). rewrite Hk. reflexivity.
      * destruct (lex_embdoc _ p0) as [[ty x]|] eqn:E; [|discriminate]. eof_case.
        apply lex_embdoc_eof in E.
        change (parser_end p0) with (parser_end p) in E. clearbody p0. lia.
      * destruct (lex_default top p0) as [[ty x]|] eqn:E; [|discriminate]. eof_case.
        apply (Hcode x). rewrite Hk. reflexivity.
      * destruct (lex_list _ top p0) as [[ty x]|] eqn:E; [|discriminate]. eof_case.
        apply lex_list_eof in E; [|apply Hin].
        change (parser_end p0) with (parser_end p) in E. clearbody p0. lia.
      * destruct (lex_regexp _ top p0) as [[ty x]|] eqn:E; [|discriminate]. eof_case.
        apply lex_regexp_eof in E; [|apply Hin].
        change (parser_end p0) with (parser_end p) in E. clearbody p0. lia.
      * destruct (lex_string _ top p0) as [[ty x]|] eqn:E; [|discriminate]. eof_case.
        apply lex_string_eof in E; [|apply Hin].
        change (parser_end p0) with (parser_end p) in E. clearbody p0. lia.
      * destruct (lex_symbol p0) as [[ty x]|] eqn:E; [|discriminate]. eof_case.
        apply lex_symbol_not_eof in E. contradiction.
    + rewrite (yp_lex_token_unfold _ p top Ht), Hm in H.
      destruct (lex_symbol _) as [[ty x]|] eqn:E; [|discriminate].
      cbn [mbind option_bind] in H. injection H as H.
      apply lex_symbol_advances in E; [|apply Hin].
      rewrite <- H. exact E.
  - rewrite Hc. pose proof (push_lex_mode_tokens q0 m) as (Hq & _).
    unfold cur in *. rewrite Hq. exact Hlt.
  - rewrite Hc. apply pop_lex_mode_tokens in Hp as (Hq & _).
    unfold cur in *. rewrite Hq. exact Hlt.
Qed.

Lemma progress_inside_buffer_witness :
  cur (yp_parser_init (bytes_of_string "a b"))
  < cur (state_after 1 (bytes_of_string "a b")).
Proof.
  apply (progress_inside_buffer (yp_parser_init (bytes_of_string "a b"))).
  - vm_compute. split; [discriminate|reflexivity].
  - vm_compute. reflexivity.
Defined.

(** ** The content of a literal *)

Lemma list_word_content (src : list Z) (pend term_ tstart : Z) (fuel : nat) (e e' : Z) :
  list_word src pend term_ tstart fuel e = (ExitContent, e') ->
  e <= e' < pend
  /\ (forall i, e <= i < e' ->
        is_whitespace_char (byte_at src i) = false /\ byte_at src i <> term_)
  /\ (is_whitespace_char (byte_at src e') = true
      \/ (byte_at src e' = term_ /\ tstart < e')).
Proof.
  revert e. induction fuel as [|k IH]; intros e; cbn [list_word]; [discriminate|].
  destruct (e <? pend) eqn:L; [|discriminate]. apply Z.ltb_lt in L.
  destruct (is_whitespace_char (byte_at src e)) eqn:W.
  - intros [= <-]. split; [lia|]. split; [intros i Hi; lia|]. left. exact W.
  - destruct (byte_at src e =? term_) eqn:T.
    + destruct (tstart <? e) eqn:S; [|discriminate]. intros [= <-].
      apply Z.eqb_eq in T. apply Z.ltb_lt in S.
      split; [lia|]. split; [intros i Hi; lia|]. right. split; assumption.
    + intros H. apply IH in H as (H1 & H2 & H3). apply Z.eqb_neq in T.
      split; [lia|]. split; [|exact H3].
      intros i Hi. destruct (Z.eq_dec i e) as [->|Hne]; [split; assumption|].
      apply H2. lia.
Qed.

Lemma regexp_content_content (src : list Z) (pend term_ tstart : Z) (fuel : nat)
    (e line e' line' : Z) :
  regexp_content src pend term_ tstart fuel e line = (ExitContent, e', line') ->
  e <= e' < pend
  /\ (forall i, e <= i < e' -> byte_at src i <> term_)
  /\ (byte_at src e' = term_
      \/ (byte_at src e' = ch "#" /\ byte_at src (e' + 1) = ch "{" /\ tstart < e')).
Proof.
  revert e line. induction fuel as [|k IH]; intros e line; cbn [regexp_content];
    [discriminate|].
  destruct (e <? pend) eqn:L; [|discriminate]. apply Z.ltb_lt in L.
  destruct (byte_at src e =? term_) eqn:T.
  - intros [= <- <-]. apply Z.eqb_eq in T.
    split; [lia|]. split; [intros i Hi; lia|]. left. exact T.
  - apply Z.eqb_neq in T.
    assert (forall l, regexp_content src pend term_ tstart k (e + 1) l
                      = (ExitContent, e', line') ->
              e <= e' < pend /\ (forall i, e <= i < e' -> byte_at src i <> term_)
              /\ (byte_at src e' = term_
                  \/ (byte_at src e' = ch "#" /\ byte_at src (e' + 1) = ch "{"
                      /\ tstart < e'))) as Hgo.
    { intros l H. apply IH in H as (H1 & H2 & H3).
      split; [lia|]. split; [|exact H3].
      intros i Hi. destruct (Z.eq_dec i e) as [->|Hne]; [exact T|]. apply H2. lia. }
    destruct ((byte_at src e =? ch "#") && (byte_at src (e + 1) =? ch "{")) eqn:Eh;
      [|apply Hgo].
    destruct (tstart <? e) eqn:S; [|discriminate]. intros [= <- <-].
    apply andb_true_iff in Eh as (E1 & E2).
    apply Z.eqb_eq in E1, E2. apply Z.ltb_lt in S.
    split; [lia|]. split; [intros i Hi; lia|]. right. repeat split; assumption.
Qed.

Lemma string_content_content (src : list Z) (pend term_ : Z) (interp_ : bool)
    (tstart : Z) (fuel : nat) (e line e' line' : Z) :
  string_content src pend term_ interp_ tstart fuel e line = (ExitContent, e', line') ->
  e <= e' < pend
  /\ (forall i, e <= i < e' -> byte_at src i <> term_)
  /\ (byte_at src e' = term_
      \/ (interp_ = true /\ byte_at src e' = ch "#" /\ byte_at src (e' + 1) = ch "{"
          /\ tstart < e')).
Proof.
  revert e line. induction fuel as [|k IH]; intros e line; cbn [string_content];
    [discriminate|].
  destruct (e <? pend) eqn:L; [|discriminate]. apply Z.ltb_lt in L.
  destruct (byte_at src e =? term_) eqn:T.
  - intros [= <- <-]. apply Z.eqb_eq in T.
    split; [lia|]. split; [intros i Hi; lia|]. left. exact T.
  - apply Z.eqb_neq in T.
    assert (forall l, string_content src pend term_ interp_ tstart k (e + 1) l
                      = (ExitContent, e', line') ->
              e <= e' < pend /\ (forall i, e <= i < e' -> byte_at src i <> term_)
              /\ (byte_at src e' = term_
                  \/ (interp_ = true /\ byte_at src e' = ch "#"
                      /\ byte_at src (e' + 1) = ch "{" /\ tstart < e'))) as Hgo.
    { intros l H. apply IH in H as (H1 & H2 & H3).
      split; [lia|]. split; [|exact H3].
      intros i Hi. destruct (Z.eq_dec i e) as [->|Hne]; [exact T|]. apply H2. lia. }
    destruct (interp_ && (byte_at src e =? ch "#")) eqn:Eh; [|apply Hgo].
    destruct (byte_at src (e + 1) =? ch "@"); [apply Hgo|].
    destruct (byte_at src (e + 1) =? ch "$"); [apply Hgo|].
    destruct (byte_at src (e + 1) =? ch "{") eqn:E2; [|apply Hgo].
    destruct (tstart <? e) eqn:S; [|discriminate]. intros [= <- <-].
    apply andb_true_iff in Eh as (Ei & E1).
    apply Z.eqb_eq in E1, E2. apply Z.ltb_lt in S.
    split; [lia|]. split; [intros i Hi; lia|]. right. repeat split; assumption.
Qed.

Lemma lex_string_content (top : yp_lex_mode_t) (p p' : yp_parser_t) :
  lex_string default_error_handler top p = Some (YP_TOKEN_STRING_CONTENT, p') ->
  start (current p') = cur p /\ cur p < cur p' < parser_end p
  /\ (forall i, cur p <= i < cur p' -> byte_at (source p) i <> term top)
  /\ (byte_at (source p) (cur p') = term top
      \/ (interp top = true /\ byte_at (source p) (cur p') = ch "#"
          /\ byte_at (source p) (cur p' + 1) = ch "{")).
Proof.
  unfold lex_string, match_, ret. set (p1 := set_start p (cur p)).
  destruct (peek p1 0 =? term top) eqn:M.
  - destruct (pop_lex_mode _); discriminate.
  - change (source p1) with (source p). change (cur p1) with (cur p).
    change (parser_end p1) with (parser_end p). change (start (current p1)) with (cur p).
    destruct (string_content _ _ _ _ _ _ _ _) as [[x e'] line'] eqn:Es.
    destruct x; try discriminate. intros [= <-].
    apply string_content_content in Es as (H1 & H2 & H3).
    change (cur (set_lineno (set_end p1 e') line')) with e'.
    apply Z.eqb_neq in M. unfold p1, peek in M. cbn in M. rewrite Z.add_0_r in M.
    change (end_ (current p)) with (cur p) in M.
    split; [reflexivity|]. split.
    + destruct H3 as [H3|(_ & _ & _ & H3)]; [|lia].
      destruct (Z.eq_dec e' (cur p)) as [->|]; [congruence|lia].
    + split; [exact H2|]. destruct H3 as [H3|(Hi & Ha & Hb & _)]; [left; exact H3|].
      right. repeat split; assumption.
Qed.

Lemma lex_regexp_content (top : yp_lex_mode_t) (p p' : yp_parser_t) :
  lex_regexp default_error_handler top p = Some (YP_TOKEN_STRING_CONTENT, p') ->
  start (current p') = cur p /\ cur p < cur p' < parser_end p
  /\ (forall i, cur p <= i < cur p' -> byte_at (source p) i <> term top)
  /\ (byte_at (source p) (cur p') = term top
      \/ (byte_at (source p) (cur p') = ch "#"
          /\ byte_at (source p) (cur p' + 1) = ch "{")).
Proof.
  unfold lex_regexp, match_, ret. set (p1 := set_start p (cur p)).
  destruct (peek p1 0 =? term top) eqn:M.
  - destruct (pop_lex_mode _); discriminate.
  - change (source p1) with (source p). change (cur p1) with (cur p).
    change (parser_end p1) with (parser_end p). change (start (current p1)) with (cur p).
    destruct (regexp_content _ _ _ _ _ _ _) as [[x e'] line'] eqn:Es.
    destruct x; try discriminate. intros [= <-].
    apply regexp_content_content in Es as (H1 & H2 & H3).
    change (cur (set_lineno (set_end p1 e') line')) with e'.
    apply Z.eqb_neq in M. unfold p1, peek in M. cbn in M. rewrite Z.add_0_r in M.
    change (end_ (current p)) with (cur p) in M.
    split; [reflexivity|]. split.
    + destruct H3 as [H3|(_ & _ & H3)]; [|lia].
      destruct (Z.eq_dec e' (cur p)) as [->|]; [congruence|lia].
    + split; [exact H2|]. destruct H3 as [H3|(Ha & Hb & _)]; [left; exact H3|].
      right. split; assumption.
Qed.

Lemma lex_list_content (top : yp_lex_mode_t) (p p' : yp_parser_t) :
  lex_list default_error_handler top p = Some (YP_TOKEN_STRING_CONTENT, p') ->
  start (current p') = cur p /\ cur p < cur p' < parser_end p
  /\ (forall i, cur p <= i < cur p' ->
        is_whitespace_char (byte_at (source p) i) = false
        /\ byte_at (source p) i <> term top)
  /\ (is_whitespace_char (byte_at (source p) (cur p')) = true
      \/ byte_at (source p) (cur p') = term top).
Proof.
  unfold lex_list, ret. set (p1 := set_start p (cur p)).
  destruct (is_whitespace_char (peek p 0)) eqn:W.
  - destruct (list_separator _ _ _ _). discriminate.
  - change (source p1) with (source p). change (cur p1) with (cur p).
    change (parser_end p1) with (parser_end p). change (start (current p1)) with (cur p).
    destruct (list_word _ _ _ _ _ _) as [x e'] eqn:Es.
    destruct x; try discriminate; [|destruct (pop_lex_mode _); discriminate].
    intros [= <-].
    apply list_word_content in Es as (H1 & H2 & H3).
    change (cur (set_end p1 e')) with e'.
    unfold peek in W. rewrite Z.add_0_r in W.
    split; [reflexivity|]. split.
    + destruct H3 as [H3|(_ & H3)]; [|lia].
      destruct (Z.eq_dec e' (cur p)) as [->|]; [congruence|lia].
    + split; [exact H2|]. destruct H3 as [H3|(H3 & _)]; [left|right]; exact H3.
Qed.

(** X14: what a STRING_CONTENT token holds.  In a string or a regular
    expression it starts at the old cursor, is not empty, lies inside the
    buffer, holds no terminator byte, and ends just before a terminator or
    before the two bytes that open an interpolation (in a string only when
    the mode interpolates).  In a list it also holds no whitespace, and it
    ends just before a whitespace byte or the terminator. *)
Theorem string_content_extent (p p' : yp_parser_t) (top : yp_lex_mode_t) :
  top_mode p = Some top ->
  mode top = YP_LEX_STRING \/ mode top = YP_LEX_REGEXP \/ mode top = YP_LEX_LIST ->
  yp_lex_token default_error_handler p = Some p' ->
  type (current p') = YP_TOKEN_STRING_CONTENT ->
  start (current p') = cur p /\ cur p < cur p' < parser_end p
  /\ (forall i, cur p <= i < cur p' ->
        byte_at (source p) i <> term top
        /\ (mode top = YP_LEX_LIST -> is_whitespace_char (byte_at (source p) i) = false))
  /\ (byte_at (source p) (cur p') = term top
      \/ (mode top = YP_LEX_LIST /\ is_whitespace_char (byte_at (source p) (cur p')) = true)
      \/ (mode top <> YP_LEX_LIST
          /\ (mode top = YP_LEX_STRING -> interp top = true)
          /\ byte_at (source p) (cur p') = ch "#"
          /\ byte_at (source p) (cur p' + 1) = ch "{")).
Proof.
  intros Ht Hm. rewrite (yp_lex_token_unfold _ p top Ht).
  set (p0 := set_previous p (current p)).
  destruct (mode top) eqn:Em;
    try (exfalso; destruct Hm as [Hm|[Hm|Hm]]; discriminate Hm).
  - destruct (lex_list _ top p0) as [[ty x]|] eqn:E; [|discriminate].
    cbn [mbind option_bind]. intros [= <-]. cbn. intros ->.
    apply lex_list_content in E as (H1 & H2 & H3 & H4).
    split; [exact H1|]. split; [exact H2|]. split.
    + intros i Hi. destruct (H3 i Hi) as (Ha & Hb). split; [exact Hb|]. intros _. exact Ha.
    + destruct H4 as [H4|H4]; [right; left; split; [reflexivity|exact H4]|left; exact H4].
  - destruct (lex_regexp _ top p0) as [[ty x]|] eqn:E; [|discriminate].
    cbn [mbind option_bind]. intros [= <-]. cbn. intros ->.
    apply lex_regexp_content in E as (H1 & H2 & H3 & H4).
    split; [exact H1|]. split; [exact H2|]. split.
    + intros i Hi. split; [exact (H3 i Hi)|discriminate].
    + destruct H4 as [H4|(Ha & Hb)]; [left; exact H4|].
      right. right. split; [discriminate|]. split; [discriminate|]. split; assumption.
  - destruct (lex_string _ top p0) as [[ty x]|] eqn:E; [|discriminate].
    cbn [mbind option_bind]. intros [= <-]. cbn. intros ->.
    apply lex_string_content in E as (H1 & H2 & H3 & H4).
    split; [exact H1|]. split; [exact H2|]. split.
    + intros i Hi. split; [exact (H3 i Hi)|discriminate].
    + destruct H4 as [H4|(Hi & Ha & Hb)]; [left; exact H4|].
      right. right. split; [discriminate|]. split; [intros _; exact Hi|]. split; assumption.
Qed.

Lemma string_content_extent_witness :
  let src := DQ ++ bytes_of_string "ab#{c}" ++ DQ in
  cur (state_after 2 src) = 3
  /\ byte_at src 1 <> ch "034" /\ byte_at src 2 <> ch "034".
Proof.
  intros src.
  assert (top_mode (state_after 1 src)
          = Some {| mode := YP_LEX_STRING; term := ch "034"; interp := true;
                    prev := StackSlot 0 |}) as Ht by (vm_compute; reflexivity).
  assert (yp_lex_token default_error_handler (state_after 1 src)
          = Some (state_after 2 src)) as H by (vm_compute; reflexivity).
  assert (type (current (state_after 2 src)) = YP_TOKEN_STRING_CONTENT) as He
    by (vm_compute; reflexivity).
  destruct (string_content_extent _ _ _ Ht (or_introl eq_refl) H He) as (_ & _ & Hall & _).
  split; [vm_compute; reflexivity|].
  split; apply Hall; vm_compute; (split; [discriminate|reflexivity]).
Defined.

(** ** The tokens that [each_token] yields *)

(** X15: [token_inspect] has a name for every token type but EOF (only
    an EOF token would reach [rb_bug]), and the [RIPPER] hash of the Ruby
    side has an event for every one of these names (only the name EOF,
    which is never produced, would raise a [KeyError]). *)
Theorem token_names_cover (ty : yp_token_type_t) :
  match token_name ty with
  | None => ty = YP_TOKEN_EOF
  | Some name => ty <> YP_TOKEN_EOF /\ exists event, RIPPER_fetch name = Some event
  end.
Proof.
  destruct ty; cbn [token_name]; try reflexivity;
    (split; [discriminate|eexists; vm_compute; reflexivity]).
Qed.

Lemma token_name_defined (ty : yp_token_type_t) :
  ty <> YP_TOKEN_EOF -> exists name, token_name ty = Some name.
Proof.
  intros H. destruct ty; try congruence; eexists; reflexivity.
Qed.

Lemma token_inspect_defined (p : yp_parser_t) :
  type (current p) <> YP_TOKEN_EOF -> exists item, token_inspect p = Some item.
Proof.
  intros H. unfold token_inspect.
  destruct (token_name_defined _ H) as (name & ->). eexists. reflexivity.
Qed.

Lemma each_token_loop_no_abort (fuel : nat) (p : yp_parser_t)
    (acc : list (Z * Z * string * list Z)) :
  each_token_loop fuel p acc <> Aborted.
Proof.
  revert p acc. induction fuel as [|k IH]; intros p acc; cbn [each_token_loop];
    [discriminate|].
  destruct (type (current p)) eqn:Ety; try discriminate;
    (destruct (token_inspect_defined p) as (item & ->); [rewrite Ety; discriminate|];
     destruct (yp_lex_token default_error_handler p); [apply IH|discriminate]).
Qed.

Lemma each_token_loop_step (k : nat) (p : yp_parser_t)
    (acc : list (Z * Z * string * list Z)) :
  type (current p) <> YP_TOKEN_EOF ->
  each_token_loop (S k) p acc =
    match token_inspect p with
    | None => Aborted
    | Some item =>
        match yp_lex_token default_error_handler p with
        | None => Undefined
        | Some p' => each_token_loop k p' (item :: acc)
        end
    end.
Proof.
  intros H. cbn [each_token_loop]. destruct (type (current p)); congruence.
Qed.

Lemma each_token_loop_sound (fuel : nat) (p : yp_parser_t)
    (acc items : list (Z * Z * string * list Z)) :
  each_token_loop fuel p acc = Yielded items ->
  exists rest, items = rev acc ++ rest
    /\ (exists q, lex_n default_error_handler (length rest) p = Some q
          /\ type (current q) = YP_TOKEN_EOF)
    /\ forall k item, rest !! k = Some item ->
         exists pk, lex_n default_error_handler k p = Some pk
           /\ type (current pk) <> YP_TOKEN_EOF /\ token_inspect pk = Some item.
Proof.
  revert p acc. induction fuel as [|f IH]; intros p acc; [discriminate|].
  destruct (yp_token_type_t_is_eof (type (current p))) as [E|E].
  - cbn [each_token_loop]. rewrite E. intros [= <-]. exists [].
    split; [rewrite app_nil_r; reflexivity|]. split.
    + exists p. split; [reflexivity|exact E].
    + intros k item H. rewrite lookup_nil in H. discriminate.
  - rewrite (each_token_loop_step f p acc E).
    destruct (token_inspect p) as [item|] eqn:Hi; [|discriminate].
    destruct (yp_lex_token default_error_handler p) as [p'|] eqn:Hp; [|discriminate].
    intros H. apply IH in H as (rest & -> & (q & Hq & Hty) & Hall).
    exists (item :: rest). split; [cbn [rev]; rewrite <- app_assoc; reflexivity|]. split.
    + exists q. split; [|exact Hty].
      cbn [length]. rewrite lex_n_front, Hp. exact Hq.
    + intros [|k] it Hk.
      * injection Hk as <-. exists p. split; [reflexivity|]. split; assumption.
      * destruct (Hall k it Hk) as (pk & H1 & H2 & H3).
        exists pk. split; [|split; assumption].
        rewrite lex_n_front, Hp. exact H1.
Qed.

Lemma each_token_loop_complete (n : nat) (p q : yp_parser_t)
    (acc : list (Z * Z * string * list Z)) :
  lex_n default_error_handler n p = Some q -> type (current q) = YP_TOKEN_EOF ->
  exists items, each_token_loop (S n) p acc = Yielded items.
Proof.
  revert p acc. induction n as [|k IH]; intros p acc.
  - intros [= <-] E. cbn [each_token_loop]. rewrite E. eexists. reflexivity.
  - intros H E.
    destruct (yp_token_type_t_is_eof (type (current p))) as [Ep|Ep].
    + cbn [each_token_loop]. rewrite Ep. eexists. reflexivity.
    + rewrite (each_token_loop_step (S k) p acc Ep).
      destruct (token_inspect_defined p Ep) as (item & ->).
      rewrite lex_n_front in H.
      destruct (yp_lex_token default_error_handler p) as [p'|]; [|discriminate].
      apply (IH p' (item :: acc) H E).
Qed.

(** X16: [each_token] never reaches [rb_bug].  When its loop ends, the
    items it has yielded are, in order, the inspections of the tokens of
    the calls before the first EOF, none of them an EOF, and the call
    after them returned EOF.  And whenever some call of the run returns
    EOF, the loop does end, within as many iterations. *)
Theorem each_token_yields (src : list Z) :
  (forall fuel, each_token fuel src <> Aborted)
  /\ (forall fuel items, each_token fuel src = Yielded items ->
        (exists q, run (S (length items)) src = Some q
           /\ type (current q) = YP_TOKEN_EOF)
        /\ forall k item, items !! k = Some item ->
             exists pk, run (S k) src = Some pk
               /\ type (current pk) <> YP_TOKEN_EOF /\ token_inspect pk = Some item)
  /\ (forall n q, run (S n) src = Some q -> type (current q) = YP_TOKEN_EOF ->
        exists items, each_token (S n) src = Yielded items).
Proof.
  unfold each_token, run. split; [|split].
  - intros fuel. destruct (yp_lex_token _ _); [apply each_token_loop_no_abort|discriminate].
  - intros fuel items.
    destruct (yp_lex_token default_error_handler (yp_parser_init src)) as [p|] eqn:Hp;
      [|discriminate].
    intros H. apply each_token_loop_sound in H as (rest & -> & (q & Hq & Hty) & Hall).
    cbn [rev app]. split.
    + exists q. split; [|exact Hty]. rewrite lex_n_front, Hp. exact Hq.
    + intros k item Hk. destruct (Hall k item Hk) as (pk & H1 & H2 & H3).
      exists pk. split; [|split; assumption]. rewrite lex_n_front, Hp. exact H1.
  - intros n q H E. rewrite lex_n_front in H.
    destruct (yp_lex_token default_error_handler (yp_parser_init src)) as [p|];
      [|discriminate].
    apply (each_token_loop_complete n p q [] H E).
Qed.

Lemma each_token_yields_witness :
  exists items, each_token 2 (bytes_of_string "a") = Yielded items.
Proof.
  destruct (each_token_yields (bytes_of_string "a")) as (_ & _ & H).
  apply (H 1%nat (state_after 2 (bytes_of_string "a"))).
  - vm_compute. reflexivity.
  - vm_compute. reflexivity.
Defined.

(** ** The positions that [lex_compat] computes *)

Lemma offsets_fold (lines : list (list Z)) (pre : list Z) (a : Z) :
  fold_left (fun offsets line => offsets ++ [List.last offsets 0 + Z.of_nat (length line)])
            lines (pre ++ [a])
  = pre ++ a :: line_ends a lines.
Proof.
  revert pre a. induction lines as [|l ls IH]; intros pre a; cbn [fold_left line_ends].
  - reflexivity.
  - rewrite List.last_last. rewrite (IH (pre ++ [a])). rewrite <- app_assoc. reflexivity.
Qed.

Lemma offsets_of_ends (src : list Z) : offsets_of src = 0 :: line_ends 0 (foreach_line src).
Proof. unfold offsets_of. apply (offsets_fold (foreach_line src) [] 0). Qed.

Lemma line_ends_cons (a : Z) (b : Z) (rest : list Z) :
  line_ends a (foreach_line (b :: rest))
  = if b =? ch "010" then (a + 1) :: line_ends (a + 1) (foreach_line rest)
    else match rest with
         | [] => [a + 1]
         | _ => line_ends (a + 1) (foreach_line rest)
         end.
Proof.
  cbn [foreach_line]. destruct (b =? ch "010"); [reflexivity|].
  destruct rest as [|c rest']; [reflexivity|].
  destruct (foreach_line (c :: rest')) as [|l ls] eqn:E.
  - exfalso. cbn [foreach_line] in E. destruct (c =? ch "010"); [discriminate|].
    destruct (foreach_line rest'); discriminate.
  - cbn [line_ends length]. f_equal; [lia|]. f_equal. lia.
Qed.

(** The line that holds an offset: [i] is its index among the lines from
    [a], [lo] its first offset and [hi] the offset after it. *)
Lemma line_ends_locate (src suf : list Z) (a : Z) :
  0 <= a -> Z.of_nat (length src) = a + Z.of_nat (length suf) ->
  (forall k, (k < length suf)%nat -> byte_at src (a + Z.of_nat k) = nth k suf 0) ->
  let ends := line_ends a (foreach_line suf) in
  Forall (fun e => a < e <= Z.of_nat (length src)) ends
  /\ List.last (a :: ends) 0 = Z.of_nat (length src)
  /\ length ends = length (foreach_line suf)
  /\ forall s, a <= s < Z.of_nat (length src) ->
       exists (i : nat) (hi lo : Z),
         ends !! i = Some hi /\ s < hi
         /\ (forall j e, (j < i)%nat -> ends !! j = Some e -> e <= s)
         /\ match i with O => lo = a | S j => ends !! j = Some lo end
         /\ lo <= s /\ count_newlines src a s = Z.of_nat i
         /\ (forall j, lo <= j < s -> byte_at src j <> ch "010")
         /\ (lo = a \/ byte_at src (lo - 1) = ch "010").
Proof.
  revert a. induction suf as [|b rest IH]; intros a Ha Hlen Hb.
  - cbn. split; [apply List.Forall_nil|]. split; [cbn in Hlen; lia|].
    split; [reflexivity|]. intros s Hs. cbn in Hlen. lia.
  - assert (byte_at src a = b) as Hba.
    { specialize (Hb 0%nat ltac:(cbn; lia)). cbn in Hb. rewrite Z.add_0_r in Hb. exact Hb. }
    cbn [length] in Hlen.
    specialize (IH (a + 1) ltac:(lia) ltac:(lia)).
    assert (forall k, (k < length rest)%nat ->
              byte_at src (a + 1 + Z.of_nat k) = nth k rest 0) as Hb'.
    { intros k Hk. specialize (Hb (S k) ltac:(cbn; lia)). cbn [nth] in Hb.
      rewrite <- Hb. f_equal. lia. }
    specialize (IH Hb'). cbn zeta in IH. destruct IH as (IF & IL & IN & IS).
    cbn zeta. rewrite line_ends_cons.
    assert (length (foreach_line (b :: rest))
            = if b =? ch "010" then S (length (foreach_line rest))
              else match rest with [] => 1%nat | _ => length (foreach_line rest) end) as Hn.
    { cbn [foreach_line]. destruct (b =? ch "010"); [reflexivity|].
      destruct rest as [|c rest']; [reflexivity|].
      destruct (foreach_line (c :: rest')) as [|l ls] eqn:E; [|reflexivity].
      exfalso. cbn [foreach_line] in E. destruct (c =? ch "010"); [discriminate|].
      destruct (foreach_line rest'); discriminate. }
    rewrite Hn. clear Hn.
    set (E := line_ends (a + 1) (foreach_line rest)) in *.
    destruct (b =? ch "010") eqn:Eb.
    + apply Z.eqb_eq in Eb.
      split.
      { apply List.Forall_cons; [lia|].
        eapply List.Forall_impl; [|exact IF]. cbn. intros e He. lia. }
      split; [exact IL|]. split; [cbn [length]; rewrite IN; reflexivity|].
      intros s Hs. destruct (Z.eq_dec s a) as [->|Hne].
      * exists 0%nat, (a + 1), a. split; [reflexivity|]. split; [lia|].
        split; [intros j e Hj; lia|]. split; [reflexivity|]. split; [lia|].
        split; [rewrite count_newlines_empty by lia; reflexivity|].
        split; [intros j Hj; lia|]. left. reflexivity.
      * destruct (IS s ltac:(lia)) as (i & hi & lo & H1 & H2 & H3 & H4 & H5 & H6 & H7 & H8).
        exists (S i), hi, lo. split; [exact H1|]. split; [exact H2|]. split.
        { intros [|j] e Hj He; [cbn in He; injection He as <-; lia|].
          apply (H3 j e); [lia|exact He]. }
        split.
        { destruct i as [|j]; [cbn; rewrite H4; reflexivity|exact H4]. }
        split; [exact H5|]. split.
        { rewrite (count_newlines_step src a s) by lia. rewrite Hba, Eb.
          change (ch "010" =? ch "010") with true. cbv iota. rewrite H6. lia. }
        split; [exact H7|].
        destruct H8 as [H8|H8]; [|right; exact H8].
        right. rewrite H8. replace (a + 1 - 1) with a by lia. rewrite Hba. exact Eb.
    + apply Z.eqb_neq in Eb.
      destruct rest as [|c rest'].
      * cbn [length] in Hlen.
        split; [apply List.Forall_cons; [lia|apply List.Forall_nil]|].
        split; [cbn; lia|]. split; [reflexivity|].
        intros s Hs. assert (s = a) as -> by lia.
        exists 0%nat, (a + 1), a. split; [reflexivity|]. split; [lia|].
        split; [intros j e Hj; lia|]. split; [reflexivity|]. split; [lia|].
        split; [rewrite count_newlines_empty by lia; reflexivity|].
        split; [intros j Hj; lia|]. left. reflexivity.
      * cbn [length] in Hlen.
        destruct E as [|e0 E'] eqn:EE.
        { exfalso. cbn in IL. lia. }
        rewrite <- EE in *.
        split.
        { eapply List.Forall_impl; [|exact IF]. cbn. intros e He. lia. }
        split; [rewrite EE in IL |- *; exact IL|]. split; [exact IN|].
        intros s Hs. destruct (Z.eq_dec s a) as [->|Hne].
        -- exists 0%nat, e0, a. split; [rewrite EE; reflexivity|].
           assert (a + 1 < e0) as He0.
           { rewrite EE in IF. apply List.Forall_inv in IF. lia. }
           split; [lia|]. split; [intros j e Hj; lia|]. split; [reflexivity|].
           split; [lia|]. split; [rewrite count_newlines_empty by lia; reflexivity|].
           split; [intros j Hj; lia|]. left. reflexivity.
        -- destruct (IS s ltac:(lia)) as (i & hi & lo & H1 & H2 & H3 & H4 & H5 & H6 & H7 & H8).
           assert (count_newlines src a s = Z.of_nat i) as Hcount.
           { rewrite (count_newlines_step src a s) by lia. rewrite Hba.
             replace (b =? ch "010") with false by (symmetry; apply Z.eqb_neq; exact Eb).
             lia. }
           destruct i as [|j].
           ++ exists 0%nat, hi, a. split; [exact H1|]. split; [exact H2|].
              split; [intros j e Hj; lia|]. split; [reflexivity|]. split; [lia|].
              split; [exact Hcount|]. split; [|left; reflexivity].
              intros j Hj. destruct (Z.eq_dec j a) as [->|Hja]; [rewrite Hba; exact Eb|].
              apply H7. lia.
           ++ exists (S j), hi, lo. split; [exact H1|]. split; [exact H2|].
              split; [exact H3|]. split; [exact H4|]. split; [exact H5|].
              split; [exact Hcount|]. split; [exact H7|].
              destruct H8 as [H8|H8]; [|right; exact H8].
              exfalso. pose proof (Forall_lookup_1 _ _ _ _ IF H4) as Hlo. cbn in Hlo. lia.
Qed.

Lemma detect_line_found (all rest : list Z) (base s : Z) (i : nat) (hi : Z) :
  rest !! i = Some hi -> s < hi ->
  (forall j e, (j < i)%nat -> rest !! j = Some e -> e <= s) ->
  detect_line all rest base s
  = Some (base + Z.of_nat i, ruby_at all (base + Z.of_nat i - 1)).
Proof.
  revert base i. induction rest as [|e rest IH]; intros base i Hi Hs Hbefore.
  - rewrite lookup_nil in Hi. discriminate.
  - cbn [detect_line]. destruct i as [|i].
    + cbn in Hi. injection Hi as ->.
      replace (s <? hi) with true by (symmetry; apply Z.ltb_lt; exact Hs).
      replace (base + Z.of_nat 0) with base by lia. reflexivity.
    + assert (e <= s) as He by (apply (Hbefore 0%nat e); [lia|reflexivity]).
      replace (s <? e) with false by (symmetry; apply Z.ltb_ge; exact He).
      rewrite (IH (base + 1) i Hi Hs).
      * replace (base + 1 + Z.of_nat i) with (base + Z.of_nat (S i)) by lia. reflexivity.
      * intros j x Hj Hx. apply (Hbefore (S j) x); [lia|exact Hx].
Qed.

Lemma detect_line_none (all rest : list Z) (base s : Z) :
  Forall (fun e => e <= s) rest -> detect_line all rest base s = None.
Proof.
  revert base. induction rest as [|e rest IH]; intros base H; [reflexivity|].
  apply Forall_cons in H as (He & H). cbn [detect_line].
  replace (s <? e) with false by (symmetry; apply Z.ltb_ge; exact He).
  apply IH. exact H.
Qed.

Lemma byte_at_nth (src : list Z) (k : nat) : byte_at src (0 + Z.of_nat k) = nth k src 0.
Proof.
  unfold byte_at. replace (0 + Z.of_nat k <? 0) with false by (symmetry; apply Z.ltb_ge; lia).
  f_equal. lia.
Qed.

(** X17: the position that [lex_compat] gives a token.  For a token that
    starts inside the file, the line number is one more than the number
    of newlines before its start, and the byte in the line is the distance
    to the start of that line: no newline lies between the two, and the
    byte before the start of the line, when there is one, is a newline.
    For a token that starts at or past the end of the file (where no
    offset of the table is greater), the line number is the number of
    lines plus two and the byte is counted from the end of the file. *)
Theorem lex_compat_position (src : list Z) (start_char : Z) :
  0 <= start_char ->
  let '(line_number, line_byte) := line_and_byte (offsets_of src) start_char in
  if start_char <? Z.of_nat (length src) then
    line_number = 1 + count_newlines src 0 start_char
    /\ 0 <= line_byte <= start_char
    /\ (forall j, start_char - line_byte <= j < start_char -> byte_at src j <> ch "010")
    /\ (line_byte < start_char -> byte_at src (start_char - line_byte - 1) = ch "010")
  else
    line_number = Z.of_nat (length (foreach_line src)) + 2
    /\ line_byte = start_char - Z.of_nat (length src).
Proof.
  intros Hs. rewrite offsets_of_ends.
  destruct (line_ends_locate src src 0 ltac:(lia) ltac:(lia)
              (fun k _ => byte_at_nth src k)) as (HF & HL & HN & HS).
  set (ends := line_ends 0 (foreach_line src)) in *.
  unfold line_and_byte. cbn [detect_line].
  replace (start_char <? 0) with false by (symmetry; apply Z.ltb_ge; exact Hs).
  destruct (start_char <? Z.of_nat (length src)) eqn:Hin.
  - apply Z.ltb_lt in Hin.
    destruct (HS start_char ltac:(lia)) as (i & hi & lo & H1 & H2 & H3 & H4 & H5 & H6 & H7 & H8).
    rewrite (detect_line_found (0 :: ends) ends (0 + 1) start_char i hi H1 H2 H3).
    assert (ruby_at (0 :: ends) (0 + 1 + Z.of_nat i - 1) = Some lo) as Hat.
    { unfold ruby_at.
      replace (0 + 1 + Z.of_nat i - 1 <? 0) with false by (symmetry; apply Z.ltb_ge; lia).
      replace (Z.to_nat (0 + 1 + Z.of_nat i - 1)) with i by lia.
      destruct i as [|j]; [cbn; rewrite H4; reflexivity|exact H4]. }
    rewrite Hat.
    assert (0 <= lo) as Hlo.
    { destruct i as [|j]; [lia|].
      pose proof (Forall_lookup_1 _ _ _ _ HF H4) as Hx. cbn in Hx. lia. }
    split; [rewrite H6; lia|]. split; [lia|].
    replace (start_char - (start_char - lo)) with lo by lia.
    split; [exact H7|]. intros Hlt. destruct H8 as [H8|H8]; [lia|exact H8].
  - apply Z.ltb_ge in Hin.
    rewrite detect_line_none.
    + split; [cbn [length]; rewrite HN; lia|]. rewrite HL. reflexivity.
    + eapply List.Forall_impl; [|exact HF]. cbn. intros e He. lia.
Qed.

Lemma lex_compat_position_witness :
  let src := bytes_of_string "ab" ++ NL ++ bytes_of_string "cd" in
  fst (line_and_byte (offsets_of src) 4) = 1 + count_newlines src 0 4.
Proof.
  intros src.
  pose proof (lex_compat_position src 4 ltac:(lia)) as H.
  destruct (line_and_byte (offsets_of src) 4) as [l b].
  change (4 <? Z.of_nat (length src)) with true in H.
  exact (proj1 H).
Defined.

Lemma token_name_event (ty : yp_token_type_t) (name : string) :
  token_name ty = Some name -> exists event, RIPPER_fetch name = Some event.
Proof.
  destruct ty; cbn [token_name]; intros [= <-]; eexists; vm_compute; reflexivity.
Qed.

(** X18: on every item that a finished [each_token] has yielded, the
    start is not negative and [RIPPER.fetch] finds the event of the name,
    so that the block of [lex_compat] raises no [KeyError]; what the block
    does is then settled by its value branch: for an [on_comment] or
    [on_tstring_content] event whose value holds a backslash it appends
    the value that [unicode_normalize] returns, and it raises when
    [unicode_normalize] does; in every other case it appends the value
    as it is, at the line and byte that [line_and_byte] computes. *)
Theorem lex_compat_defined (unicode_normalize : list Z -> option (list Z))
    (fuel : nat) (src : list Z) (items : list (Z * Z * string * list Z)) :
  each_token fuel src = Yielded items ->
  Forall (fun item =>
            let start_char := fst (fst (fst item)) in
            let value := snd item in
            let position := line_and_byte (offsets_of src) start_char in
            0 <= start_char
            /\ exists event,
                 RIPPER_fetch (snd (fst item)) = Some event
                 /\ lex_compat_token unicode_normalize (offsets_of src) item
                    = if unescapes event value then
                        match unicode_normalize value with
                        | Some unescaped =>
                            Appended (fst position) (snd position) event unescaped
                        | None => ArgumentError
                        end
                      else Appended (fst position) (snd position) event value) items.
Proof.
  unfold each_token.
  destruct (yp_lex_token default_error_handler (yp_parser_init src)) as [p|] eqn:Hp;
    [|discriminate].
  intros H. apply each_token_loop_sound in H as (rest & -> & _ & Hall).
  cbn [rev app]. apply Forall_lookup_2. intros k item Hk.
  destruct (Hall k item Hk) as (pk & H1 & _ & H3).
  assert (run (S k) src = Some pk) as Hrun.
  { unfold run. rewrite lex_n_front, Hp. exact H1. }
  apply run_offsets in Hrun as (_ & Hstart & _).
  unfold token_inspect in H3.
  destruct (token_name (type (current pk))) as [name|] eqn:Hn; [|discriminate].
  cbn [mbind option_bind] in H3. injection H3 as <-. cbn [fst snd].
  split; [exact Hstart|].
  destruct (token_name_event _ _ Hn) as (event & He).
  exists event. split; [exact He|].
  unfold lex_compat_token.
  destruct (line_and_byte (offsets_of src) (start (current pk))) as [l b].
  rewrite He. reflexivity.
Qed.

(** A file of two lines, with a [unicode_normalize] that always raises. *)
Lemma lex_compat_defined_witness :
  let src := bytes_of_string "a" ++ NL ++ bytes_of_string "b" in
  exists items, each_token 4 src = Yielded items
    /\ Forall (fun item => exists event, RIPPER_fetch (snd (fst item)) = Some event
                 /\ lex_compat_token (fun _ => None) (offsets_of src) item <> KeyError) items.
Proof.
  intros src.
  assert (exists items, each_token 4 src = Yielded items) as (items & H)
    by (eexists; vm_compute; reflexivity).
  exists items. split; [exact H|].
  eapply List.Forall_impl; [|exact (lex_compat_defined (fun _ => None) 4 src items H)].
  cbn. intros item (_ & event & Hf & He). exists event. split; [exact Hf|].
  rewrite He. destruct (unescapes event (snd item)); discriminate.
Defined.

(** ** [lex_ripper] *)

Lemma lex_ripper_fold {State : Type} (ts acc : list (Z * Z * string * list Z * State)) :
  fold_left
    (fun tokens token =>
       let '(position, event, value, state) := token in
       if String.eqb event "on_ignored_nl" then tokens ++ [(position, "on_nl"%string, value, state)]
       else if String.eqb event "on_sp" then tokens
       else tokens ++ [token])
    ts acc
  = acc ++ lex_ripper ts.
Proof.
  unfold lex_ripper. revert acc. induction ts as [|[[[pos ev] v] st] ts IH]; intros acc.
  - cbn. rewrite app_nil_r. reflexivity.
  - cbn [fold_left]. rewrite IH. rewrite (IH (if String.eqb ev "on_ignored_nl" then _ else _)).
    destruct (String.eqb ev "on_ignored_nl"); [rewrite <- app_assoc; reflexivity|].
    destruct (String.eqb ev "on_sp"); [reflexivity|].
    rewrite <- app_assoc. reflexivity.
Qed.

Lemma lex_ripper_cons {State : Type} (t : Z * Z * string * list Z * State)
    (ts : list (Z * Z * string * list Z * State)) :
  lex_ripper (t :: ts)
  = (let '(position, event, value, state) := t in
     if String.eqb event "on_ignored_nl" then [(position, "on_nl"%string, value, state)]
     else if String.eqb event "on_sp" then []
     else [t]) ++ lex_ripper ts.
Proof.
  unfold lex_ripper at 1. cbn [fold_left]. rewrite lex_ripper_fold.
  destruct t as [[[pos ev] v] st].
  destruct (String.eqb ev "on_ignored_nl"); [reflexivity|].
  destruct (String.eqb ev "on_sp"); reflexivity.
Qed.

(** X19: [lex_ripper] returns no [on_sp] and no [on_ignored_nl] token;
    the positions, values and states it returns are, in order, those of
    the tokens that are not [on_sp]; and it changes nothing when applied
    to its own result. *)
Theorem lex_ripper_normalises {State : Type} (ts : list (Z * Z * string * list Z * State)) :
  Forall (fun t => snd (fst (fst t)) <> "on_sp"%string
                   /\ snd (fst (fst t)) <> "on_ignored_nl"%string) (lex_ripper ts)
  /\ map (fun t => (fst (fst (fst t)), snd (fst t), snd t)) (lex_ripper ts)
     = map (fun t => (fst (fst (fst t)), snd (fst t), snd t))
           (List.filter (fun t => negb (String.eqb (snd (fst (fst t))) "on_sp")) ts)
  /\ lex_ripper (lex_ripper ts) = lex_ripper ts.
Proof.
  induction ts as [|[[[pos ev] v] st] ts (IH1 & IH2 & IH3)].
  - split; [apply List.Forall_nil|]. split; reflexivity.
  - rewrite lex_ripper_cons. cbn [List.filter fst snd].
    destruct (String.eqb ev "on_ignored_nl") eqn:E1.
    + apply String.eqb_eq in E1. subst ev. cbn [negb String.eqb Ascii.eqb Bool.eqb andb].
      change (String.eqb "on_ignored_nl" "on_sp") with false. cbn [negb app].
      split; [apply List.Forall_cons; [split; discriminate|exact IH1]|].
      split; [cbn [map fst snd]; f_equal; exact IH2|].
      rewrite lex_ripper_cons. change (String.eqb "on_nl" "on_ignored_nl") with false.
      change (String.eqb "on_nl" "on_sp") with false. cbn [app]. f_equal. exact IH3.
    + destruct (String.eqb ev "on_sp") eqn:E2.
      * cbn [negb app]. split; [exact IH1|]. split; [exact IH2|exact IH3].
      * cbn [negb app]. apply String.eqb_neq in E1, E2.
        split; [apply List.Forall_cons; [split; assumption|exact IH1]|].
        split; [cbn [map fst snd]; f_equal; exact IH2|].
        rewrite lex_ripper_cons.
        apply String.eqb_neq in E1, E2. rewrite E1, E2. cbn [app]. f_equal. exact IH3.
Qed.

(** ** The depth of the mode stack, token by token *)

Lemma same_frame_refl (p : yp_parser_t) : same_frame p p.
Proof. repeat split. Qed.

Lemma same_frame_set_end (p y : yp_parser_t) (e : Z) :
  same_frame p y -> same_frame p (set_end y e).
Proof. intros H. exact H. Qed.

Lemma same_frame_set_lineno (p y : yp_parser_t) (n : Z) :
  same_frame p y -> same_frame p (set_lineno y n).
Proof. intros H. exact H. Qed.

Lemma same_frame_fwd (p y x : yp_parser_t) : same_frame p y -> fwd y x -> same_frame p x.
Proof. intros H (e & -> & _). exact H. Qed.

(** Prove [same_frame p0 x] by walking back from [x] to [p0]. *)
Ltac frame_chain :=
  lazymatch goal with
  | |- same_frame ?p ?p => apply same_frame_refl
  | |- same_frame _ (advance _ _) => apply same_frame_set_end; frame_chain
  | |- same_frame _ (run_scan _ _) => apply same_frame_set_end; frame_chain
  | |- same_frame _ (set_end _ _) => apply same_frame_set_end; frame_chain
  | |- same_frame _ (set_lineno _ _) => apply same_frame_set_lineno; frame_chain
  | |- same_frame ?p ?x =>
      match goal with
      | H : fwd ?y x |- _ => apply (same_frame_fwd p y x); [frame_chain|exact H]
      end
  end.

Lemma keywords_plain :
  Forall (fun '(_, _, tok) => opens_mode tok = false /\ is_closer tok = false
                              /\ tok <> YP_TOKEN_INVALID) all_keywords.
Proof.
  unfold all_keywords, keywords.
  repeat (apply List.Forall_cons; [repeat split; discriminate|]). apply List.Forall_nil.
Qed.

Lemma lex_identifier_plain (p q : yp_parser_t) (ty : yp_token_type_t) :
  lex_identifier p = (ty, q) ->
  opens_mode ty = false /\ is_closer ty = false /\ ty <> YP_TOKEN_INVALID.
Proof.
  unfold lex_identifier.
  set (p1 := run_scan is_identifier_char p).
  destruct (if (cur p1 + 1 <? parser_end p1) && negb (peek p1 1 =? ch "=")
            then match_either p1 (ch "!") (ch "?") else (false, p1)) as [suffix p2].
  destruct suffix.
  - destruct (negb (previous_is_dot p2) && KEYWORD p2 _ "defined?" 8);
      intros [= <- _]; repeat split; discriminate.
  - destruct (if negb (previous_is_dot p2) then first_keyword p2 _ keywords else None)
      as [tok|] eqn:Hk.
    + intros [= <- _]. destruct (negb (previous_is_dot p2)); [|discriminate].
      apply first_keyword_found in Hk as (K & size & Hin & _).
      pose proof keywords_plain as Hn. rewrite List.Forall_forall in Hn.
      exact (Hn _ (or_intror Hin)).
    + destruct (_ && _); intros [= <- _]; repeat split; discriminate.
Qed.

Lemma lex_numeric_plain (p q : yp_parser_t) (ty : yp_token_type_t) :
  lex_numeric p = (ty, q) -> opens_mode ty = false /\ is_closer ty = false.
Proof.
  unfold lex_numeric, match_.
  destruct (lex_numeric_prefix p) as [t x] eqn:E.
  apply lex_numeric_prefix_kind in E as ([-> | [-> | ->]] & _);
    repeat match goal with
    | |- context [if ?c then (_, _) else (_, _)] => destruct c
    end; intros [= <- _]; split; reflexivity.
Qed.

Lemma lex_global_variable_plain (p q : yp_parser_t) (ty : yp_token_type_t) :
  lex_global_variable p = (ty, q) -> opens_mode ty = false /\ is_closer ty = false.
Proof.
  unfold lex_global_variable.
  repeat match goal with
  | |- (if ?c then _ else _) = _ -> _ => destruct c
  end; intros [= <- _]; split; reflexivity.
Qed.

Ltac next_lexer_plain :=
  match goal with
  | |- context [lex_numeric ?p] =>
      let t := fresh "t" in let q := fresh "q" in let E := fresh "E" in
      destruct (lex_numeric p) as [t q] eqn:E;
      pose proof (lex_numeric_plain _ _ _ E) as (? & ?); apply lex_numeric_fwd in E
  | |- context [lex_global_variable ?p] =>
      let t := fresh "t" in let q := fresh "q" in let E := fresh "E" in
      destruct (lex_global_variable p) as [t q] eqn:E;
      pose proof (lex_global_variable_plain _ _ _ E) as (? & ?);
      apply lex_global_variable_fwd in E
  | |- context [lex_identifier ?p] =>
      let t := fresh "t" in let q := fresh "q" in let E := fresh "E" in
      destruct (lex_identifier p) as [t q] eqn:E;
      pose proof (lex_identifier_plain _ _ _ E) as (? & ? & ?);
      apply lex_identifier_fwd in E
  end.

(** Split a case of [lex_token_type] along its tests, keeping of each
    specific lexer that its token neither opens nor closes a mode. *)
Ltac split_case_plain :=
  repeat first
    [ match goal with
      | |- (if ?b then _ else _) = _ -> _ => destruct b eqn:?
      | |- (?m ≫= _) = _ -> _ => destruct m eqn:?; cbn [mbind option_bind]
      end
    | next_match
    | next_def_or_dot
    | next_lexer_plain
    | match goal with
      | |- (match ?c with _ => _ end) = _ -> _ => destruct c eqn:?
      end ].

(** Close a branch: the index against the token type. *)
Ltac depth_leaf p0 :=
  first
    [ discriminate
    | intros [= <- <-];
      repeat match goal with
      | |- context [opens_mode (if ?r then _ else _)] => destruct r
      end;
      repeat match goal with
      | H : opens_mode ?t = false |- context [opens_mode ?t] => rewrite H
      | H : is_closer ?t = false |- context [is_closer ?t] => rewrite H
      end;
      cbn [opens_mode is_closer];
      lazymatch goal with
      | |- lex_modes_index (push_lex_mode ?q ?m) = S _ =>
          let K := fresh "K" in let L := fresh "L" in
          assert (same_frame p0 q) as K by frame_chain;
          destruct K as (_ & _ & K & _);
          destruct (push_lex_mode_tokens q m) as (_ & _ & _ & _ & L);
          clear - K L; lia
      | H : pop_lex_mode ?q = Some ?y |- lex_modes_index ?y = _ =>
          let K := fresh "K" in
          assert (same_frame p0 q) as K by frame_chain;
          destruct K as (_ & _ & K & _);
          apply pop_lex_mode_tokens in H as (_ & _ & _ & _ & _ & H);
          match goal with
          | N : lex_modes_index p0 <> 0%nat |- _ => clear - K H N; lia
          end
      | |- lex_modes_index ?x = _ =>
          let K := fresh "K" in
          assert (same_frame p0 x) as K by frame_chain;
          destruct K as (_ & _ & K & _); exact K
      end ].

Lemma lex_default_depth (top : yp_lex_mode_t) (p p' : yp_parser_t) (ty : yp_token_type_t) :
  mode top = YP_LEX_DEFAULT \/ mode top = YP_LEX_EMBEXPR ->
  (mode top = YP_LEX_EMBEXPR -> lex_modes_index p <> 0%nat) ->
  lex_default top p = Some (ty, p') ->
  lex_modes_index p'
  = if opens_mode ty then S (lex_modes_index p)
    else if closes_mode (mode top) ty then (lex_modes_index p - 1)%nat
    else lex_modes_index p.
Proof.
  intros Hm Hnz. unfold lex_default.
  set (ps := run_scan is_non_newline_whitespace_char p).
  set (c := peek (set_start ps (cur ps)) 0).
  set (p0 := advance (set_start ps (cur ps)) 1).
  change (lex_modes_index p) with (lex_modes_index p0) in *.
  clearbody p0. clearbody c. clear ps.
  unfold ret_match, ret, lex_percent.
  destruct Hm as [Hm|Hm]; rewrite Hm in *; cbn [closes_mode];
    try specialize (Hnz eq_refl);
    split_case_plain; depth_leaf p0.
Qed.

Ltac default_handlers :=
  cbn [default_error_handler unterminated_embdoc unterminated_list unterminated_regexp
       unterminated_string unrecoverable].

Lemma lex_embdoc_depth (p p' : yp_parser_t) (ty : yp_token_type_t) :
  lex_modes_index p <> 0%nat ->
  lex_embdoc default_error_handler p = Some (ty, p') ->
  lex_modes_index p'
  = if opens_mode ty then S (lex_modes_index p)
    else if is_closer ty then (lex_modes_index p - 1)%nat else lex_modes_index p.
Proof.
  intros Hnz. unfold lex_embdoc, ret. default_handlers.
  set (p1 := set_start p (cur p)).
  change (lex_modes_index p) with (lex_modes_index p1) in *. clearbody p1.
  split_case_plain; depth_leaf p1.
Qed.

Lemma lex_list_depth (top : yp_lex_mode_t) (p p' : yp_parser_t) (ty : yp_token_type_t) :
  lex_modes_index p <> 0%nat ->
  lex_list default_error_handler top p = Some (ty, p') ->
  lex_modes_index p'
  = if opens_mode ty then S (lex_modes_index p)
    else if is_closer ty then (lex_modes_index p - 1)%nat else lex_modes_index p.
Proof.
  intros Hnz. unfold lex_list, ret. default_handlers.
  set (p1 := set_start p (cur p)).
  change (lex_modes_index p) with (lex_modes_index p1) in *.
  generalize (peek p 0). intros c. clearbody p1.
  split_case_plain; depth_leaf p1.
Qed.

Lemma lex_regexp_depth (top : yp_lex_mode_t) (p p' : yp_parser_t) (ty : yp_token_type_t) :
  lex_modes_index p <> 0%nat ->
  lex_regexp default_error_handler top p = Some (ty, p') ->
  lex_modes_index p'
  = if opens_mode ty then S (lex_modes_index p)
    else if is_closer ty then (lex_modes_index p - 1)%nat else lex_modes_index p.
Proof.
  intros Hnz. unfold lex_regexp, match_, ret. default_handlers.
  set (p1 := set_start p (cur p)).
  change (lex_modes_index p) with (lex_modes_index p1) in *. clearbody p1.
  destruct (peek p1 0 =? term top).
  - split_case_plain; depth_leaf p1.
  - split_case_plain; depth_leaf p1.
Qed.

Lemma lex_string_depth (top : yp_lex_mode_t) (p p' : yp_parser_t) (ty : yp_token_type_t) :
  lex_modes_index p <> 0%nat ->
  lex_string default_error_handler top p = Some (ty, p') ->
  lex_modes_index p'
  = if opens_mode ty then S (lex_modes_index p)
    else if is_closer ty then (lex_modes_index p - 1)%nat else lex_modes_index p.
Proof.
  intros Hnz. unfold lex_string, match_, ret. default_handlers.
  set (p1 := set_start p (cur p)).
  change (lex_modes_index p) with (lex_modes_index p1) in *. clearbody p1.
  destruct (peek p1 0 =? term top).
  - split_case_plain; depth_leaf p1.
  - split_case_plain; depth_leaf p1.
Qed.

Lemma closes_symbol (ty : yp_token_type_t) :
  ty <> YP_TOKEN_INVALID -> closes_mode YP_LEX_SYMBOL ty = true.
Proof. intros H. destruct ty; try reflexivity. congruence. Qed.

Lemma lex_symbol_depth (p p' : yp_parser_t) (ty : yp_token_type_t) :
  lex_modes_index p <> 0%nat ->
  lex_symbol p = Some (ty, p') ->
  lex_modes_index p'
  = if opens_mode ty then S (lex_modes_index p)
    else if closes_mode YP_LEX_SYMBOL ty then (lex_modes_index p - 1)%nat
    else lex_modes_index p.
Proof.
  intros Hnz. unfold lex_symbol, ret.
  set (p1 := set_start p (cur p)).
  change (lex_modes_index p) with (lex_modes_index p1) in *. clearbody p1.
  destruct (cur p1 <? parser_end p1); [|intros [= <- <-]; reflexivity].
  destruct (is_identifier_start_char (peek p1 0)); [|intros [= <- <-]; reflexivity].
  destruct (pop_lex_mode (advance p1 1)) as [y|] eqn:Hp; [|discriminate].
  cbn [mbind option_bind].
  destruct (lex_identifier y) as [t q1] eqn:E.
  pose proof (lex_identifier_plain _ _ _ E) as (Ho & Hc & Hi).
  apply lex_identifier_fwd in E as (e1 & -> & _).
  unfold match_. apply pop_lex_mode_tokens in Hp as (_ & _ & _ & _ & _ & Hp).
  specialize (Hp Hnz). change (lex_modes_index (advance p1 1)) with (lex_modes_index p1) in Hp.
  destruct (peek (set_end y e1) 0 =? ch "="); intros [= <- <-].
  - cbn [opens_mode closes_mode]. exact Hp.
  - rewrite Ho, (closes_symbol t Hi). exact Hp.
Qed.

(** X20: the depth of the mode stack follows the token that a call
    returns (handlers of the extension, stack inside the inline array).
    The index grows by one exactly with a token that opens a literal or an
    embedded expression (EMBDOC_BEGIN, STRING_BEGIN, BACKTICK,
    SYMBOL_BEGIN, REGEXP_BEGIN, EMBEXPR_BEGIN, the four percent list
    openers and PERCENT_LOWER_X); it shrinks by one exactly with a closer
    (EMBDOC_END, STRING_END, REGEXP_END, EMBEXPR_END) and, in the symbol
    mode, with every token but INVALID; with any other token it stays. *)
Theorem mode_depth_by_token (p p' : yp_parser_t) (top : yp_lex_mode_t) :
  stack_inv p -> top_mode p = Some top ->
  yp_lex_token default_error_handler p = Some p' ->
  lex_modes_index p'
  = if opens_mode (type (current p')) then S (lex_modes_index p)
    else if closes_mode (mode top) (type (current p')) then (lex_modes_index p - 1)%nat
    else lex_modes_index p.
Proof.
  intros Hi Ht. destruct (stack_inv_index p top Hi Ht) as (_ & _ & Hbase).
  rewrite (yp_lex_token_unfold _ p top Ht).
  set (p0 := set_previous p (current p)).
  change (lex_modes_index p) with (lex_modes_index p0) in *.
  assert (mode top <> YP_LEX_DEFAULT -> lex_modes_index p0 <> 0%nat) as Hnz.
  { intros Hm Hz. apply Hm. apply Hbase. exact Hz. }
  clear Hbase. clearbody p0.
  destruct (mode top) eqn:Em.
  - destruct (lex_default top p0) as [[ty x]|] eqn:E; [|discriminate].
    cbn [mbind option_bind]. intros [= <-].
    apply lex_default_depth in E; [|left; exact Em|rewrite Em; discriminate].
    rewrite Em in E. exact E.
  - destruct (lex_embdoc _ p0) as [[ty x]|] eqn:E; [|discriminate].
    cbn [mbind option_bind]. intros [= <-].
    apply lex_embdoc_depth in E; [exact E|apply Hnz; discriminate].
  - destruct (lex_default top p0) as [[ty x]|] eqn:E; [|discriminate].
    cbn [mbind option_bind]. intros [= <-].
    apply lex_default_depth in E; [|right; exact Em|intros _; apply Hnz; discriminate].
    rewrite Em in E. exact E.
  - destruct (lex_list _ top p0) as [[ty x]|] eqn:E; [|discriminate].
    cbn [mbind option_bind]. intros [= <-].
    apply lex_list_depth in E; [exact E|apply Hnz; discriminate].
  - destruct (lex_regexp _ top p0) as [[ty x]|] eqn:E; [|discriminate].
    cbn [mbind option_bind]. intros [= <-].
    apply lex_regexp_depth in E; [exact E|apply Hnz; discriminate].
  - destruct (lex_string _ top p0) as [[ty x]|] eqn:E; [|discriminate].
    cbn [mbind option_bind]. intros [= <-].
    apply lex_string_depth in E; [exact E|apply Hnz; discriminate].
  - destruct (lex_symbol p0) as [[ty x]|] eqn:E; [|discriminate].
    cbn [mbind option_bind]. intros [= <-].
    apply lex_symbol_depth in E; [exact E|apply Hnz; discriminate].
Qed.

Lemma mode_depth_by_token_witness :
  let src := DQ ++ bytes_of_string "a" ++ DQ in
  lex_modes_index (state_after 3 src) = 0%nat.
Proof.
  intros src.
  assert (stack_inv (state_after 2 src)) as Hi by (vm_compute; repeat split).
  assert (top_mode (state_after 2 src)
          = Some {| mode := YP_LEX_STRING; term := ch "034"; interp := true;
                    prev := StackSlot 0 |}) as Ht by (vm_compute; reflexivity).
  assert (yp_lex_token default_error_handler (state_after 2 src)
          = Some (state_after 3 src)) as H by (vm_compute; reflexivity).
  rewrite (mode_depth_by_token _ _ _ Hi Ht H). vm_compute. reflexivity.
Defined.

(** ** Comments *)

(** X21: a comment.  When the first byte after the blanks is [#], the
    default case returns a COMMENT token that starts at the [#] and runs
    over every byte that is neither a newline nor NUL; a newline that
    stops the run is part of the token, a NUL is not; and the line number
    is left as it is, the newline of the comment included. *)
Theorem comment_extent (top : yp_lex_mode_t) (p : yp_parser_t) :
  0 <= cur p ->
  let s := cur (run_scan is_non_newline_whitespace_char p) in
  byte_at (source p) s = ch "#" ->
  exists e p',
    lex_default top p = Some (YP_TOKEN_COMMENT, p')
    /\ start (current p') = s /\ s < e /\ lineno p' = lineno p
    /\ (forall i, s < i < e ->
          byte_at (source p) i <> ch "010" /\ byte_at (source p) i <> 0)
    /\ ((byte_at (source p) e = ch "010" /\ cur p' = e + 1)
        \/ (byte_at (source p) e = 0 /\ cur p' = e)).
Proof.
  intros Hpos s Hs.
  set (f := fun b => negb (b =? ch "010") && negb (b =? 0)).
  set (e := scan_while f (source p) (fuel_of (source p)) (s + 1)).
  assert (0 <= s) as Hs0.
  { pose proof (scan_while_le is_non_newline_whitespace_char (source p)
                  (fuel_of (source p)) (cur p)) as H.
    change (scan_while is_non_newline_whitespace_char (source p) (fuel_of (source p)) (cur p))
      with s in H. clearbody s. lia. }
  assert (s + 1 <= e) as Hle by apply scan_while_le.
  assert (f (byte_at (source p) e) = false) as Hstop.
  { apply scan_while_exit; [reflexivity|]. apply fuel_of_enough. clearbody s. lia. }
  assert (forall i, s + 1 <= i < e -> f (byte_at (source p) i) = true) as Hall.
  { intros i Hi. eapply scan_while_all. exact Hi. }
  exists e.
  unfold lex_default.
  set (ps := run_scan is_non_newline_whitespace_char p) in *.
  change (peek (set_start ps (cur ps)) 0) with (byte_at (source p) (s + 0)).
  rewrite Z.add_0_r, Hs.
  change ((ch "#" =? 0) || (ch "#" =? 4) || (ch "#" =? 26)) with false.
  change (ch "#" =? ch "#") with true. cbv iota.
  set (p0 := advance (set_start ps (cur ps)) 1).
  change (run_scan _ p0) with (set_end p0 e).
  unfold match_, ret.
  change (peek (set_end p0 e) 0) with (byte_at (source p) (e + 0)). rewrite Z.add_0_r.
  assert (forall i, s < i < e ->
            byte_at (source p) i <> ch "010" /\ byte_at (source p) i <> 0) as Hin.
  { intros i Hi. assert (s + 1 <= i < e) as Hi' by (clearbody s e; lia).
    specialize (Hall i Hi'). unfold f in Hall.
    apply andb_true_iff in Hall as (H1 & H2).
    apply negb_true_iff in H1, H2. apply Z.eqb_neq in H1, H2. split; assumption. }
  destruct (byte_at (source p) e =? ch "010") eqn:Enl.
  - eexists. split; [reflexivity|]. split; [reflexivity|].
    split; [clear - Hle; clearbody s e; lia|].
    split; [reflexivity|]. split; [exact Hin|].
    left. apply Z.eqb_eq in Enl. split; [exact Enl|reflexivity].
  - eexists. split; [reflexivity|]. split; [reflexivity|].
    split; [clear - Hle; clearbody s e; lia|].
    split; [reflexivity|]. split; [exact Hin|].
    right. unfold f in Hstop. rewrite Enl in Hstop. cbn [negb andb] in Hstop.
    apply negb_false_iff in Hstop. apply Z.eqb_eq in Hstop. split; [exact Hstop|reflexivity].
Qed.

Lemma comment_extent_witness :
  let p := yp_parser_init (bytes_of_string " #a" ++ NL ++ bytes_of_string "b") in
  exists e p', lex_default (lex_mode_lit YP_LEX_DEFAULT 0 false) p
               = Some (YP_TOKEN_COMMENT, p') /\ 1 < e.
Proof.
  intros p.
  destruct (comment_extent (lex_mode_lit YP_LEX_DEFAULT 0 false) p) as (e & p' & H & _ & He & _).
  - vm_compute. discriminate.
  - vm_compute. reflexivity.
  - exists e, p'. split; [exact H|].
    change (cur (run_scan is_non_newline_whitespace_char p)) with 1 in He. exact He.
Defined.
